(** * live-image-gen: the canvas state orchestrator and its generation client

    A shallow embedding of the client-side orchestration code of the
    image canvas (the page component with its handlers) and of the server
    actions it awaits ([falService.ts], [openaiService.ts],
    [supabaseService.ts]).

    Conventions of the embedding.
    - JavaScript numbers that hold pixel coordinates are finite binary64
      values, held as the rationals ([Q]) they denote.  [Math.min] and
      [Math.max] are exact, and so are the halving of an integer and the
      integer and half-integer arithmetic of the grid layout; a sum or a
      difference that involves a stored position is rounded to the nearest
      binary64 value ([Double.add], [Double.sub]).  DOM measurements
      ([offsetWidth], ...) are integers ([Z]).
    - A JavaScript string is the sequence of its UTF-16 code units, each
      written as the bytes of its UTF-8 form: one byte below U+0080, two
      below U+0800, three from there on, a surrogate like any other unit
      ([encodeUnit]).  Equality, emptiness and concatenation of strings are
      those of these byte sequences, and ASCII literals are unchanged.
    - An optional field [f?: T] is an [option T]; truthiness of a string
      is non-emptiness.
    - React state is a record; [setX v] writes a field, and a functional
      update [setX(prev => f prev)] reads the field of the state it is
      applied to.  React runs such an updater when it renders next, in the
      order of the calls; a handler that reads a variable the updater
      assigns reads it before the updater ran.  An [async] handler is split at its [await]: the part
      before it returns the state together with the task that is awaited,
      the part after it consumes the outcome of the awaited call on the
      state that is current at that moment. *)

From Stdlib Require Import ZArith QArith Qminmax Qround Qabs Lqa Lia.
From Stdlib Require Qcanon.
From stdpp Require Import base option list strings pretty.

Local Open Scope string_scope.
Local Open Scope list_scope.

(** ** JavaScript values *)

(** Truthiness of a string and of an optional string. *)
Definition truthy (s : string) : bool := negb (String.eqb s "").

Definition truthy_opt (o : option string) : bool :=
  match o with
  | Some s => truthy s
  | None => false
  end.

(** [a || b] where [a] is an optional string and [b] a string. *)
Definition or_else (a : option string) (b : string) : string :=
  match a with
  | Some s => if truthy s then s else b
  | None => b
  end.

(** What a rejected promise carries: an [Error] with its message, or any
    other thrown value. *)
Inductive Thrown : Type :=
  | ErrorObject (message : string)
  | OtherValue.

(** The settlement of an awaited call. *)
Inductive Outcome (A : Type) : Type :=
  | Resolved (a : A)
  | Rejected (e : Thrown).

Arguments Resolved {A} a.
Arguments Rejected {A} e.

(** ** Numbers: IEEE 754 binary64 *)

Module Double.

(** [2 ^ e] for an integer exponent. *)
Definition pow2 (e : Z) : Q :=
  if (0 <=? e)%Z then inject_Z (2 ^ e) else 1 # Z.to_pos (2 ^ (- e)).

(** The integer part of the binary logarithm of a positive rational. *)
Definition ilog2 (q : Q) : Z :=
  let k := (Z.log2 (Qnum q) - Z.log2 (Zpos (Qden q)))%Z in
  if Qle_bool (pow2 k) q then k else (k - 1)%Z.

(** The nearest integer, a tie going to the even one. *)
Definition nearestEven (q : Q) : Z :=
  let f := Qfloor q in
  match (q - inject_Z f ?= 1 # 2)%Q with
  | Lt => f
  | Gt => (f + 1)%Z
  | Eq => if Z.even f then f else (f + 1)%Z
  end.

(** The exponent of the unit in the last place around [q]: 53 bits of
    precision, and the subnormal spacing [2 ^ -1074] below [2 ^ -1022]. *)
Definition ulpExponent (q : Q) : Z :=
  Z.max (-1074) (ilog2 (Qabs q) - 52).

(** Rounding to the nearest binary64 value, ties to even.  Overflow to an
    infinity is left out: the constants the page adds to a position are far
    below half a unit in the last place of the largest finite value, so no
    sum of the page overflows. *)
Definition round (q : Q) : Q :=
  let q := Qred q in
  if Qeq_bool q 0 then 0
  else
    let e := ulpExponent q in
    Qred (inject_Z (nearestEven (q * pow2 (- e))) * pow2 e).

(** [x + y] and [x - y] on numbers. *)
Definition add (x y : Q) : Q := round (x + y).

Definition sub (x y : Q) : Q := round (x - y).

End Double.

(** ** types/generatedImage.ts *)

Module GeneratedImage.
Record t : Type := mk {
  id : string;
  imageUrl : option string;
  promptUsed : option string;
  error : option string
}.
End GeneratedImage.

(** ** services/openaiService.ts: the value [getPromptVariants] resolves to.
    The function catches every exception itself, so it never rejects. *)

Module PromptVariants.
Record t : Type := mk {
  variants : list string;
  error : option string
}.
End PromptVariants.

(** ** services/falService.ts *)

Module FalService.

(** [generateImage].  [uuid] is the settlement of [generateUuid()], which
    is awaited outside the [try]; [fal] is the settlement of
    [fal.subscribe], already projected to
    [result?.data?.images?.[0]?.url].  [StoreImageDataDb] catches its own
    failures and its result is discarded. *)
Definition generateImage (uuid : Outcome string) (fal : Outcome (option string))
    (prompt : string) (imageSize : Z) : Outcome GeneratedImage.t :=
  match uuid with
  | Rejected e => Rejected e
  | Resolved imageId =>
      match fal with
      | Resolved imageUrl =>
          Resolved (GeneratedImage.mk imageId imageUrl (Some prompt) None)
      | Rejected e =>
          let message :=
            match e with
            | ErrorObject m => m
            | OtherValue => "Unknown error during image generation."
            end in
          Resolved (GeneratedImage.mk "" None (Some prompt) (Some message))
      end
  end.

(** The guard of the augmentation-failure branch:
    [promptVariants.error || !promptVariants.variants ||
     promptVariants.variants.length === 0]. *)
Definition augmentationFailed (promptVariants : PromptVariants.t) : bool :=
  truthy_opt (PromptVariants.error promptVariants)
  || (length (PromptVariants.variants promptVariants) =? 0)%nat.

(** The [.catch] attached to each [generateImage] promise. *)
Definition caught (variantPrompt : string) (o : Outcome GeneratedImage.t)
    : GeneratedImage.t :=
  match o with
  | Resolved r => r
  | Rejected e =>
      GeneratedImage.mk "" None (Some variantPrompt)
        (Some match e with
              | ErrorObject m => "Unexpected Exception: " +:+ m
              | OtherValue => "Unexpected generation exception"
              end)
  end.

(** [generateImageVariations].  [uuids i] and [fals i] settle the two
    external calls made by the [i]-th [generateImage]. *)
Definition generateImageVariations (promptVariants : PromptVariants.t)
    (uuids : nat → Outcome string) (fals : nat → Outcome (option string))
    (originalPrompt parentId : string) (imageSize : Z)
    : list GeneratedImage.t :=
  if augmentationFailed promptVariants then
    let errorMsg :=
      or_else (PromptVariants.error promptVariants)
              "Failed to get prompt variants." in
    [ GeneratedImage.mk ""
        None
        (Some originalPrompt)
        (Some ("Prompt Variation Generation failed: " +:+ errorMsg)) ]
  else
    imap (λ index variantPrompt,
            caught variantPrompt
              (generateImage (uuids index) (fals index) variantPrompt imageSize))
         (PromptVariants.variants promptVariants).

(** [successfulVariants]: the results whose parent→variant relationship
    is logged with [StoreImageRelationshipDb] before the list is
    returned. *)
Definition successfulVariants (results : list GeneratedImage.t)
    : list GeneratedImage.t :=
  filter (λ v, truthy (GeneratedImage.id v) = true
               ∧ truthy_opt (GeneratedImage.error v) = false) results.

End FalService.

(** ** services/supabaseService.ts *)

Module SupabaseResult.
Record t : Type := mk { error : option string }.
End SupabaseResult.

Module SupabaseService.

(** What [fetch(src)] resolves to, as far as [saveImageBlob] looks at it. *)
Record Response : Type := {
  ok : bool;
  hasBody : bool
}.

(** The external calls of one [saveImageBlob] run: whether the client
    exists, the download, the reading of its body ([response.blob()],
    projected to the blob's type), and the [error] member of the storage
    upload and of the table update (each call may also reject). *)
Record World : Type := {
  supabase : bool;
  fetched : Outcome Response;
  blob : Outcome string;
  uploadError : Outcome (option string);
  updateError : Outcome (option string)
}.

(** The [catch] clause of [saveImageBlob]. *)
Definition saveFailure (e : Thrown) : SupabaseResult.t :=
  SupabaseResult.mk
    (Some match e with
          | ErrorObject m => m
          | OtherValue => "An unexpected error occurred during saveImageBlob."
          end).

(** [saveImageBlob]: every path returns a result object; nothing is
    rethrown. *)
Definition saveImageBlob (w : World) (id src : string) : SupabaseResult.t :=
  if negb (supabase w) then
    SupabaseResult.mk (Some "Supabase client not available.")
  else
    match fetched w with
    | Rejected e => saveFailure e
    | Resolved response =>
        if negb (ok response) || negb (hasBody response) then
          SupabaseResult.mk (Some "Failed to download image from URL")
        else
          match blob w with
          | Rejected e => saveFailure e
          | Resolved _ =>
              match uploadError w with
              | Rejected e => saveFailure e
              | Resolved (Some _) =>
                  SupabaseResult.mk (Some "Failed to save Image")
              | Resolved None =>
                  match updateError w with
                  | Rejected e => saveFailure e
                  | Resolved (Some _) =>
                      SupabaseResult.mk (Some "Failed to save image")
                  | Resolved None => SupabaseResult.mk None
                  end
              end
          end
    end.

End SupabaseService.

(** ** The page component: data *)

Module Position.
Record t : Type := mk { x : Q; y : Q }.
End Position.

Module ImageInfo.
Record t : Type := mk {
  id : string;
  src : string;
  prompt : string;
  position : Position.t;
  parentId : option string;
  isLoading : option bool;
  isPlaceholder : option bool
}.

(** [{ ...img, isLoading: b }] *)
Definition with_isLoading (b : bool) (img : t) : t :=
  mk (id img) (src img) (prompt img) (position img) (parentId img)
     (Some b) (isPlaceholder img).

(** [{ ...img, position: p }] *)
Definition with_position (p : Position.t) (img : t) : t :=
  mk (id img) (src img) (prompt img) p (parentId img)
     (isLoading img) (isPlaceholder img).

(** [{ ...img, id, src, prompt, isLoading: false, isPlaceholder: false }] *)
Definition with_result (newId newSrc newPrompt : string) (img : t) : t :=
  mk newId newSrc newPrompt (position img) (parentId img)
     (Some false) (Some false).
End ImageInfo.

Definition INITIAL_PLACEHOLDER_ID : string := "initial-placeholder".
Definition IMAGE_SIZE : Z := 150.
Definition DUPLICATION_OFFSET : Z := 25.
Definition GRID_GAP : Z := 20.
Definition DEBOUNCE_DELAY : Z := 750.
Definition HEADER_HEIGHT : Z := 80.

(** The container element behind [containerRef], as far as the handlers
    read and write it. *)
Module Container.
Record t : Type := mk {
  offsetWidth : Z;
  offsetHeight : Z;
  scrollHeight : Z;
  minHeight : option Z              (* style.minHeight, in px *)
}.

Definition with_minHeight (h : Z) (c : t) : t :=
  mk (offsetWidth c) (offsetHeight c) (scrollHeight c) (Some h).
End Container.

(** The state of [ImageGeneratorPage]: its [useState] cells, the two refs,
    and the debounced value of [useDebounceWithReset].  [errorLog] is ghost
    state: the non-null messages passed to [setError] so far, newest
    first. *)
Record State : Type := mkState {
  prompt : string;
  images : list ImageInfo.t;
  selectedImageId : option string;
  error : option string;
  containerRef : option Container.t;
  debouncedPrompt : string;
  isRegeneratingRef : bool;
  isImageDropdownOpen : bool;
  savedImages : list ImageInfo.t;
  isLoadingSavedImages : bool;
  errorLog : list string
}.

Definition setPrompt (v : string) (st : State) : State :=
  mkState v (images st) (selectedImageId st) (error st) (containerRef st)
    (debouncedPrompt st) (isRegeneratingRef st) (isImageDropdownOpen st)
    (savedImages st) (isLoadingSavedImages st) (errorLog st).

(** [setImages(prev => f prev)] *)
Definition setImages (f : list ImageInfo.t → list ImageInfo.t) (st : State)
    : State :=
  mkState (prompt st) (f (images st)) (selectedImageId st) (error st)
    (containerRef st) (debouncedPrompt st) (isRegeneratingRef st)
    (isImageDropdownOpen st) (savedImages st) (isLoadingSavedImages st)
    (errorLog st).

Definition setSelectedImageId (v : option string) (st : State) : State :=
  mkState (prompt st) (images st) v (error st) (containerRef st)
    (debouncedPrompt st) (isRegeneratingRef st) (isImageDropdownOpen st)
    (savedImages st) (isLoadingSavedImages st) (errorLog st).

Definition setError (v : option string) (st : State) : State :=
  mkState (prompt st) (images st) (selectedImageId st) v (containerRef st)
    (debouncedPrompt st) (isRegeneratingRef st) (isImageDropdownOpen st)
    (savedImages st) (isLoadingSavedImages st)
    (match v with
     | Some message => message :: errorLog st
     | None => errorLog st
     end).

Definition setContainer (v : option Container.t) (st : State) : State :=
  mkState (prompt st) (images st) (selectedImageId st) (error st) v
    (debouncedPrompt st) (isRegeneratingRef st) (isImageDropdownOpen st)
    (savedImages st) (isLoadingSavedImages st) (errorLog st).

(** [resetDebouncedPrompt(v)] of the debounce hook. *)
Definition resetDebouncedPrompt (v : string) (st : State) : State :=
  mkState (prompt st) (images st) (selectedImageId st) (error st)
    (containerRef st) v (isRegeneratingRef st) (isImageDropdownOpen st)
    (savedImages st) (isLoadingSavedImages st) (errorLog st).

Definition setIsRegenerating (v : bool) (st : State) : State :=
  mkState (prompt st) (images st) (selectedImageId st) (error st)
    (containerRef st) (debouncedPrompt st) v (isImageDropdownOpen st)
    (savedImages st) (isLoadingSavedImages st) (errorLog st).

Definition setIsImageDropdownOpen (v : bool) (st : State) : State :=
  mkState (prompt st) (images st) (selectedImageId st) (error st)
    (containerRef st) (debouncedPrompt st) (isRegeneratingRef st) v
    (savedImages st) (isLoadingSavedImages st) (errorLog st).

Definition setSavedImages (v : list ImageInfo.t) (st : State) : State :=
  mkState (prompt st) (images st) (selectedImageId st) (error st)
    (containerRef st) (debouncedPrompt st) (isRegeneratingRef st)
    (isImageDropdownOpen st) v (isLoadingSavedImages st) (errorLog st).

Definition setIsLoadingSavedImages (v : bool) (st : State) : State :=
  mkState (prompt st) (images st) (selectedImageId st) (error st)
    (containerRef st) (debouncedPrompt st) (isRegeneratingRef st)
    (isImageDropdownOpen st) (savedImages st) v (errorLog st).

(** [images.find(img => img.id === id)] *)
Definition findImage (id : string) (l : list ImageInfo.t) : option ImageInfo.t :=
  snd <$> list_find (λ img, ImageInfo.id img = id) l.

(** The awaited calls a handler can be suspended on, with what the rest of
    the handler has captured in its closure. *)
Inductive Task : Type :=
  | RegenerateTask (imageId newPrompt : string)
  | VariationsTask (placeholderIds : list string) (parentPrompt : string)
  | DuplicateTask (sourceImage : ImageInfo.t) (sourceImageId : string)
      (position : Position.t)
  | SaveTask
  | LoadSavedTask.

(** ** The page component: helpers *)

Definition setPromptAndResetDebounce (newValue : string) (st : State) : State :=
  resetDebouncedPrompt newValue (setPrompt newValue st).

Definition toggleImageDropdown (st : State) : State :=
  setIsImageDropdownOpen (negb (isImageDropdownOpen st)) st.

Definition clampPositionToBounds (position : Position.t)
    (container : option Container.t) (itemSize : Z) : Position.t :=
  match container with
  | None => position
  | Some container =>
      let containerWidth := Container.offsetWidth container in
      let containerScrollHeight := Container.scrollHeight container in
      let maxX := Z.max 0 (containerWidth - itemSize) in
      let effectiveHeight :=
        Z.max (Container.offsetHeight container) containerScrollHeight in
      let maxY := Z.max 0 (effectiveHeight - itemSize) in
      let clampedX := Qmax 0 (Qmin (Position.x position) (inject_Z maxX)) in
      let clampedY := Qmax 0 (Qmin (Position.y position) (inject_Z maxY)) in
      Position.mk clampedX clampedY
  end.

(** The bytes of one UTF-16 code unit. *)
Definition encodeUnit (u : N) : string :=
  if (u <? 128)%N then String (Ascii.ascii_of_N u) ""
  else if (u <? 2048)%N then
    String (Ascii.ascii_of_N (192 + u / 64))
      (String (Ascii.ascii_of_N (128 + u mod 64)) "")
  else
    String (Ascii.ascii_of_N (224 + u / 4096))
      (String (Ascii.ascii_of_N (128 + (u / 64) mod 64))
         (String (Ascii.ascii_of_N (128 + u mod 64)) "")).

(** The code units [String.prototype.trim] strips: the white space TAB,
    VT, FF, SP, NBSP, ZWNBSP and the other space separators (U+1680,
    U+2000 to U+200A, U+202F, U+205F, U+3000), and the line terminators
    LF, CR, LS and PS. *)
Definition isWhiteSpaceUnit (u : N) : bool :=
  ((9 <=? u) && (u <=? 13) || (u =? 32) || (u =? 160) || (u =? 5760)
   || (8192 <=? u) && (u <=? 8202) || (u =? 8232) || (u =? 8233)
   || (u =? 8239) || (u =? 8287) || (u =? 12288) || (u =? 65279))%N.

(** The same units by their bytes: one byte, ... *)
Definition isWhiteSpace (c : Ascii.ascii) : bool :=
  let n := Ascii.N_of_ascii c in
  ((9 <=? n) && (n <=? 13) || (n =? 32))%N.

(** ... two bytes (C2 A0), ... *)
Definition isWhiteSpace2 (a b : Ascii.ascii) : bool :=
  ((Ascii.N_of_ascii a =? 194) && (Ascii.N_of_ascii b =? 160))%N.

(** ... or three (E1 9A 80; E2 80 80 to 8A, A8, A9, AF; E2 81 9F;
    E3 80 80; EF BB BF). *)
Definition isWhiteSpace3 (a b c : Ascii.ascii) : bool :=
  let a := Ascii.N_of_ascii a in
  let b := Ascii.N_of_ascii b in
  let c := Ascii.N_of_ascii c in
  ((a =? 225) && (b =? 154) && (c =? 128)
   || (a =? 226) && (b =? 128)
      && ((128 <=? c) && (c <=? 138) || (c =? 168) || (c =? 169) || (c =? 175))
   || (a =? 226) && (b =? 129) && (c =? 159)
   || (a =? 227) && (b =? 128) && (c =? 128)
   || (a =? 239) && (b =? 187) && (c =? 191))%N.

(** Strip the white space units a string starts with; [backwards] when the
    string is read from its end, so that the bytes of a unit arrive in
    reverse. *)
Fixpoint strip (backwards : bool) (s : string) : string :=
  match s with
  | EmptyString => EmptyString
  | String a s1 =>
      if isWhiteSpace a then strip backwards s1
      else
        match s1 with
        | String b s2 =>
            if (if backwards then isWhiteSpace2 b a else isWhiteSpace2 a b)
            then strip backwards s2
            else
              match s2 with
              | String c s3 =>
                  if (if backwards then isWhiteSpace3 c b a
                      else isWhiteSpace3 a b c)
                  then strip backwards s3
                  else s
              | EmptyString => s
              end
        | EmptyString => s
        end
  end.

Definition trimStart (s : string) : string := strip false s.

Definition trimEnd (s : string) : string :=
  String.rev (strip true (String.rev s)).

Definition trim (s : string) : string := trimEnd (trimStart s).

(** [check] holds of the [count] code units from [u] on. *)
Fixpoint forallUnits (check : N → bool) (count : nat) (u : N) : bool :=
  match count with
  | O => true
  | S count' => check u && forallUnits check count' (N.succ u)
  end.

(** The mount effect: one placeholder in the middle of an empty canvas. *)
Definition mountEffect (st : State) : State :=
  match containerRef st with
  | Some container =>
      if (length (images st) =? 0)%nat then
        let st := setPromptAndResetDebounce "" st in
        let initialX :=
          Qmax 0 (inject_Z (Container.offsetWidth container - IMAGE_SIZE) / 2) in
        let initialY :=
          Qmax 0 (inject_Z (Container.offsetHeight container - IMAGE_SIZE) / 2) in
        let initialPlaceholder :=
          ImageInfo.mk INITIAL_PLACEHOLDER_ID "" "" (Position.mk initialX initialY)
            None (Some false) (Some true) in
        setSelectedImageId (Some INITIAL_PLACEHOLDER_ID)
          (setImages (λ _, [initialPlaceholder]) st)
      else st
  | None => st
  end.

(** ** Regeneration *)

(** [handleRegenerateSelectedImage], up to its [await generateImage(...)]. *)
Definition handleRegenerateSelectedImage_begin (imageId newPrompt : string)
    (st : State) : State * option Task :=
  if isRegeneratingRef st then (st, None)
  else
    let st := setIsRegenerating true st in
    let st := setError None st in
    let st :=
      setImages
        (λ prevImages,
           (λ img, if decide (ImageInfo.id img = imageId)
                   then ImageInfo.with_isLoading true img else img)
             <$> prevImages) st in
    (st, Some (RegenerateTask imageId newPrompt)).

(** [img.id === imageId ? { ...img, isLoading: false } : img], mapped. *)
Definition clearLoading (imageId : string) (prevImages : list ImageInfo.t)
    : list ImageInfo.t :=
  (λ img, if decide (ImageInfo.id img = imageId)
          then ImageInfo.with_isLoading false img else img) <$> prevImages.

(** [handleRegenerateSelectedImage] from the settlement of its [await] to
    the end of its [finally]. *)
Definition handleRegenerateSelectedImage_resume (imageId newPrompt : string)
    (settled : Outcome GeneratedImage.t) (st : State) : State :=
  let st :=
    match settled with
    | Resolved result =>
        if truthy_opt (GeneratedImage.imageUrl result) then
          let st :=
            setImages
              (λ prevImages,
                 (λ img, if decide (ImageInfo.id img = imageId)
                         then ImageInfo.with_result
                                (GeneratedImage.id result)
                                (default "" (GeneratedImage.imageUrl result))
                                (or_else (GeneratedImage.promptUsed result) newPrompt)
                                img
                         else img)
                   <$> prevImages) st in
          setSelectedImageId (Some (GeneratedImage.id result)) st
        else
          let st := setError (Some "An error occurred when generating images.") st in
          setImages (clearLoading imageId) st
    | Rejected err =>
        let message :=
          match err with
          | ErrorObject m => m
          | OtherValue => ""
          end in
        let st :=
          setError
            (Some (or_else (Some message) "An error occurred when generating images"))
            st in
        setImages (clearLoading imageId) st
    end in
  setIsRegenerating false st.

(** The body of the effect that regenerates the selected image as the
    user types. *)
Definition regenerationEffect (st : State) : State * option Task :=
  match selectedImageId st with
  | Some selected =>
      if truthy selected && truthy (trim (debouncedPrompt st))
         && negb (isRegeneratingRef st)
      then
        match findImage selected (images st) with
        | Some selectedImage =>
            if decide (ImageInfo.prompt selectedImage ≠ debouncedPrompt st)
            then handleRegenerateSelectedImage_begin selected (debouncedPrompt st) st
            else (st, None)
        | None => (st, None)
        end
      else (st, None)
  | None => (st, None)
  end.

(** The dependencies of that effect that can change: [debouncedPrompt] and
    [selectedImageId].  The third, [handleRegenerateSelectedImage], is a
    [useCallback] without dependencies and stays the same function. *)
Definition regenerationDeps (st : State) : string * option string :=
  (debouncedPrompt st, selectedImageId st).

(** The effect as React runs it after a render: [previous] holds the
    dependencies of the render before, [None] on mount, and the body runs
    only when a dependency differs. *)
Definition regenerationEffect_afterRender
    (previous : option (string * option string)) (st : State)
    : State * option Task :=
  if decide (previous = Some (regenerationDeps st)) then (st, None)
  else regenerationEffect st.

(** ** The saved-image catalog *)

Definition loadSavedImagesForDropdown_begin (st : State) : State * option Task :=
  (setIsLoadingSavedImages true st, Some LoadSavedTask).

Definition loadSavedImagesForDropdown_resume
    (settled : Outcome (list GeneratedImage.t)) (st : State) : State :=
  let st :=
    match settled with
    | Resolved loadedImagesResult =>
        setSavedImages
          ((λ result,
              ImageInfo.mk (GeneratedImage.id result)
                (default "" (GeneratedImage.imageUrl result))
                (default "Untitled" (GeneratedImage.promptUsed result))
                (Position.mk 0 0) None None None)
             <$> loadedImagesResult) st
    | Rejected _ => setError (Some "Failed to fetch saved images") st
    end in
  setIsLoadingSavedImages false st.

(** [handleSaveImage] up to [await saveImageBlob(id, src)]. *)
Definition handleSaveImage_begin (id src : string) (st : State)
    : State * option Task :=
  (st, Some SaveTask).

(** [handleSaveImage] after the [await]: the resolved value is not looked
    at; only a rejection reaches the [catch]. *)
Definition handleSaveImage_resume (settled : Outcome SupabaseResult.t)
    (st : State) : State * option Task :=
  match settled with
  | Resolved _ => loadSavedImagesForDropdown_begin st
  | Rejected _ => (setError (Some "Failed to save image") st, None)
  end.

(** ** Variations *)

(** [results.forEach((result, index) => ...)] over an accumulator. *)
Fixpoint forEach_from {A Acc : Type} (f : A → nat → Acc → Acc) (index : nat)
    (l : list A) (s : Acc) : Acc :=
  match l with
  | [] => s
  | a :: l' => forEach_from f (S index) l' (f a index s)
  end.

Definition forEach {A Acc : Type} (f : A → nat → Acc → Acc) (l : list A)
    (s : Acc) : Acc :=
  forEach_from f 0 l s.

(** The four target positions around the parent: above, below, left, right. *)
Definition placeholderPositions (parentPos : Position.t) : list Position.t :=
  let offset := inject_Z (IMAGE_SIZE + GRID_GAP) in
  [ Position.mk (Position.x parentPos) (Double.sub (Position.y parentPos) offset);
    Position.mk (Position.x parentPos) (Double.add (Position.y parentPos) offset);
    Position.mk (Double.sub (Position.x parentPos) offset) (Position.y parentPos);
    Position.mk (Double.add (Position.x parentPos) offset) (Position.y parentPos) ].

(** [`${parentId}-placeholder-${index}-${Date.now()}`] *)
Definition placeholderId (parentId : string) (index : nat) (now : N) : string :=
  parentId +:+ "-placeholder-" +:+ pretty index +:+ "-" +:+ pretty now.

(** The loop over the four positions: each iteration pushes an id onto
    [placeholderIds] and an entity onto [placeholderImages]; [now index] is
    what [Date.now()] returns in iteration [index]. *)
Definition placeholdersFor (parentId parentPrompt : string)
    (parentPos : Position.t) (container : option Container.t) (now : nat → N)
    : list (string * ImageInfo.t) :=
  imap (λ index pos,
          let placeholderId := placeholderId parentId index (now index) in
          let finalPosition := clampPositionToBounds pos container IMAGE_SIZE in
          (placeholderId,
           ImageInfo.mk placeholderId
             ""
             ("Loading variation for: " +:+ parentPrompt)
             finalPosition
             (Some parentId)
             (Some true)
             (Some true)))
       (placeholderPositions parentPos).

(** [handleGenerateVariations] up to [await generateImageVariations(...)]. *)
Definition handleGenerateVariations_begin (parentId parentPrompt : string)
    (now : nat → N) (st : State) : State * option Task :=
  let st' := setError None st in
  match findImage parentId (images st) with
  | None => (setError (Some "Could not find the parent image.") st', None)
  | Some parentImage =>
      let placeholders :=
        placeholdersFor parentId parentPrompt
          (ImageInfo.position parentImage) (containerRef st) now in
      let placeholderIds := fst <$> placeholders in
      let placeholderImages := snd <$> placeholders in
      (setImages (λ prevImages, prevImages ++ placeholderImages) st',
       Some (VariationsTask placeholderIds parentPrompt))
  end.

(** [result.error || !result.id || !result.imageUrl] *)
Definition variantFailed (result : GeneratedImage.t) : bool :=
  truthy_opt (GeneratedImage.error result)
  || negb (truthy (GeneratedImage.id result))
  || negb (truthy_opt (GeneratedImage.imageUrl result)).

(** The body of the [forEach] callback of the reconciliation; the
    accumulator is [newImages] with the flag [updateOccurred]. *)
Definition reconcileResult (placeholderIds : list string) (parentPrompt : string)
    (result : GeneratedImage.t) (index : nat)
    (acc : list ImageInfo.t * bool) : list ImageInfo.t * bool :=
  let '(newImages, updateOccurred) := acc in
  match placeholderIds !! index with
  | None => acc
  | Some tempIdToFind =>
      if negb (truthy tempIdToFind) then acc
      else
        match list_find (λ img, ImageInfo.id img = tempIdToFind) newImages with
        | None => acc
        | Some (placeholderIndex, placeholder) =>
            if variantFailed result then
              (delete placeholderIndex newImages, updateOccurred)
            else
              (<[placeholderIndex :=
                   ImageInfo.with_result
                     (GeneratedImage.id result)
                     (default "" (GeneratedImage.imageUrl result))
                     (or_else (GeneratedImage.promptUsed result)
                              ("Variant of: " +:+ parentPrompt))
                     placeholder]> newImages,
               true)
        end
  end.

(** The updater passed to [setImages], with the flag it leaves behind. *)
Definition reconcile (placeholderIds : list string) (parentPrompt : string)
    (results : list GeneratedImage.t) (prevImages : list ImageInfo.t)
    : list ImageInfo.t * bool :=
  forEach (reconcileResult placeholderIds parentPrompt) results (prevImages, false).

(** [prev.filter(img => !placeholderIds.includes(img.id))] *)
Definition stripPlaceholders (placeholderIds : list string)
    (prev : list ImageInfo.t) : list ImageInfo.t :=
  filter (λ img, ImageInfo.id img ∉ placeholderIds) prev.

(** [!updateOccurred && results.length > 0 && results[0].error] *)
Definition generationFailed (updateOccurred : bool)
    (results : list GeneratedImage.t) : bool :=
  negb updateOccurred
  && match results with
     | [] => false
     | first :: _ => truthy_opt (GeneratedImage.error first)
     end.

(** [handleGenerateVariations] after the [await].  React queues the
    updater passed to [setImages] and runs it when it renders next, after
    the handler has returned: when the guard below reads [updateOccurred],
    the flag still holds the [false] it was initialised with.  The updater
    and the filter queued by the guard's branch then run in this order on
    the collection that is current at that moment. *)
Definition handleGenerateVariations_resume (placeholderIds : list string)
    (parentPrompt : string) (settled : Outcome (list GeneratedImage.t))
    (st : State) : State :=
  match settled with
  | Resolved results =>
      let updateOccurred := false in
      let st :=
        setImages (λ prevImages,
                     fst (reconcile placeholderIds parentPrompt results prevImages))
                  st in
      if generationFailed updateOccurred results then
        let st := setError (Some "Generation of variants failed") st in
        setImages (stripPlaceholders placeholderIds) st
      else st
  | Rejected _ => setImages (stripPlaceholders placeholderIds) st
  end.

(** ** Duplication *)

(** [handleDuplicateImage] up to [await generateUuid()]. *)
Definition handleDuplicateImage_begin (sourceImageId : string) (st : State)
    : State * option Task :=
  let st' := setError None st in
  match findImage sourceImageId (images st) with
  | None => (setError (Some "Could not find the image to duplicate.") st', None)
  | Some sourceImage =>
      let newX :=
        Double.add
          (Double.add (Position.x (ImageInfo.position sourceImage))
             (inject_Z IMAGE_SIZE))
          (inject_Z DUPLICATION_OFFSET) in
      let newY := Position.y (ImageInfo.position sourceImage) in
      let position :=
        clampPositionToBounds (Position.mk newX newY) (containerRef st) IMAGE_SIZE in
      (st', Some (DuplicateTask sourceImage sourceImageId position))
  end.

(** [handleDuplicateImage] after the [await]; a rejection of
    [generateUuid()] is not caught and ends the handler. *)
Definition handleDuplicateImage_resume (sourceImage : ImageInfo.t)
    (sourceImageId : string) (position : Position.t)
    (settled : Outcome string) (st : State) : State :=
  match settled with
  | Resolved uuid =>
      if negb (truthy uuid) then
        setError (Some "Failed to get image to duplicate.") st
      else
        let newImage :=
          ImageInfo.mk uuid (ImageInfo.src sourceImage)
            (ImageInfo.prompt sourceImage) position (Some sourceImageId)
            (Some false) (Some false) in
        let st := setImages (λ prevImages, prevImages ++ [newImage]) st in
        setSelectedImageId (Some (ImageInfo.id newImage)) st
  | Rejected _ => st
  end.

(** ** Selection, dragging, deletion *)

Definition handleSelectImage (id : string) (st : State) : State :=
  if isRegeneratingRef st then st
  else
    let st' := setSelectedImageId (Some id) st in
    let newPrompt :=
      match findImage id (images st) with
      | Some selectedImage => ImageInfo.prompt selectedImage
      | None => ""
      end in
    setPromptAndResetDebounce newPrompt st'.

Definition handleUpdatePosition (id : string) (newPosition : Position.t)
    (st : State) : State :=
  setImages
    (λ prevImages,
       (λ img, if decide (ImageInfo.id img = id)
               then ImageInfo.with_position newPosition img else img)
         <$> prevImages) st.

Definition handleDeleteImage (id : string) (st : State) : State :=
  let st' :=
    setImages (λ prevImages, filter (λ img, ImageInfo.id img ≠ id) prevImages) st in
  if decide (selectedImageId st = Some id)
  then setSelectedImageId None st' else st'.

Definition handleContainerClick (st : State) : State :=
  setPromptAndResetDebounce "" (setSelectedImageId None st).

Definition handlePromptInputChange (newPromptValue : string) (st : State) : State :=
  setPrompt newPromptValue st.

(** The timer of [useDebounceWithReset] firing: the debounced value
    catches up with the live one. *)
Definition debounceFires (st : State) : State :=
  resetDebouncedPrompt (prompt st) st.

(** ** Grid layout *)

(** [Math.ceil(a / b)] for integers with [b > 0]. *)
Definition ceilDiv (a b : Z) : Z := (- ((- a) / b))%Z.

(** [numColumns] of [handleArrangeGrid], from the container width. *)
Definition gridColumns (containerWidth : Z) : Z :=
  let availableWidth := (containerWidth - GRID_GAP)%Z in
  let itemTotalWidth := (IMAGE_SIZE + GRID_GAP)%Z in
  Z.max 1 (availableWidth / itemTotalWidth).

(** The position [handleArrangeGrid] gives to the image at [index]. *)
Definition gridPosition (containerWidth : Z) (index : nat) : Position.t :=
  let itemTotalWidth := (IMAGE_SIZE + GRID_GAP)%Z in
  let numColumns := gridColumns containerWidth in
  let gridWidth :=
    (numColumns * IMAGE_SIZE + Z.max 0 (numColumns - 1) * GRID_GAP)%Z in
  let offsetX :=
    Qmax (inject_Z GRID_GAP) (inject_Z (containerWidth - gridWidth) / 2) in
  let offsetY := (HEADER_HEIGHT + GRID_GAP)%Z in
  let row := (Z.of_nat index / numColumns)%Z in
  let col := (Z.of_nat index mod numColumns)%Z in
  let newX := (offsetX + inject_Z (col * itemTotalWidth))%Q in
  let newY := inject_Z (offsetY + row * (IMAGE_SIZE + GRID_GAP)) in
  let clampedX := Qmax 0 (Qmin newX (inject_Z (containerWidth - IMAGE_SIZE))) in
  Position.mk clampedX newY.

(** [requiredContainerHeight] of [handleArrangeGrid]. *)
Definition requiredContainerHeight (containerWidth : Z) (count : nat) : Z :=
  let numColumns := gridColumns containerWidth in
  let numRows := ceilDiv (Z.of_nat count) numColumns in
  let gridHeight := (numRows * IMAGE_SIZE + Z.max 0 (numRows - 1) * GRID_GAP)%Z in
  let offsetY := (HEADER_HEIGHT + GRID_GAP)%Z in
  (offsetY + gridHeight + GRID_GAP)%Z.

Definition handleArrangeGrid (st : State) : State :=
  match containerRef st with
  | Some container =>
      if (length (images st) =? 0)%nat then
        setError (Some "Failed to arrange images") st
      else
        let st' := setError None st in
        let containerWidth := Container.offsetWidth container in
        let st' :=
          setContainer
            (Some (Container.with_minHeight
                     (requiredContainerHeight containerWidth (length (images st)))
                     container)) st' in
        let newImages :=
          imap (λ index image,
                  ImageInfo.with_position (gridPosition containerWidth index) image)
               (images st) in
        setSelectedImageId None (setImages (λ _, newImages) st')
  | None => setError (Some "Failed to arrange images") st
  end.

(** ** Placing a saved image on the canvas *)

Definition handleSelectSavedImage (selectedImageInfo : ImageInfo.t) (st : State)
    : State :=
  match containerRef st with
  | None => setIsImageDropdownOpen false st
  | Some container =>
      let centerX :=
        Qmax 0 (inject_Z (Container.offsetWidth container - IMAGE_SIZE) / 2) in
      let centerY :=
        Qmax 0 (inject_Z (Container.offsetHeight container - IMAGE_SIZE) / 2) in
      let newCanvasImage :=
        ImageInfo.mk (ImageInfo.id selectedImageInfo)
          (ImageInfo.src selectedImageInfo) (ImageInfo.prompt selectedImageInfo)
          (Position.mk centerX centerY) None (Some false) (Some false) in
      let st := setPromptAndResetDebounce (ImageInfo.prompt selectedImageInfo) st in
      let st :=
        setImages
          (λ prevImages,
             filter (λ img, ImageInfo.id img ≠ ImageInfo.id newCanvasImage) prevImages
             ++ [newCanvasImage]) st in
      let st := setSelectedImageId (Some (ImageInfo.id newCanvasImage)) st in
      setIsImageDropdownOpen false st
  end.

(** ** The event loop

    The page together with the calls it is suspended on.  User events and
    effects run a handler to its first [await]; a settlement resumes the
    handler that was waiting for it.  [RegenerationEffectRan] runs the body
    of the regeneration effect.  React runs that body only after a render
    in which one of its dependencies changed
    ([regenerationEffect_afterRender]); the machine lets it run after any
    event, so every run of the page is a run of the machine and what holds
    of all runs of the machine holds of the page. *)

Record Machine : Type := mkMachine {
  page : State;
  inflight : list Task
}.

(** What an awaited call settles with, by the kind of call. *)
Inductive Settlement : Type :=
  | ImageGenerated (o : Outcome GeneratedImage.t)
  | VariationsGenerated (o : Outcome (list GeneratedImage.t))
  | UuidGenerated (o : Outcome string)
  | ImageSaved (o : Outcome SupabaseResult.t)
  | SavedImagesFetched (o : Outcome (list GeneratedImage.t)).

Inductive Event : Type :=
  | Mounted
  | PromptTyped (text : string)
  | DebounceFired
  | RegenerationEffectRan
  | ImageClicked (id : string)
  | ContainerClicked
  | DragEnded (id : string) (newPosition : Position.t)
  | DeleteClicked (id : string)
  | DuplicateClicked (id : string)
  | VariationsClicked (parentId parentPrompt : string) (now : nat → N)
  | ArrangeClicked
  | SaveClicked (id src : string)
  | SavedImageChosen (info : ImageInfo.t)
  | DropdownToggled
  | CatalogRequested
  | Resized (container : option Container.t)
  | Settled (k : nat) (s : Settlement).

(** The rest of a suspended handler; [None] when the settlement is not of
    the kind the task awaits. *)
Definition resume (t : Task) (s : Settlement) (st : State)
    : option (State * option Task) :=
  match t, s with
  | RegenerateTask imageId newPrompt, ImageGenerated o =>
      Some (handleRegenerateSelectedImage_resume imageId newPrompt o st, None)
  | VariationsTask placeholderIds parentPrompt, VariationsGenerated o =>
      Some (handleGenerateVariations_resume placeholderIds parentPrompt o st, None)
  | DuplicateTask sourceImage sourceImageId position, UuidGenerated o =>
      Some (handleDuplicateImage_resume sourceImage sourceImageId position o st, None)
  | SaveTask, ImageSaved o => Some (handleSaveImage_resume o st)
  | LoadSavedTask, SavedImagesFetched o =>
      Some (loadSavedImagesForDropdown_resume o st, None)
  | _, _ => None
  end.

(** Start a handler: the new page and, if it reached an [await], one more
    call in flight. *)
Definition started (m : Machine) (r : State * option Task) : Machine :=
  mkMachine (fst r) (inflight m ++ option_list (snd r)).

Definition step (ev : Event) (m : Machine) : option Machine :=
  let st := page m in
  match ev with
  | Mounted => Some (mkMachine (mountEffect st) (inflight m))
  | PromptTyped text => Some (mkMachine (handlePromptInputChange text st) (inflight m))
  | DebounceFired => Some (mkMachine (debounceFires st) (inflight m))
  | RegenerationEffectRan => Some (started m (regenerationEffect st))
  | ImageClicked id => Some (mkMachine (handleSelectImage id st) (inflight m))
  | ContainerClicked => Some (mkMachine (handleContainerClick st) (inflight m))
  | DragEnded id newPosition =>
      Some (mkMachine (handleUpdatePosition id newPosition st) (inflight m))
  | DeleteClicked id => Some (mkMachine (handleDeleteImage id st) (inflight m))
  | DuplicateClicked id => Some (started m (handleDuplicateImage_begin id st))
  | VariationsClicked parentId parentPrompt now =>
      Some (started m (handleGenerateVariations_begin parentId parentPrompt now st))
  | ArrangeClicked => Some (mkMachine (handleArrangeGrid st) (inflight m))
  | SaveClicked id src => Some (started m (handleSaveImage_begin id src st))
  | SavedImageChosen info =>
      Some (mkMachine (handleSelectSavedImage info st) (inflight m))
  | DropdownToggled => Some (mkMachine (toggleImageDropdown st) (inflight m))
  | CatalogRequested => Some (started m (loadSavedImagesForDropdown_begin st))
  | Resized container => Some (mkMachine (setContainer container st) (inflight m))
  | Settled k s =>
      t ← inflight m !! k;
      r ← resume t s st;
      Some (mkMachine (fst r) (delete k (inflight m) ++ option_list (snd r)))
  end.

(** Run a sequence of events; [None] if one of them is not enabled. *)
Fixpoint run (evs : list Event) (m : Machine) : option Machine :=
  match evs with
  | [] => Some m
  | ev :: evs' => m' ← step ev m; run evs' m'
  end.

(** The page before anything has happened. *)
Definition initialState (container : option Container.t) : State :=
  mkState "" [] None None container "" false false [] false [].

Definition initialMachine (container : option Container.t) : Machine :=
  mkMachine (initialState container) [].

Definition isRegenerateTask (t : Task) : bool :=
  match t with
  | RegenerateTask _ _ => true
  | _ => false
  end.

(** The number of regenerations in flight. *)
Definition regenerationsInFlight (m : Machine) : nat :=
  length (filter (λ t, isRegenerateTask t = true) (inflight m)).

(** ** Reconciliation as the specification words it

    The specification describes the reconciliation entity by entity: the
    placeholder of the [i]-th result disappears when that result is an
    error or lacks its id or url, and is otherwise replaced in place by
    the result's id, url and prompt with both flags cleared; everything
    else stays.  The definitions below follow these words, with the one
    amendment that a result without a prompt gives the prompt
    ["Variant of: "] followed by the parent's; the theorems compare them
    with [reconcile], which follows the code. *)

(** The index [i] such that the entity is the [i]-th placeholder. *)
Definition placeholderIndexOf (placeholderIds : list string) (img : ImageInfo.t)
    : option nat :=
  fst <$> list_find (λ p, p = ImageInfo.id img) placeholderIds.

(** The real entity that takes the place of a placeholder. *)
Definition promotedBy (parentPrompt : string) (result : GeneratedImage.t)
    (placeholder : ImageInfo.t) : ImageInfo.t :=
  ImageInfo.mk (GeneratedImage.id result)
    (default "" (GeneratedImage.imageUrl result))
    (match GeneratedImage.promptUsed result with
     | Some prompt =>
         if decide (prompt = "") then "Variant of: " +:+ parentPrompt
         else prompt
     | None => "Variant of: " +:+ parentPrompt
     end)
    (ImageInfo.position placeholder)
    (ImageInfo.parentId placeholder)
    (Some false)
    (Some false).

(** What becomes of one entity: it stays unless it is the placeholder of
    a result; then it disappears when the result failed and is promoted
    otherwise. *)
Definition slotOutcome (placeholderIds : list string) (parentPrompt : string)
    (results : list GeneratedImage.t) (img : ImageInfo.t) : option ImageInfo.t :=
  match placeholderIndexOf placeholderIds img ≫= (results !!.) with
  | Some result =>
      if variantFailed result then None
      else Some (promotedBy parentPrompt result img)
  | None => Some img
  end.

Definition reconciled (placeholderIds : list string) (parentPrompt : string)
    (results : list GeneratedImage.t) (prev : list ImageInfo.t)
    : list ImageInfo.t :=
  omap (slotOutcome placeholderIds parentPrompt results) prev.

(** The id of a successful result is not one of the placeholder ids: it
    is a freshly generated one. *)
Definition freshResults (placeholderIds : list string)
    (results : list GeneratedImage.t) : Prop :=
  ∀ result, result ∈ results → variantFailed result = false →
    GeneratedImage.id result ∉ placeholderIds.

(** A result succeeded on a placeholder that is still in the collection. *)
Definition appliedSuccess (placeholderIds : list string)
    (results : list GeneratedImage.t) (prev : list ImageInfo.t) : Prop :=
  ∃ i result p,
    results !! i = Some result ∧ variantFailed result = false
    ∧ placeholderIds !! i = Some p ∧ p ∈ ImageInfo.id <$> prev.

(** Results as the generation client produces them: a successful result
    carries a freshly generated id, hence none of the placeholder ids, and
    the prompt it was generated from. *)
Definition wellFormed (placeholderIds : list string)
    (results : list GeneratedImage.t) : Prop :=
  ∀ result, result ∈ results → variantFailed result = false →
    (GeneratedImage.id result ∉ placeholderIds)
    ∧ truthy_opt (GeneratedImage.promptUsed result) = true.

(** ** The trigger of a regeneration, as the specification words it

    (a) an entity is selected, (b) the debounced prompt is non-empty after
    trimming white space, (c) no regeneration is in flight, and (d) the
    debounced prompt differs from the prompt stored in the selected
    entity. *)
Definition regenerationDue (st : State) : Prop :=
  (∃ selected selectedImage,
      selectedImageId st = Some selected ∧ selected ≠ ""
      ∧ findImage selected (images st) = Some selectedImage
      ∧ ImageInfo.prompt selectedImage ≠ debouncedPrompt st)
  ∧ trim (debouncedPrompt st) ≠ ""
  ∧ isRegeneratingRef st = false.

(** One iteration of the reconciliation loop seen entity by entity: the
    entity with id [tempId] is dropped when the result failed and
    overwritten otherwise; every other entity is kept. *)
Definition stepOutcome (tempId parentPrompt : string)
    (result : GeneratedImage.t) (img : ImageInfo.t) : option ImageInfo.t :=
  if decide (ImageInfo.id img = tempId) then
    if variantFailed result then None
    else Some (ImageInfo.with_result
                 (GeneratedImage.id result)
                 (default "" (GeneratedImage.imageUrl result))
                 (or_else (GeneratedImage.promptUsed result)
                          ("Variant of: " +:+ parentPrompt))
                 img)
  else Some img.

(** ** Grid layout and latch, as properties of a page *)

(** The collection [handleArrangeGrid] writes: the images in their order,
    each moved to the grid position of its index. *)
Definition arranged (containerWidth : Z) (l : list ImageInfo.t)
    : list ImageInfo.t :=
  imap (λ index image,
          ImageInfo.with_position (gridPosition containerWidth index) image) l.

(** The latch is set exactly while one regeneration is in flight. *)
Definition latchInvariant (m : Machine) : Prop :=
  regenerationsInFlight m = if isRegeneratingRef (page m) then 1 else 0.

(** ** A concrete canvas

    One generated image on a 1000 x 800 canvas, and the fan-out started
    from it; used to evaluate the handlers on concrete inputs. *)

Definition exampleContainer : Container.t := Container.mk 1000 800 800 None.

Definition exampleImage : ImageInfo.t :=
  ImageInfo.mk "e1" "https://v3.fal.media/files/e1.png" "a red fox"
    (Position.mk 100 100) None (Some false) (Some false).

Definition exampleState : State :=
  mkState "a red fox" [exampleImage] (Some "e1") None (Some exampleContainer)
    "a red fox" false false [] false [].

(** The page right after "generate variations" was clicked on the image. *)
Definition exampleFanOut : State :=
  fst (handleGenerateVariations_begin "e1" "a red fox"
         (λ _, 1700000000000%N) exampleState).

Definition examplePlaceholderIds : list string :=
  [ "e1-placeholder-0-1700000000000"; "e1-placeholder-1-1700000000000";
    "e1-placeholder-2-1700000000000"; "e1-placeholder-3-1700000000000" ].

Definition exampleVariants : PromptVariants.t :=
  PromptVariants.mk
    ["a red fox in snow"; "a red fox at dusk"; "a fox, watercolor"; "a fox, pixel art"]
    None.

Definition exampleUuids (index : nat) : Outcome string :=
  Resolved ("v" +:+ pretty index).

Definition exampleUrl (index : nat) : string :=
  "https://v3.fal.media/files/v" +:+ pretty index +:+ ".png".

(** Generations 0 and 2 of the example fan-out succeed, 1 and 3 fail. *)
Definition exampleFals (index : nat) : Outcome (option string) :=
  match index with
  | 0 | 2 => Resolved (Some (exampleUrl index))
  | _ => Rejected (ErrorObject "quota exceeded")
  end.

Definition exampleResults : list GeneratedImage.t :=
  FalService.generateImageVariations exampleVariants exampleUuids exampleFals
    "a red fox" "e1" IMAGE_SIZE.

(** Two debounce settlements in a row, the second before the first
    generation has come back; then the first generation fails and the
    prompt settles once more. *)
Definition exampleTrace : list Event :=
  [ Mounted;
    PromptTyped "a red fox"; DebounceFired; RegenerationEffectRan;
    PromptTyped "a red fox at dusk"; DebounceFired; RegenerationEffectRan;
    Settled 0 (ImageGenerated (Rejected (ErrorObject "Request timed out.")));
    RegenerationEffectRan ].

(** ** services/openaiService.ts *)

Module OpenaiService.

(** [JSON.parse(response.output_text)] as far as [getPromptVariants] looks
    at it: whether its [variants] member is an array, and then its items. *)
Inductive Output : Type :=
  | NoVariantsArray
  | VariantsArray (variants : list string).

(** [getPromptVariants].  [parsed] is the settlement of the request
    followed by [JSON.parse]; every exception is caught. *)
Definition getPromptVariants (parsed : Outcome Output) : PromptVariants.t :=
  match parsed with
  | Resolved (VariantsArray variants) => PromptVariants.mk variants None
  | Resolved NoVariantsArray =>
      PromptVariants.mk []
        (Some "Failed to extract prompt variants from OpenAI response.")
  | Rejected e =>
      let errorMessage :=
        match e with
        | ErrorObject m => m
        | OtherValue => "An unknown error occurred during prompt augmentation."
        end in
      PromptVariants.mk [] (Some errorMessage)
  end.

End OpenaiService.

(** ** services/supabaseService.ts: the relationship table *)

Module RelationshipType.
Definition UNKNOWN : Z := 0.
Definition IS_PARENT : Z := 1.
End RelationshipType.

Module Relationships.

(** The payload of an insert into [image_relationships]. *)
Record Row : Type := {
  source_image : string;
  target_image : string;
  relationship_type : Z
}.

(** [StoreImageRelationshipDb]: the result it resolves to and the row it
    sent to the table, if it got as far as the insert.  [inserted] is the
    settlement of the insert, projected to its [error] member. *)
Definition StoreImageRelationshipDb (supabase : bool)
    (inserted : Outcome (option string))
    (sourceId targetId : string) (relationshipType : Z)
    : SupabaseResult.t * option Row :=
  if negb supabase then
    (SupabaseResult.mk (Some "Supabase client not available."), None)
  else if negb (truthy sourceId) || negb (truthy targetId) then
    (SupabaseResult.mk
       (Some "Missing Source or Target ID for logging relationship."), None)
  else
    let payload :=
      {| source_image := sourceId; target_image := targetId;
         relationship_type := relationshipType |} in
    match inserted with
    | Resolved (Some message) =>
        (SupabaseResult.mk
           (Some ("Database relationship insert failed: " +:+ message)),
         Some payload)
    | Resolved None => (SupabaseResult.mk None, Some payload)
    | Rejected e =>
        (SupabaseResult.mk
           (Some match e with
                 | ErrorObject m => m
                 | OtherValue =>
                     "An unexpected database error occurred during relationship insert."
                 end),
         Some payload)
    end.

(** The tail of [generateImageVariations]: one [StoreImageRelationshipDb]
    per successful variant; the rows sent to the table, in that order.
    [inserted i] settles the insert for the [i]-th successful variant. *)
Definition logRelationships (supabase : bool)
    (inserted : nat → Outcome (option string))
    (parentId : string) (results : list GeneratedImage.t) : list Row :=
  omap id
    (imap (λ i variant,
             snd (StoreImageRelationshipDb supabase (inserted i) parentId
                    (GeneratedImage.id variant) RelationshipType.IS_PARENT))
          (FalService.successfulVariants results)).

End Relationships.

(** ** hooks/useDebounce.ts *)

Module Debounce.

(** One instance of [useDebounceWithReset]: the [value] of the latest
    render, the debounced value, and the value captured by the pending
    timer if there is one ([timeoutRef]). *)
Record t (T : Type) : Type := mk {
  value : T;
  debouncedValue : T;
  timeoutRef : option T
}.

Arguments mk {T} _ _ _.
Arguments value {T} _.
Arguments debouncedValue {T} _.
Arguments timeoutRef {T} _.

(** First render: [useState(value)], then the effect starts a timer. *)
Definition mount {T : Type} (v : T) : t T := mk v v (Some v).

(** A later render with [v]: when [v] differs from the previous value the
    cleanup clears the pending timer and the effect starts a new one that
    captures [v]; otherwise the effect does not run. *)
Definition render {T : Type} `{EqDecision T} (v : T) (h : t T) : t T :=
  if decide (v = value h) then h
  else mk v (debouncedValue h) (Some v).

(** The pending timer fires: [setDebouncedValue(value)] with the captured
    value, and the ref is cleared. *)
Definition fire {T : Type} (h : t T) : option (t T) :=
  match timeoutRef h with
  | Some captured => Some (mk (value h) captured None)
  | None => None
  end.

(** [resetDebouncedValue(newValue)] *)
Definition reset {T : Type} (newValue : T) (h : t T) : t T :=
  mk (value h) newValue None.

Inductive Event (T : Type) : Type :=
  | Rendered (v : T)
  | TimerFired
  | ResetCalled (newValue : T).

Arguments Rendered {T} v.
Arguments TimerFired {T}.
Arguments ResetCalled {T} newValue.

Definition step {T : Type} `{EqDecision T} (ev : Event T) (h : t T)
    : option (t T) :=
  match ev with
  | Rendered v => Some (render v h)
  | TimerFired => fire h
  | ResetCalled newValue => Some (reset newValue h)
  end.

Fixpoint run {T : Type} `{EqDecision T} (evs : list (Event T)) (h : t T)
    : option (t T) :=
  match evs with
  | [] => Some h
  | ev :: evs' => h' ← step ev h; run evs' h'
  end.

End Debounce.

(** ** Events of the page that run no awaited continuation and insert no
    placeholders *)

Definition isLocalEvent (ev : Event) : bool :=
  match ev with
  | VariationsClicked _ _ _ | Settled _ _ => false
  | _ => true
  end.

(** Two 150 x 150 items at these positions do not overlap. *)
Definition disjointItems (a b : Position.t) : Prop :=
  (Position.x a + inject_Z IMAGE_SIZE <= Position.x b)%Q
  ∨ (Position.x b + inject_Z IMAGE_SIZE <= Position.x a)%Q
  ∨ (Position.y a + inject_Z IMAGE_SIZE <= Position.y b)%Q
  ∨ (Position.y b + inject_Z IMAGE_SIZE <= Position.y a)%Q.


(** ** services/supabaseService.ts: the storage path of [saveImageBlob] *)

Module StoragePath.

Import Stdlib.Strings.Ascii.

Definition slash : Ascii.ascii := "/"%char.
Definition plus : Ascii.ascii := "+"%char.

(** [s.split(separator)] for a one-character separator. *)
Fixpoint split (separator : Ascii.ascii) (s : string) : list string :=
  match s with
  | EmptyString => [""]
  | String c s' =>
      if Ascii.eqb c separator then "" :: split separator s'
      else
        match split separator s' with
        | piece :: pieces => String c piece :: pieces
        | [] => [String c ""]
        end
  end.

(** The extension chosen from [blob.type]. *)
Definition fileExtension (blobType : string) : string :=
  match split slash blobType with
  | [kind; subtype] =>
      if String.eqb kind "image" && truthy subtype
      then hd "" (split plus subtype)
      else "jpeg"
  | _ => "jpeg"
  end.

(** [`${id}.${fileExtension}`] *)
Definition filePath (id blobType : string) : string :=
  id +:+ "." +:+ fileExtension blobType.

End StoragePath.


(** ** components/DraggableImage *)

Module DraggableImage.

(** The props the component reads.  A callback prop is [true] when it is
    passed; [isLoading] and [isPlaceholder] may be left undefined. *)
Record Props : Type := mkProps {
  id : string;
  src : string;
  alt : string;
  isSelected : bool;
  onDelete : bool;
  onGenerateVariations : bool;
  onDuplicate : bool;
  onSave : bool;
  zIndex : Z;
  isLoading : option bool;
  isPlaceholder : option bool
}.

(** The [useState] cells of the component. *)
Record t : Type := mk {
  isSaving : bool;
  isDragging : bool
}.

Definition initial : t := mk false false.

(** A call of one of the callback props. *)
Inductive Call : Type :=
  | Select (id : string)
  | PositionChange (id : string) (position : Position.t)
  | Delete (id : string)
  | GenerateVariations (parentId prompt : string)
  | Duplicate (sourceId : string)
  | Save (id src : string).

Definition handleDragStart (p : Props) (s : t) : t * list Call :=
  (mk (isSaving s) true, [Select (id p)]).

Definition handleDragStop (p : Props) (data : Position.t) (s : t)
    : t * list Call :=
  (mk (isSaving s) false, [PositionChange (id p) data]).

Definition handleDeleteClick (p : Props) (s : t) : t * list Call :=
  (s, if onDelete p then [Delete (id p)] else []).

Definition handleVariationsClick (p : Props) (s : t) : t * list Call :=
  (s, if onGenerateVariations p then [GenerateVariations (id p) (alt p)] else []).

Definition handleDuplicateClick (p : Props) (s : t) : t * list Call :=
  (s, if onDuplicate p then [Duplicate (id p)] else []).

(** [handleSaveClick] up to [await onSave(id, src)]. *)
Definition handleSaveClick_begin (p : Props) (s : t) : t * list Call :=
  if negb (onSave p) || isSaving s then (s, [])
  else (mk true (isDragging s), [Save (id p) (src p)]).

(** [handleSaveClick] after the [await]: the [finally] clears the flag,
    and a rejection is thrown again. *)
Definition handleSaveClick_resume (settled : Outcome unit) (s : t)
    : t * option Thrown :=
  (mk false (isDragging s),
   match settled with
   | Resolved _ => None
   | Rejected e => Some e
   end).

(** [handleWrapperClick]; [onWrapperOrImage] is
    [event.target === event.currentTarget || event.target instanceof HTMLImageElement]. *)
Definition handleWrapperClick (p : Props) (onWrapperOrImage : bool) (s : t)
    : t * list Call :=
  (s, if negb (isDragging s) && onWrapperOrImage then [Select (id p)] else []).

(** The [zIndex] of the rendered wrapper. *)
Definition renderedZIndex (p : Props) (s : t) : Z :=
  if isDragging s then (zIndex p + 20)%Z
  else if isSelected p then (zIndex p + 10)%Z
  else zIndex p.

(** [isSelected && !isLoading && !isPlaceholder && !isDragging]: the
    condition under which the action buttons are rendered. *)
Definition actionsShown (p : Props) (s : t) : bool :=
  isSelected p && negb (default false (isLoading p))
  && negb (default false (isPlaceholder p)) && negb (isDragging s).

(** The component with the calls of [onSave] it is waiting for and the
    calls it has made, oldest first. *)
Record Running : Type := mkRunning {
  local : t;
  awaiting : nat;
  calls : list Call
}.

Definition mounted : Running := mkRunning initial 0 [].

Inductive Event : Type :=
  | DragStart
  | DragStop (data : Position.t)
  | WrapperClick (onWrapperOrImage : bool)
  | DeleteClick
  | VariationsClick
  | DuplicateClick
  | SaveClick
  | SaveSettled (settled : Outcome unit).

Definition handled (r : Running) (h : t * list Call) : Running :=
  mkRunning (fst h) (awaiting r) (calls r ++ snd h).

(** One event under the props of the current render.  A button can be
    clicked only while the actions are rendered; a settlement needs a call
    of [onSave] to settle. *)
Definition step (p : Props) (ev : Event) (r : Running) : option Running :=
  let clicked (present : bool) (h : t * list Call) :=
    if actionsShown p (local r) && present then Some (handled r h) else None in
  match ev with
  | DragStart => Some (handled r (handleDragStart p (local r)))
  | DragStop data => Some (handled r (handleDragStop p data (local r)))
  | WrapperClick onWrapperOrImage =>
      Some (handled r (handleWrapperClick p onWrapperOrImage (local r)))
  | DeleteClick => clicked (onDelete p) (handleDeleteClick p (local r))
  | VariationsClick =>
      clicked (onGenerateVariations p) (handleVariationsClick p (local r))
  | DuplicateClick => clicked (onDuplicate p) (handleDuplicateClick p (local r))
  | SaveClick =>
      if actionsShown p (local r) && onSave p then
        let h := handleSaveClick_begin p (local r) in
        Some (mkRunning (fst h) (awaiting r + length (snd h)) (calls r ++ snd h))
      else None
  | SaveSettled settled =>
      match awaiting r with
      | O => None
      | S n =>
          Some (mkRunning (fst (handleSaveClick_resume settled (local r))) n
                  (calls r))
      end
  end.

Fixpoint run (evs : list (Props * Event)) (r : Running) : option Running :=
  match evs with
  | [] => Some r
  | (p, ev) :: evs' => r' ← step p ev r; run evs' r'
  end.

End DraggableImage.

(** The props the page renders an image with. *)
Definition imageProps (st : State) (image : ImageInfo.t) : DraggableImage.Props :=
  DraggableImage.mkProps
    (ImageInfo.id image)
    (ImageInfo.src image)
    (ImageInfo.prompt image)
    (bool_decide (selectedImageId st = Some (ImageInfo.id image)))
    true true true true
    0
    (ImageInfo.isLoading image)
    (ImageInfo.isPlaceholder image).

(** The page handler bound to each callback prop; [now] is the clock read
    by [handleGenerateVariations]. *)
Definition dispatch (now : nat → N) (c : DraggableImage.Call) (st : State)
    : State * option Task :=
  match c with
  | DraggableImage.Select id => (handleSelectImage id st, None)
  | DraggableImage.PositionChange id position =>
      (handleUpdatePosition id position st, None)
  | DraggableImage.Delete id => (handleDeleteImage id st, None)
  | DraggableImage.GenerateVariations parentId prompt =>
      handleGenerateVariations_begin parentId prompt now st
  | DraggableImage.Duplicate sourceId => handleDuplicateImage_begin sourceId st
  | DraggableImage.Save id src => handleSaveImage_begin id src st
  end.


(** ** services/supabaseService.ts: [fetchSavedImages] *)

Module SavedImages.

(** A row of the [images] table, as selected by the query. *)
Record Row : Type := {
  image_id : option string;
  prompt : option string;
  storage_path : option string
}.

(** What the query resolves to: [data] and the message of [error]. *)
Record Query : Type := {
  dbData : option (list Row);
  dbError : option string
}.

(** What [createSignedUrl] resolves to: [data?.signedUrl] and the message
    of [error]. *)
Record SignedUrl : Type := {
  signedUrl : option string;
  urlError : option string
}.

(** The rows the loop requests a signed url for: those with an id and a
    storage path. *)
Definition requested (rows : list Row) : list Row :=
  filter (λ row, truthy_opt (image_id row) = true
                 ∧ truthy_opt (storage_path row) = true) rows.

(** The [then] callback of one request: what it pushes onto [results]. *)
Definition pushed (row : Row) (response : SignedUrl)
    : option GeneratedImage.t :=
  match urlError response with
  | Some _ => None
  | None =>
      if truthy_opt (signedUrl response) then
        Some (GeneratedImage.mk (default "" (image_id row))
                (signedUrl response)
                (Some (default "" (prompt row)))
                None)
      else None
  end.

(** The requests settling one after the other, in the order [order] of
    their indices: a resolved request runs its callback, the first
    rejected one rejects [Promise.all]. *)
Fixpoint settle (requests : list Row) (signed : nat → Outcome SignedUrl)
    (order : list nat) (results : list GeneratedImage.t)
    : Outcome (list GeneratedImage.t) :=
  match order with
  | [] => Resolved results
  | k :: order' =>
      match requests !! k with
      | None => settle requests signed order' results
      | Some row =>
          match signed k with
          | Resolved response =>
              settle requests signed order'
                (results ++ option_list (pushed row response))
          | Rejected e => Rejected e
          end
      end
  end.

(** [fetchSavedImages].  [query] settles the table query, [signed k] the
    [k]-th signed-url request, and [order] is the order in which the
    requests settle. *)
Definition fetchSavedImages (supabase : bool) (query : Outcome Query)
    (signed : nat → Outcome SignedUrl) (order : list nat)
    : Outcome (list GeneratedImage.t) :=
  if negb supabase then Resolved []
  else
    match query with
    | Rejected e => Rejected e
    | Resolved q =>
        match dbError q with
        | Some _ => Resolved []
        | None =>
            match dbData q with
            | None | Some [] => Resolved []
            | Some rows => settle (requested rows) signed order []
            end
        end
    end.

(** What the [k]-th request contributes once it has resolved. *)
Definition contribution (requests : list Row)
    (signed : nat → Outcome SignedUrl) (k : nat) : option GeneratedImage.t :=
  row ← requests !! k;
  match signed k with
  | Resolved response => pushed row response
  | Rejected _ => None
  end.

End SavedImages.


(** * Properties *)

(** ** JavaScript values *)

Lemma truthy_true (s : string) : truthy s = true ↔ s ≠ "".
Proof.
  unfold truthy. destruct (String.eqb_spec s ""); simpl; split; congruence.
Qed.

Lemma truthy_false (s : string) : truthy s = false ↔ s = "".
Proof.
  unfold truthy. destruct (String.eqb_spec s ""); simpl; split; congruence.
Qed.

Lemma truthy_opt_true (o : option string) :
  truthy_opt o = true ↔ ∃ s, o = Some s ∧ s ≠ "".
Proof.
  destruct o as [s|]; simpl.
  - rewrite truthy_true. split.
    + intros Hs. exists s. done.
    + intros (s' & Heq & Hs'). congruence.
  - split; [discriminate | intros (? & ? & ?); discriminate].
Qed.

(** ** Stripping placeholders *)

Lemma stripPlaceholders_delete (pids : list string) (l : list ImageInfo.t)
    (k : nat) (img : ImageInfo.t) :
  l !! k = Some img → ImageInfo.id img ∈ pids →
  stripPlaceholders pids (delete k l) = stripPlaceholders pids l.
Proof.
  unfold stripPlaceholders. revert k.
  induction l as [|a l IH]; intros [|k] Hk Hin; simpl in *; try done.
  - injection Hk as ->. by rewrite filter_cons_False by (intros Hn; done).
  - rewrite !filter_cons. by rewrite (IH k Hk Hin).
Qed.

Lemma stripPlaceholders_spec (pids : list string) (l : list ImageInfo.t)
    (img : ImageInfo.t) :
  img ∈ stripPlaceholders pids l ↔ img ∈ l ∧ ImageInfo.id img ∉ pids.
Proof. unfold stripPlaceholders. rewrite list_elem_of_filter. tauto. Qed.

(** A failed result never sets the flag and only ever removes an entity
    whose id is one of the placeholder ids. *)
Lemma reconcileResult_failed (pids : list string) (pp : string)
    (r : GeneratedImage.t) (index : nat) (l : list ImageInfo.t) (u : bool) :
  variantFailed r = true →
  snd (reconcileResult pids pp r index (l, u)) = u
  ∧ stripPlaceholders pids (fst (reconcileResult pids pp r index (l, u)))
    = stripPlaceholders pids l.
Proof.
  intros Hf. unfold reconcileResult.
  destruct (pids !! index) as [p|] eqn:Hp; [|done].
  destruct (negb (truthy p)); [done|].
  destruct (list_find _ l) as [[k img]|] eqn:Hfind; [|done].
  rewrite Hf. simpl. split; [done|].
  apply list_find_Some in Hfind as (Hk & Hid & _).
  apply (stripPlaceholders_delete pids l k img Hk).
  rewrite Hid. by eapply list_elem_of_lookup_2.
Qed.

Lemma forEach_failed (pids : list string) (pp : string)
    (results : list GeneratedImage.t) :
  Forall (λ r, variantFailed r = true) results →
  ∀ index l u,
    snd (forEach_from (reconcileResult pids pp) index results (l, u)) = u
    ∧ stripPlaceholders pids
        (fst (forEach_from (reconcileResult pids pp) index results (l, u)))
      = stripPlaceholders pids l.
Proof.
  induction 1 as [|r results Hr _ IH]; intros index l u; cbn [forEach_from];
    [done|].
  destruct (reconcileResult pids pp r index (l, u)) as [l' u'] eqn:Hstep.
  destruct (reconcileResult_failed pids pp r index l u Hr) as [Hu Hl].
  rewrite Hstep in Hu, Hl. simpl in Hu, Hl. subst u'.
  destruct (IH (S index) l' u) as [IHu IHl]. split; [done|]. by rewrite IHl.
Qed.

(** When every result failed and the first one carries an error, the
    handler ends with the aggregate error and without any placeholder. *)
Lemma resume_total_failure (pids : list string) (pp : string)
    (first : GeneratedImage.t) (rest : list GeneratedImage.t) (st : State) :
  Forall (λ r, variantFailed r = true) (first :: rest) →
  truthy_opt (GeneratedImage.error first) = true →
  let st' := handleGenerateVariations_resume pids pp (Resolved (first :: rest)) st in
  images st' = stripPlaceholders pids (images st)
  ∧ error st' = Some "Generation of variants failed"
  ∧ errorLog st' = "Generation of variants failed" :: errorLog st.
Proof.
  intros Hall Herr.
  destruct (forEach_failed pids pp (first :: rest) Hall 0 (images st) false)
    as [Hu Hl].
  unfold handleGenerateVariations_resume, reconcile, forEach.
  unfold generationFailed. rewrite Herr. simpl negb. simpl andb.
  cbv zeta. simpl. split; [|done].
  exact Hl.
Qed.

(** ** Augmentation failure (falService.ts) *)

Lemma augmentationFailed_spec (pv : PromptVariants.t) :
  FalService.augmentationFailed pv = true
  ↔ (∃ e, PromptVariants.error pv = Some e ∧ e ≠ "")
    ∨ PromptVariants.variants pv = [].
Proof.
  unfold FalService.augmentationFailed.
  rewrite orb_true_iff, truthy_opt_true, Nat.eqb_eq.
  by rewrite length_zero_iff_nil.
Qed.

(** Every result of [generateImageVariations] carries a prompt: the
    original one after a failed augmentation, the variant's otherwise. *)
Lemma generateImageVariations_promptUsed
    (pv : PromptVariants.t) (uuids : nat → Outcome string)
    (fals : nat → Outcome (option string))
    (originalPrompt parentId : string) (imageSize : Z)
    (result : GeneratedImage.t) :
  result ∈ FalService.generateImageVariations pv uuids fals originalPrompt
             parentId imageSize →
  GeneratedImage.promptUsed result = Some originalPrompt
  ∨ ∃ variantPrompt,
      variantPrompt ∈ PromptVariants.variants pv
      ∧ GeneratedImage.promptUsed result = Some variantPrompt.
Proof.
  unfold FalService.generateImageVariations.
  destruct (FalService.augmentationFailed pv).
  - intros ->%list_elem_of_singleton. by left.
  - intros Hin. right. apply list_elem_of_lookup in Hin as [index Hindex].
    rewrite list_lookup_imap in Hindex.
    destruct (PromptVariants.variants pv !! index) as [variantPrompt|] eqn:Hv;
      [|done].
    injection Hindex as <-. exists variantPrompt.
    split; [by eapply list_elem_of_lookup_2|].
    unfold FalService.generateImage.
    by destruct (uuids index), (fals index).
Qed.

(** C1 (as amended).  When the prompt-augmentation step fails, that is,
    when it reports an error or yields no variants,
    [generateImageVariations] returns exactly one error pseudo-result:
    empty id, no url, the original prompt, and a populated error field.
    Given that list, [handleGenerateVariations] removes every placeholder
    of the fan-out and surfaces the aggregate error, through the same
    branch that handles a fan-out whose results all failed. *)
Theorem augmentation_failure_yields_one_error_result
    (pv : PromptVariants.t) (uuids : nat → Outcome string)
    (fals : nat → Outcome (option string))
    (originalPrompt parentId : string) (imageSize : Z) :
  (∃ e, PromptVariants.error pv = Some e ∧ e ≠ "")
  ∨ PromptVariants.variants pv = [] →
  let results :=
    FalService.generateImageVariations pv uuids fals originalPrompt parentId
      imageSize in
  (∃ message,
      message ≠ ""
      ∧ results = [GeneratedImage.mk "" None (Some originalPrompt) (Some message)])
  ∧ ∀ placeholderIds parentPrompt st,
      let st' :=
        handleGenerateVariations_resume placeholderIds parentPrompt
          (Resolved results) st in
      images st' = stripPlaceholders placeholderIds (images st)
      ∧ error st' = Some "Generation of variants failed".
Proof.
  intros Hfail results. apply augmentationFailed_spec in Hfail.
  subst results. unfold FalService.generateImageVariations. rewrite Hfail.
  set (message := "Prompt Variation Generation failed: " +:+ _).
  assert (Hmessage : message ≠ "") by (subst message; simpl; discriminate).
  split; [by exists message|].
  intros pids pp st.
  edestruct (resume_total_failure pids pp
               (GeneratedImage.mk "" None (Some originalPrompt) (Some message))
               [] st) as (Himages & Herror & _).
  - repeat constructor.
  - simpl. by apply truthy_true.
  - done.
Qed.

Lemma augmentation_failure_yields_one_error_result_witness :
  let results :=
    FalService.generateImageVariations
      (PromptVariants.mk [] (Some "Request timed out."))
      (λ _, Resolved "id") (λ _, Resolved (Some "https://v3.fal.media/files/a.png"))
      "a red fox" "parent" 150 in
  ∃ message,
    message ≠ ""
    ∧ results = [GeneratedImage.mk "" None (Some "a red fox") (Some message)].
Proof.
  refine (proj1 (augmentation_failure_yields_one_error_result
            (PromptVariants.mk [] (Some "Request timed out."))
            (λ _, Resolved "id")
            (λ _, Resolved (Some "https://v3.fal.media/files/a.png"))
            "a red fox" "parent" 150 _)).
  right. reflexivity.
Defined.

(** C1, as stated, fails: an augmentation that reports an error yields a
    list of one result, not of four. *)
Lemma augmentation_failure_not_four_results :
  let pv := PromptVariants.mk [] (Some "Request timed out.") in
  let results :=
    FalService.generateImageVariations pv
      (λ _, Resolved "id") (λ _, Resolved (Some "https://v3.fal.media/files/a.png"))
      "a red fox" "parent" 150 in
  FalService.augmentationFailed pv = true
  ∧ ¬ (length results = 4
       ∧ Forall (λ r, truthy_opt (GeneratedImage.error r) = true) results).
Proof.
  split; [reflexivity|]. intros [Hlen _]. vm_compute in Hlen. discriminate.
Qed.

(** ** Total failure of a fan-out *)

(** C3 (as amended).  When zero results succeeded and the first result
    carries an error, exactly one aggregate error is surfaced and no
    placeholder of the fan-out remains in the collection; the rest of the
    collection is as it was. *)
Theorem total_failure_surfaces_one_error
    (placeholderIds : list string) (parentPrompt : string)
    (results : list GeneratedImage.t) (st : State) :
  Forall (λ r, variantFailed r = true) results →
  (∃ first rest,
      results = first :: rest ∧ truthy_opt (GeneratedImage.error first) = true) →
  let st' :=
    handleGenerateVariations_resume placeholderIds parentPrompt
      (Resolved results) st in
  error st' = Some "Generation of variants failed"
  ∧ errorLog st' = "Generation of variants failed" :: errorLog st
  ∧ (∀ img, img ∈ images st' → ImageInfo.id img ∉ placeholderIds)
  ∧ images st' = stripPlaceholders placeholderIds (images st).
Proof.
  intros Hall (first & rest & -> & Hfirst) st'.
  destruct (resume_total_failure placeholderIds parentPrompt first rest st
              Hall Hfirst) as (Himages & Herror & Hlog).
  fold st' in Himages, Herror, Hlog.
  repeat split; try done.
  intros img. rewrite Himages, stripPlaceholders_spec. tauto.
Qed.

Lemma total_failure_surfaces_one_error_witness :
  let results :=
    FalService.generateImageVariations exampleVariants exampleUuids
      (λ _, Rejected (ErrorObject "quota exceeded")) "a red fox" "e1" IMAGE_SIZE in
  let st' :=
    handleGenerateVariations_resume examplePlaceholderIds "a red fox"
      (Resolved results) exampleFanOut in
  error st' = Some "Generation of variants failed"
  ∧ errorLog st' = ["Generation of variants failed"]
  ∧ images st' = [exampleImage].
Proof.
  intros results st'.
  destruct (total_failure_surfaces_one_error examplePlaceholderIds "a red fox"
              results exampleFanOut) as (Herror & Hlog & _ & Himages).
  - vm_compute. repeat constructor.
  - eexists _, _. split; reflexivity.
  - fold st' in Herror, Hlog, Himages.
    split; [exact Herror|]. split; [exact Hlog|].
    rewrite Himages. reflexivity.
Defined.

(** C3, as stated, fails.  The first generation comes back without an
    image url (and without an error), the other three fail with an error:
    zero results succeeded and three carry an error, yet no aggregate error
    is surfaced. *)
Lemma total_failure_without_aggregate_error :
  let fals (index : nat) : Outcome (option string) :=
    match index with
    | 0 => Resolved None
    | _ => Rejected (ErrorObject "quota exceeded")
    end in
  let results :=
    FalService.generateImageVariations exampleVariants exampleUuids fals
      "a red fox" "e1" IMAGE_SIZE in
  let st' :=
    handleGenerateVariations_resume examplePlaceholderIds "a red fox"
      (Resolved results) exampleFanOut in
  length results = 4
  ∧ Forall (λ r, variantFailed r = true) results
  ∧ Exists (λ r, truthy_opt (GeneratedImage.error r) = true) results
  ∧ error st' = None
  ∧ errorLog st' = [].
Proof.
  vm_compute. split; [done|]. split; [repeat constructor|].
  split; [|done]. apply Exists_cons_tl, Exists_cons_hd. reflexivity.
Qed.

(** ** Dragging *)

(** C10.  [handleUpdatePosition] stores the position it is given as it is:
    an entity with the target id ends up at exactly that position with
    every other field unchanged, every other entity is unchanged, and so
    are the length and order of the collection, the selection and all
    other parts of the page.  Nothing is clamped: a position outside the
    container is stored too. *)
Theorem update_position_verbatim
    (id : string) (newPosition : Position.t) (st : State) :
  let st' := handleUpdatePosition id newPosition st in
  length (images st') = length (images st)
  ∧ (∀ i img, images st !! i = Some img →
       ∃ img', images st' !! i = Some img'
         ∧ (ImageInfo.id img = id →
              ImageInfo.position img' = newPosition
              ∧ ImageInfo.id img' = ImageInfo.id img
              ∧ ImageInfo.src img' = ImageInfo.src img
              ∧ ImageInfo.prompt img' = ImageInfo.prompt img
              ∧ ImageInfo.parentId img' = ImageInfo.parentId img
              ∧ ImageInfo.isLoading img' = ImageInfo.isLoading img
              ∧ ImageInfo.isPlaceholder img' = ImageInfo.isPlaceholder img)
         ∧ (ImageInfo.id img ≠ id → img' = img))
  ∧ selectedImageId st' = selectedImageId st
  ∧ prompt st' = prompt st
  ∧ debouncedPrompt st' = debouncedPrompt st
  ∧ error st' = error st
  ∧ errorLog st' = errorLog st
  ∧ containerRef st' = containerRef st
  ∧ isRegeneratingRef st' = isRegeneratingRef st
  ∧ savedImages st' = savedImages st
  ∧ isLoadingSavedImages st' = isLoadingSavedImages st
  ∧ isImageDropdownOpen st' = isImageDropdownOpen st.
Proof.
  intros st'. subst st'. unfold handleUpdatePosition. simpl.
  split; [by rewrite length_fmap|]. split; [|done].
  intros i img Hi. rewrite list_lookup_fmap, Hi. simpl.
  eexists. split; [reflexivity|].
  destruct (decide (ImageInfo.id img = id)) as [Heq|Hne]; split; try done.
Qed.

(** A drag that ends outside the container of [exampleState] (1000 x 800):
    the stored position is the one supplied, not its clamped value. *)
Example update_position_outside_bounds :
  let outside := Position.mk (-40) 5000 in
  images (handleUpdatePosition "e1" outside exampleState)
  = [ImageInfo.with_position outside exampleImage]
  ∧ clampPositionToBounds outside (Some exampleContainer) IMAGE_SIZE
    = Position.mk 0 650.
Proof. split; reflexivity. Qed.

(** ** Saving *)

(** Whatever [saveImageBlob] resolves to, error or not, [handleSaveImage]
    goes on to refresh the catalog and leaves the error message alone. *)
Lemma handleSaveImage_resolved (result : SupabaseResult.t) (st : State) :
  handleSaveImage_resume (Resolved result) st
  = (setIsLoadingSavedImages true st, Some LoadSavedTask).
Proof. reflexivity. Qed.

(** Only a rejected call reaches the [catch]: one error, no refresh. *)
Lemma handleSaveImage_rejected (e : Thrown) (st : State) :
  handleSaveImage_resume (Rejected e) st
  = (setError (Some "Failed to save image") st, None).
Proof. reflexivity. Qed.

(** C9 (the code at the failing input).  The download of the image fails,
    so [saveImageBlob] reports the error "Failed to download image from
    URL" in its result.  [handleSaveImage] then refreshes the catalog but
    surfaces no error: the page's error message and the log of surfaced
    errors are as before. *)
Theorem save_reported_error_is_dropped :
  let world :=
    {| SupabaseService.supabase := true;
       SupabaseService.fetched :=
         Resolved {| SupabaseService.ok := false; SupabaseService.hasBody := false |};
       SupabaseService.blob := Resolved "image/png";
       SupabaseService.uploadError := Resolved None;
       SupabaseService.updateError := Resolved None |} in
  let result :=
    SupabaseService.saveImageBlob world "e1" "https://v3.fal.media/files/e1.png" in
  let after := handleSaveImage_resume (Resolved result) exampleState in
  SupabaseResult.error result = Some "Failed to download image from URL"
  ∧ snd after = Some LoadSavedTask
  ∧ error (fst after) = None
  ∧ errorLog (fst after) = [].
Proof. repeat split. Qed.

(** ** Finding an entity by id *)

Lemma findImage_None (id : string) (l : list ImageInfo.t) :
  findImage id l = None ↔ id ∉ ImageInfo.id <$> l.
Proof.
  unfold findImage. rewrite fmap_None, list_find_None, Forall_forall.
  rewrite list_elem_of_fmap. split.
  - intros Hall (img & -> & Hin). by apply (Hall img).
  - intros Hno img Hin Heq. apply Hno. by exists img.
Qed.

Lemma findImage_Some (id : string) (l : list ImageInfo.t) (img : ImageInfo.t) :
  findImage id l = Some img → img ∈ l ∧ ImageInfo.id img = id.
Proof.
  unfold findImage. intros Hfind.
  apply fmap_Some in Hfind as ([k img'] & Hfind & ->).
  apply list_find_Some in Hfind as (Hk & Hid & _). simpl.
  split; [by eapply list_elem_of_lookup_2 | done].
Qed.

(** ** Clamping *)

Lemma clamp_between (v : Q) (hi : Z) :
  (0 <= hi)%Z →
  (0 <= Qmax 0 (Qmin v (inject_Z hi)) <= inject_Z hi)%Q.
Proof.
  intros Hhi. split; [apply Q.le_max_l|].
  apply Q.max_lub; [|apply Q.le_min_r].
  change 0%Q with (inject_Z 0). by rewrite <- Zle_Qle.
Qed.

Lemma clampPositionToBounds_within (position : Position.t) (container : Container.t)
    (itemSize : Z) :
  let clamped := clampPositionToBounds position (Some container) itemSize in
  let maxX := Z.max 0 (Container.offsetWidth container - itemSize) in
  let maxY :=
    Z.max 0 (Z.max (Container.offsetHeight container)
                   (Container.scrollHeight container) - itemSize) in
  (0 <= Position.x clamped <= inject_Z maxX)%Q
  ∧ (0 <= Position.y clamped <= inject_Z maxY)%Q.
Proof.
  simpl. split; apply clamp_between; lia.
Qed.

(** ** Rounding to binary64 *)

(** Rounding does not depend on how the rational is written. *)
Lemma Double_round_Qeq (a b : Q) : (a == b)%Q → Double.round a = Double.round b.
Proof. intros Heq. unfold Double.round. by rewrite (Qred_complete a b Heq). Qed.

Lemma Qred_integer (n : Z) : Qred (inject_Z n) = inject_Z n.
Proof. apply Qcanon.Qred_identity. simpl. apply Z.gcd_1_r. Qed.

Lemma Double_ilog2_integer (n : Z) :
  (0 < n)%Z → Double.ilog2 (inject_Z n) = Z.log2 n.
Proof.
  intros Hn. unfold Double.ilog2. simpl. rewrite Z.sub_0_r.
  destruct (Z.log2_spec n Hn) as [Hlow _].
  pose proof (Z.log2_nonneg n) as Hnonneg.
  assert (Hle : Qle_bool (Double.pow2 (Z.log2 n)) (inject_Z n) = true).
  { apply Qle_bool_iff. unfold Double.pow2.
    rewrite (proj2 (Z.leb_le 0 (Z.log2 n)) Hnonneg). by rewrite <- Zle_Qle. }
  by rewrite Hle.
Qed.

Lemma Double_nearestEven_integer (k : Z) (q : Q) :
  (q == inject_Z k)%Q → Double.nearestEven q = k.
Proof.
  intros Heq. unfold Double.nearestEven.
  assert (Hfloor : Qfloor q = k) by (rewrite Heq; apply Qfloor_Z).
  rewrite Hfloor.
  assert (Hlt : (q - inject_Z k < 1 # 2)%Q) by (rewrite Heq; lra).
  pose proof (proj1 (Qlt_alt (q - inject_Z k) (1 # 2)) Hlt) as Hcompare.
  by rewrite Hcompare.
Qed.

(** Integers below [2 ^ 53] in absolute value are binary64 values. *)
Lemma Double_round_integer (n : Z) :
  (Z.abs n < 2 ^ 53)%Z → Double.round (inject_Z n) = inject_Z n.
Proof.
  intros Hn. unfold Double.round. rewrite Qred_integer.
  destruct (Qeq_bool (inject_Z n) 0) eqn:Hzero.
  { apply Qeq_bool_iff in Hzero. unfold Qeq in Hzero. simpl in Hzero.
    assert (n = 0%Z) as -> by lia. reflexivity. }
  assert (Hne : n ≠ 0%Z).
  { intros ->. by rewrite Qeq_bool_refl in Hzero. }
  assert (Habs : (Qabs (inject_Z n) == inject_Z (Z.abs n))%Q) by reflexivity.
  set (e := Double.ulpExponent (inject_Z n)).
  assert (He : (-52 ≤ e ≤ 0)%Z).
  { subst e. unfold Double.ulpExponent.
    change (Qabs (inject_Z n)) with (inject_Z (Z.abs n)).
    rewrite Double_ilog2_integer by lia.
    pose proof (Z.log2_nonneg (Z.abs n)).
    assert (Z.log2 (Z.abs n) < 53)%Z by (apply Z.log2_lt_pow2; lia).
    lia. }
  clearbody e.
  assert (Hpow : (0 < 2 ^ (- e))%Z) by (apply Z.pow_pos_nonneg; lia).
  assert (Hscaled : (inject_Z n * Double.pow2 (- e) == inject_Z (n * 2 ^ (- e)))%Q).
  { unfold Double.pow2. rewrite (proj2 (Z.leb_le 0 (- e))) by lia.
    by rewrite inject_Z_mult. }
  rewrite (Double_nearestEven_integer _ _ Hscaled).
  transitivity (Qred (inject_Z n)); [|apply Qred_integer].
  apply Qred_complete. rewrite inject_Z_mult.
  assert (Hinv : (inject_Z (2 ^ (- e)) * Double.pow2 e == 1)%Q).
  { unfold Double.pow2. destruct (0 <=? e)%Z eqn:Hsign.
    - apply Z.leb_le in Hsign. assert (e = 0%Z) as -> by lia. reflexivity.
    - unfold Qeq, Qmult, inject_Z. cbn [Qnum Qden].
      rewrite Pos.mul_1_l, Z2Pos.id by exact Hpow. lia. }
  rewrite <- Qmult_assoc, Hinv. ring.
Qed.

(** ** Duplication *)

(** C7 (as amended).  [duplicate(sourceId)]: when no entity has the source
    id, or when the id capability yields an empty id, a user error is
    surfaced and the collection is unchanged.  Otherwise exactly one entity is appended: it
    has the new id, the source's src and prompt, the source id as
    parentId, is neither loading nor a placeholder, sits at the source
    position shifted right by 150 and then by 25 and clamped to the
    container, and becomes the selection.  The two sums are sums of
    numbers, each rounded to binary64: the shift is exactly 175 whenever
    [x + 150] and [x + 175] are binary64 values, as they are for integer
    pixel coordinates. *)
Theorem duplicate_image (sourceImageId : string) (st : State) :
  (sourceImageId ∉ ImageInfo.id <$> images st →
     ∃ st', handleDuplicateImage_begin sourceImageId st = (st', None)
        ∧ images st' = images st
        ∧ selectedImageId st' = selectedImageId st
        ∧ error st' = Some "Could not find the image to duplicate.")
  ∧ (∀ sourceImage,
       findImage sourceImageId (images st) = Some sourceImage →
       ∃ shifted position,
         handleDuplicateImage_begin sourceImageId st
         = (setError None st,
            Some (DuplicateTask sourceImage sourceImageId position))
         ∧ Position.x shifted
           = Double.add
               (Double.add (Position.x (ImageInfo.position sourceImage)) 150) 25
         ∧ ((Double.round (Position.x (ImageInfo.position sourceImage) + 150)
             == Position.x (ImageInfo.position sourceImage) + 150)%Q →
            (Double.round (Position.x (ImageInfo.position sourceImage) + 175)
             == Position.x (ImageInfo.position sourceImage) + 175)%Q →
            (Position.x shifted
             == Position.x (ImageInfo.position sourceImage) + 175)%Q)
         ∧ (∀ n : Z,
              (Z.abs n + 175 < 2 ^ 53)%Z →
              (Position.x (ImageInfo.position sourceImage) == inject_Z n)%Q →
              Position.x shifted = inject_Z (n + 175))
         ∧ Position.y shifted = Position.y (ImageInfo.position sourceImage)
         ∧ position = clampPositionToBounds shifted (containerRef st) IMAGE_SIZE
         ∧ (∀ container, containerRef st = Some container →
              (0 <= Position.x position
               <= inject_Z (Z.max 0 (Container.offsetWidth container - IMAGE_SIZE)))%Q
              ∧ (0 <= Position.y position
                 <= inject_Z
                      (Z.max 0
                         (Z.max (Container.offsetHeight container)
                                (Container.scrollHeight container)
                          - IMAGE_SIZE)))%Q)
         ∧ ∀ st1,
             (let st2 :=
                handleDuplicateImage_resume sourceImage sourceImageId position
                  (Resolved "") st1 in
              images st2 = images st1
              ∧ selectedImageId st2 = selectedImageId st1
              ∧ error st2 = Some "Failed to get image to duplicate.")
             ∧ ∀ uuid, uuid ≠ "" →
                 let st2 :=
                   handleDuplicateImage_resume sourceImage sourceImageId position
                     (Resolved uuid) st1 in
                 images st2
                 = images st1
                   ++ [ImageInfo.mk uuid (ImageInfo.src sourceImage)
                         (ImageInfo.prompt sourceImage) position
                         (Some sourceImageId) (Some false) (Some false)]
                 ∧ selectedImageId st2 = Some uuid
                 ∧ error st2 = error st1).
Proof.
  split.
  - intros Hmissing. apply findImage_None in Hmissing.
    unfold handleDuplicateImage_begin. rewrite Hmissing.
    eexists. split; [reflexivity|]. done.
  - intros sourceImage Hfind.
    unfold handleDuplicateImage_begin. rewrite Hfind.
    set (x := Position.x (ImageInfo.position sourceImage)).
    exists (Position.mk
              (Double.add (Double.add x (inject_Z IMAGE_SIZE))
                 (inject_Z DUPLICATION_OFFSET))
              (Position.y (ImageInfo.position sourceImage))).
    eexists. split; [reflexivity|]. split; [reflexivity|].
    cbn [Position.x Position.y]. unfold Double.add.
    change (inject_Z IMAGE_SIZE) with 150%Q.
    change (inject_Z DUPLICATION_OFFSET) with 25%Q.
    split; [|split].
    { intros Hfirst Hsecond.
      rewrite (Double_round_Qeq (Double.round (x + 150) + 25) (x + 175));
        [exact Hsecond|].
      rewrite Hfirst. ring. }
    { intros n Hn Hx.
      rewrite (Double_round_Qeq (x + 150) (inject_Z (n + 150)))
        by (rewrite Hx, inject_Z_plus; reflexivity).
      rewrite Double_round_integer by lia.
      rewrite (Double_round_Qeq (inject_Z (n + 150) + 25) (inject_Z (n + 175)))
        by (rewrite !inject_Z_plus; ring).
      apply Double_round_integer. lia. }
    split; [reflexivity|]. split; [reflexivity|]. split.
    + intros container ->. apply clampPositionToBounds_within.
    + intros st1. split; [done|].
      intros uuid Huuid. simpl.
      unfold handleDuplicateImage_resume.
      rewrite (proj2 (truthy_true uuid) Huuid). done.
Qed.

Lemma duplicate_image_witness :
  ∃ position,
    handleDuplicateImage_begin "e1" exampleState
    = (exampleState, Some (DuplicateTask exampleImage "e1" position))
    ∧ position = Position.mk 275 100
    ∧ images (handleDuplicateImage_resume exampleImage "e1" position
                (Resolved "e2") exampleState)
      = [ exampleImage;
          ImageInfo.mk "e2" "https://v3.fal.media/files/e1.png" "a red fox"
            (Position.mk 275 100) (Some "e1") (Some false) (Some false) ].
Proof.
  destruct (proj2 (duplicate_image "e1" exampleState) exampleImage eq_refl)
    as (shifted & position & Hbegin & _ & _ & _ & _ & _ & _ & Hresume).
  exists position.
  assert (Hposition : position = Position.mk 275 100).
  { vm_compute in Hbegin. congruence. }
  split; [subst position; reflexivity|]. split; [exact Hposition|].
  destruct (Hresume exampleState) as [_ Hok].
  destruct (Hok "e2" ltac:(discriminate)) as (Himages & _).
  rewrite Himages, Hposition. reflexivity.
Defined.

(** A canvas only 300 px wide: the duplicate is clamped to x = 150. *)
Example duplicate_clamped :
  handleDuplicateImage_begin "e1"
    (setContainer (Some (Container.mk 300 800 800 None)) exampleState)
  = (setContainer (Some (Container.mk 300 800 800 None)) exampleState,
     Some (DuplicateTask exampleImage "e1" (Position.mk 150 100))).
Proof. reflexivity. Qed.

(** C7, as stated, fails.  A source that sits [2 ^ -70] px from the left
    edge of a 1000 px wide container: the sum with 150 is not a binary64
    value and rounds to 150, so the duplicate sits at x = 175, which is not
    the source position shifted right by 175 (and clamped, which changes
    nothing here). *)
Lemma duplicate_shift_rounded :
  let source := Position.mk (1 # 2 ^ 70) 100 in
  let st := handleUpdatePosition "e1" source exampleState in
  snd (handleDuplicateImage_begin "e1" st)
  = Some (DuplicateTask (ImageInfo.with_position source exampleImage) "e1"
            (Position.mk 175 100))
  ∧ clampPositionToBounds
      (Position.mk (Position.x source + 175) (Position.y source))
      (containerRef st) IMAGE_SIZE
    = Position.mk ((1 # 2 ^ 70) + 175) 100
  ∧ ¬ (175 == (1 # 2 ^ 70) + 175)%Q.
Proof.
  split; [vm_compute; reflexivity|]. split; [vm_compute; reflexivity|].
  intros Heq. vm_compute in Heq. discriminate.
Qed.

(** ** Grid layout *)

Lemma arranged_arranged (containerWidth : Z) (l : list ImageInfo.t) :
  arranged containerWidth (arranged containerWidth l) = arranged containerWidth l.
Proof.
  unfold arranged. apply list_eq. intros i.
  rewrite !list_lookup_imap. by destruct (l !! i).
Qed.

Lemma handleArrangeGrid_images (st : State) (container : Container.t) :
  containerRef st = Some container → images st ≠ [] →
  images (handleArrangeGrid st)
  = arranged (Container.offsetWidth container) (images st).
Proof.
  intros Hc Hne. unfold handleArrangeGrid. rewrite Hc.
  destruct (images st) as [|img l] eqn:Himages; [done|]. reflexivity.
Qed.

(** C8.  [arrangeGrid] is idempotent.  On a non-empty collection the
    entity at index [i] is moved to a position that depends only on [i],
    the container width and the layout constants; hence arranging again,
    with the container width unchanged, gives every entity the position it
    already has, and arranging the arranged page changes nothing at all. *)
Theorem arrange_grid_idempotent (st : State) (container : Container.t) :
  containerRef st = Some container → images st ≠ [] →
  let st1 := handleArrangeGrid st in
  (∀ i img, images st !! i = Some img →
     images st1 !! i
     = Some (ImageInfo.with_position
               (gridPosition (Container.offsetWidth container) i) img))
  ∧ handleArrangeGrid st1 = st1
  ∧ ∀ st2 container2,
      images st2 = images st1 →
      containerRef st2 = Some container2 →
      Container.offsetWidth container2 = Container.offsetWidth container →
      images (handleArrangeGrid st2) = images st1.
Proof.
  intros Hc Hne st1.
  pose proof (handleArrangeGrid_images st container Hc Hne) as Himages.
  fold st1 in Himages.
  assert (Hne1 : images st1 ≠ []).
  { rewrite Himages. unfold arranged. intros Hnil.
    apply (f_equal length) in Hnil. rewrite length_imap in Hnil.
    by destruct (images st). }
  split; [|split].
  - intros i img Hi. rewrite Himages. unfold arranged.
    by rewrite list_lookup_imap, Hi.
  - subst st1. unfold handleArrangeGrid at 1.
    unfold handleArrangeGrid in Himages, Hne1 |- *. rewrite Hc in *.
    destruct (images st) as [|img l] eqn:Hl; [done|].
    cbn -[imap gridPosition requiredContainerHeight].
    rewrite length_imap.
    change (imap _ (imap _ (img :: l)))
      with (arranged (Container.offsetWidth container)
              (arranged (Container.offsetWidth container) (img :: l))).
    by rewrite arranged_arranged.
  - intros st2 container2 H2 Hc2 Hw.
    rewrite (handleArrangeGrid_images st2 container2 Hc2) by (by rewrite H2).
    rewrite H2, Hw, Himages. apply arranged_arranged.
Qed.

Lemma arrange_grid_idempotent_witness :
  let st := exampleFanOut in
  let st1 := handleArrangeGrid st in
  handleArrangeGrid st1 = st1
  ∧ ImageInfo.position <$> images st1
    = [ Position.mk (170 # 2) 100; Position.mk (510 # 2) 100;
        Position.mk (850 # 2) 100; Position.mk (1190 # 2) 100;
        Position.mk (1530 # 2) 100 ].
Proof.
  intros st st1.
  destruct (arrange_grid_idempotent st exampleContainer eq_refl
              ltac:(discriminate)) as (_ & Hidem & _).
  split; [exact Hidem|]. vm_compute. reflexivity.
Defined.

(** ** Updating the entity with a given id *)

(** With unique ids, mapping [img.id === id ? f img : img] over the
    collection rewrites the one slot that holds the entity. *)
Lemma map_by_id_insert (f : ImageInfo.t → ImageInfo.t) (l : list ImageInfo.t)
    (k : nat) (target : ImageInfo.t) :
  NoDup (ImageInfo.id <$> l) → l !! k = Some target →
  (λ img, if decide (ImageInfo.id img = ImageInfo.id target) then f img else img)
    <$> l
  = <[k := f target]> l.
Proof.
  intros Hnodup Hk. apply list_eq. intros j.
  rewrite list_lookup_fmap.
  destruct (decide (k = j)) as [<-|Hne].
  - rewrite list_lookup_insert_eq by (by eapply lookup_lt_Some).
    rewrite Hk. simpl. by rewrite decide_True.
  - rewrite list_lookup_insert_ne by done.
    destruct (l !! j) as [img|] eqn:Hj; [|done]. simpl.
    rewrite decide_False; [done|]. intros Heq. apply Hne.
    apply (NoDup_lookup (ImageInfo.id <$> l) k j (ImageInfo.id target) Hnodup).
    + by rewrite list_lookup_fmap, Hk.
    + by rewrite list_lookup_fmap, Hj, <- Heq.
Qed.

(** ** Regeneration: success *)

(** C6.  When the generation call of a regeneration returns a usable image
    url, the target entity is replaced in place: its slot now holds an
    entity with the id of the result (a fresh id, different from the old
    one), the returned url as src, the prompt that was used, the old
    position and parentId, and both flags cleared.  All other slots are
    untouched, and the selection is the new id, which resolves to the very
    slot the target occupied. *)
Theorem regeneration_success_replaces_in_place
    (st : State) (imageId newPrompt uuid url : string)
    (k : nat) (target : ImageInfo.t) :
  url ≠ "" →
  NoDup (ImageInfo.id <$> images st) →
  images st !! k = Some target →
  ImageInfo.id target = imageId →
  uuid ∉ ImageInfo.id <$> images st →
  let settled :=
    FalService.generateImage (Resolved uuid) (Resolved (Some url)) newPrompt
      IMAGE_SIZE in
  let replacement :=
    ImageInfo.mk uuid url newPrompt (ImageInfo.position target)
      (ImageInfo.parentId target) (Some false) (Some false) in
  let st' := handleRegenerateSelectedImage_resume imageId newPrompt settled st in
  images st' = <[k := replacement]> (images st)
  ∧ images st' !! k = Some replacement
  ∧ (∀ j, j ≠ k → images st' !! j = images st !! j)
  ∧ uuid ≠ imageId
  ∧ selectedImageId st' = Some uuid
  ∧ list_find (λ img, ImageInfo.id img = uuid) (images st') = Some (k, replacement)
  ∧ isRegeneratingRef st' = false
  ∧ error st' = error st.
Proof.
  intros Hurl Hnodup Hk Hid Hfresh settled replacement st'.
  assert (Hlt : k < length (images st)) by (by eapply lookup_lt_Some).
  assert (Himages : images st' = <[k := replacement]> (images st)).
  { subst st' settled. unfold handleRegenerateSelectedImage_resume.
    cbn [FalService.generateImage GeneratedImage.imageUrl truthy_opt].
    rewrite (proj2 (truthy_true url) Hurl).
    cbn [images setIsRegenerating setSelectedImageId setImages
         GeneratedImage.id GeneratedImage.imageUrl GeneratedImage.promptUsed].
    subst imageId.
    rewrite (map_by_id_insert _ (images st) k target Hnodup Hk).
    f_equal. unfold ImageInfo.with_result, or_else. simpl.
    by destruct (truthy newPrompt) eqn:Hp;
      [|apply truthy_false in Hp; subst newPrompt]. }
  split; [exact Himages|].
  split; [rewrite Himages; by apply list_lookup_insert_eq|].
  split; [intros j Hj; rewrite Himages; by apply list_lookup_insert_ne|].
  split.
  { intros ->. apply Hfresh. rewrite <- Hid.
    apply list_elem_of_fmap_2. by eapply list_elem_of_lookup_2. }
  split.
  { subst st' settled. unfold handleRegenerateSelectedImage_resume.
    cbn [FalService.generateImage GeneratedImage.imageUrl truthy_opt].
    by rewrite (proj2 (truthy_true url) Hurl). }
  split.
  { rewrite Himages. apply list_find_Some.
    split; [by apply list_lookup_insert_eq|]. split; [done|].
    intros j y Hj Hjk Hy. rewrite list_lookup_insert_ne in Hj by lia.
    apply Hfresh. rewrite <- Hy. apply list_elem_of_fmap_2.
    by eapply list_elem_of_lookup_2. }
  subst st' settled. unfold handleRegenerateSelectedImage_resume.
  cbn [FalService.generateImage GeneratedImage.imageUrl truthy_opt].
  by rewrite (proj2 (truthy_true url) Hurl).
Qed.

Lemma regeneration_success_replaces_in_place_witness :
  let settled :=
    FalService.generateImage (Resolved "e9")
      (Resolved (Some "https://v3.fal.media/files/e9.png")) "a blue fox" IMAGE_SIZE in
  let st' :=
    handleRegenerateSelectedImage_resume "e1" "a blue fox" settled
      (fst (handleRegenerateSelectedImage_begin "e1" "a blue fox" exampleState)) in
  images st'
  = [ ImageInfo.mk "e9" "https://v3.fal.media/files/e9.png" "a blue fox"
        (Position.mk 100 100) None (Some false) (Some false) ]
  ∧ selectedImageId st' = Some "e9".
Proof.
  intros settled st'.
  destruct (regeneration_success_replaces_in_place
              (fst (handleRegenerateSelectedImage_begin "e1" "a blue fox"
                      exampleState))
              "e1" "a blue fox" "e9" "https://v3.fal.media/files/e9.png" 0
              (ImageInfo.with_isLoading true exampleImage))
    as (Himages & _ & _ & _ & Hsel & _).
  - discriminate.
  - vm_compute. apply NoDup_singleton.
  - reflexivity.
  - reflexivity.
  - vm_compute. intros Hin. apply list_elem_of_singleton in Hin. discriminate.
  - fold settled st' in Himages, Hsel. split; [|exact Hsel].
    rewrite Himages. reflexivity.
Defined.

(** ** Trimming *)

(** ** Trimming *)

(** [trim] on one code unit: a white space unit disappears, any other unit
    stays; checked on all 65536 units. *)
Lemma forallUnits_spec (check : N → bool) (count : nat) (u : N) :
  forallUnits check count u = true →
  ∀ k, (k < count)%nat → check (u + N.of_nat k)%N = true.
Proof.
  revert u. induction count as [|count IH]; intros u Hall k Hk; [lia|].
  simpl in Hall. apply andb_true_iff in Hall as [Hu Hrest].
  destruct k as [|k].
  - by rewrite N.add_0_r.
  - replace (u + N.of_nat (S k))%N with (N.succ u + N.of_nat k)%N by lia.
    apply IH; [exact Hrest|lia].
Qed.

Lemma trim_code_unit (u : N) :
  (u < 65536)%N →
  trim (encodeUnit u) = if isWhiteSpaceUnit u then "" else encodeUnit u.
Proof.
  intros Hu.
  assert (Hall : forallUnits
                   (λ u, String.eqb (trim (encodeUnit u))
                           (if isWhiteSpaceUnit u then "" else encodeUnit u))
                   (N.to_nat 65536) 0 = true) by (vm_compute; reflexivity).
  apply String.eqb_eq.
  pose proof (forallUnits_spec _ _ _ Hall (N.to_nat u)) as Hcheck.
  rewrite N.add_0_l, N2Nat.id in Hcheck. apply Hcheck. lia.
Qed.

(** ** Regeneration: the trigger *)

Example trim_examples :
  trim "  a red fox  " = "a red fox"
  ∧ trim "a" = "a"
  ∧ trim (String (Ascii.ascii_of_nat 9) (String (Ascii.ascii_of_nat 32) "")) = ""
  ∧ trim "" = ""
  ∧ trim (encodeUnit 8195 +:+ "a red fox" +:+ encodeUnit 12288 +:+ encodeUnit 65279)
    = "a red fox"
  ∧ trim (encodeUnit 160 +:+ encodeUnit 8232) = ""
  ∧ trim (encodeUnit 8203 +:+ "a") = encodeUnit 8203 +:+ "a".
Proof. repeat split. Qed.

Lemma handleRegenerateSelectedImage_begin_idle (imageId newPrompt : string)
    (st : State) :
  isRegeneratingRef st = false →
  snd (handleRegenerateSelectedImage_begin imageId newPrompt st)
  = Some (RegenerateTask imageId newPrompt)
  ∧ isRegeneratingRef (fst (handleRegenerateSelectedImage_begin imageId newPrompt st))
    = true.
Proof.
  intros Hidle. unfold handleRegenerateSelectedImage_begin. by rewrite Hidle.
Qed.

Lemma handleRegenerateSelectedImage_begin_pending (imageId newPrompt : string)
    (st : State) :
  isRegeneratingRef st = true →
  handleRegenerateSelectedImage_begin imageId newPrompt st = (st, None).
Proof.
  intros Hbusy. unfold handleRegenerateSelectedImage_begin. by rewrite Hbusy.
Qed.

Lemma regenerationEffect_attempt (st : State) :
  (∀ task,
     snd (regenerationEffect st) = Some task
     ↔ ∃ selected selectedImage,
         (selectedImageId st = Some selected ∧ selected ≠ ""
          ∧ findImage selected (images st) = Some selectedImage)
         ∧ trim (debouncedPrompt st) ≠ ""
         ∧ isRegeneratingRef st = false
         ∧ ImageInfo.prompt selectedImage ≠ debouncedPrompt st
         ∧ task = RegenerateTask selected (debouncedPrompt st))
  ∧ (snd (regenerationEffect st) = None → fst (regenerationEffect st) = st)
  ∧ (∀ selected,
       selectedImageId st = Some selected →
       snd (regenerationEffect st) ≠ None →
       regenerationEffect st
       = handleRegenerateSelectedImage_begin selected (debouncedPrompt st) st).
Proof.
  unfold regenerationEffect.
  destruct (selectedImageId st) as [selected|] eqn:Hsel; cycle 1.
  { split; [|done]. intros task. split; [done|].
    by intros (? & ? & (? & _) & _). }
  destruct (truthy selected) eqn:Htruthy; cycle 1.
  { simpl. split; [|done]. intros task. split; [done|].
    intros (s & ? & ([= <-] & Hne & _) & _).
    apply truthy_false in Htruthy. done. }
  destruct (truthy (trim (debouncedPrompt st))) eqn:Htrim; cycle 1.
  { simpl. split; [|done]. intros task. split; [done|].
    intros (? & ? & _ & Hne & _). apply truthy_false in Htrim. done. }
  destruct (isRegeneratingRef st) eqn:Hlatch.
  { simpl. split; [|done]. intros task. split; [done|].
    by intros (? & ? & _ & _ & ? & _). }
  simpl.
  destruct (findImage selected (images st)) as [selectedImage|] eqn:Hfind; cycle 1.
  { split; [|done]. intros task. split; [done|].
    intros (s & ? & ([= <-] & _ & Hf) & _). congruence. }
  destruct (decide (ImageInfo.prompt selectedImage ≠ debouncedPrompt st))
    as [Hdiff|Hsame]; cycle 1.
  { split; [|done]. intros task. split; [done|].
    intros (s & img & ([= <-] & _ & Hf) & _ & _ & Hd & _).
    rewrite Hfind in Hf. injection Hf as <-. done. }
  destruct (handleRegenerateSelectedImage_begin_idle selected (debouncedPrompt st)
              st Hlatch) as [Htask _].
  split; [|split; [rewrite Htask; done|by intros ? [= <-] _]].
  intros task. rewrite Htask. split.
  - intros [= <-]. exists selected, selectedImage.
    apply truthy_true in Htruthy, Htrim. done.
  - intros (s & img & ([= <-] & _) & _ & _ & _ & ->). done.
Qed.



(** ** The regeneration latch *)

Lemma regenerations_app (st st' : State) (l l' : list Task) :
  regenerationsInFlight (mkMachine st (l ++ l'))
  = regenerationsInFlight (mkMachine st' l)
    + length (filter (λ t, isRegenerateTask t = true) l').
Proof.
  unfold regenerationsInFlight. simpl. by rewrite filter_app, length_app.
Qed.

Lemma regenerations_delete (st st' : State) (l : list Task) (k : nat) (t : Task) :
  l !! k = Some t →
  regenerationsInFlight (mkMachine st l)
  = regenerationsInFlight (mkMachine st' (delete k l))
    + (if isRegenerateTask t then 1 else 0).
Proof.
  intros Hk. unfold regenerationsInFlight. simpl.
  rewrite <- (take_drop_middle l k t Hk) at 1.
  rewrite delete_take_drop, !filter_app, !length_app, filter_cons.
  destruct (isRegenerateTask t) eqn:Ht.
  - rewrite decide_True by done. simpl. lia.
  - rewrite decide_False by (by intros ?). lia.
Qed.

(** Starting a handler that does not touch the latch and awaits something
    other than a regeneration keeps the invariant. *)
Lemma started_other (m : Machine) (r : State * option Task) :
  latchInvariant m →
  isRegeneratingRef (fst r) = isRegeneratingRef (page m) →
  (∀ t, snd r = Some t → isRegenerateTask t = false) →
  latchInvariant (started m r).
Proof.
  unfold latchInvariant, started. intros Hinv Hlatch Hother. simpl.
  rewrite (regenerations_app _ (page m)), Hlatch.
  destruct m as [st l]. simpl in *. rewrite Hinv.
  destruct (snd r) as [t|]; simpl; [|lia].
  rewrite filter_cons, decide_False; [simpl; lia|].
  rewrite (Hother t eq_refl). done.
Qed.

Lemma same_inflight (m : Machine) (st' : State) :
  latchInvariant m →
  isRegeneratingRef st' = isRegeneratingRef (page m) →
  latchInvariant (mkMachine st' (inflight m)).
Proof.
  unfold latchInvariant, regenerationsInFlight. simpl. by intros -> ->.
Qed.

Lemma handleGenerateVariations_resume_latch pids pp settled st :
  isRegeneratingRef (handleGenerateVariations_resume pids pp settled st)
  = isRegeneratingRef st.
Proof.
  unfold handleGenerateVariations_resume.
  destruct settled as [results|e]; [|done].
  by destruct (generationFailed _ _).
Qed.

Lemma regenerationEffect_invariant (m : Machine) :
  latchInvariant m → latchInvariant (started m (regenerationEffect (page m))).
Proof.
  intros Hinv.
  destruct (isRegeneratingRef (page m)) eqn:Hlatch.
  - assert (regenerationEffect (page m) = (page m, None)) as ->.
    { unfold regenerationEffect. rewrite Hlatch.
      destruct (selectedImageId (page m)); [|done].
      by rewrite andb_false_r. }
    apply started_other; done.
  - unfold regenerationEffect.
    repeat (case_match; try (apply started_other; done)).
    unfold handleRegenerateSelectedImage_begin. rewrite Hlatch.
    unfold latchInvariant, started in *. simpl.
    rewrite (regenerations_app _ (page m)).
    destruct m as [st l]. simpl in *. rewrite Hinv, Hlatch. reflexivity.
Qed.

Lemma step_invariant (ev : Event) (m m' : Machine) :
  latchInvariant m → step ev m = Some m' → latchInvariant m'.
Proof.
  intros Hinv Hstep. destruct ev; simpl in Hstep;
    try (injection Hstep as <-).
  - apply same_inflight; [done|]. unfold mountEffect.
    by repeat case_match.
  - by apply same_inflight.
  - by apply same_inflight.
  - by apply regenerationEffect_invariant.
  - apply same_inflight; [done|]. unfold handleSelectImage. by case_match.
  - by apply same_inflight.
  - by apply same_inflight.
  - apply same_inflight; [done|]. unfold handleDeleteImage. by case_match.
  - apply started_other; [done| |];
      unfold handleDuplicateImage_begin; case_match; simpl; try done;
      by intros ? [= <-].
  - apply started_other; [done| |];
      unfold handleGenerateVariations_begin; case_match; simpl; try done;
      by intros ? [= <-].
  - apply same_inflight; [done|]. unfold handleArrangeGrid.
    by repeat case_match.
  - apply started_other; [done|done|]. by intros ? [= <-].
  - apply same_inflight; [done|]. unfold handleSelectSavedImage. by case_match.
  - by apply same_inflight.
  - apply started_other; [done|done|]. by intros ? [= <-].
  - by apply same_inflight.
  - destruct (inflight m !! k) as [t|] eqn:Hk; [|done]. simpl in Hstep.
    destruct (resume t s (page m)) as [[st' spawned]|] eqn:Hresume; [|done].
    simpl in Hstep. injection Hstep as <-.
    unfold latchInvariant in *. simpl.
    rewrite (regenerations_app _ st').
    pose proof (regenerations_delete (page m) st' (inflight m) k t Hk) as Hdel.
    destruct m as [st l]. simpl in *. rewrite Hinv in Hdel.
    destruct t, s; simpl in Hresume; try done.
    + injection Hresume as <- <-. simpl in Hdel |- *.
      destruct (isRegeneratingRef st); lia.
    + injection Hresume as <- <-. simpl in Hdel |- *.
      rewrite handleGenerateVariations_resume_latch. lia.
    + injection Hresume as <- <-.
      assert (isRegeneratingRef
                (handleDuplicateImage_resume sourceImage sourceImageId
                   position o st) = isRegeneratingRef st) as Hlatch.
      { unfold handleDuplicateImage_resume. by repeat case_match. }
      rewrite Hlatch. simpl in Hdel |- *. lia.
    + destruct o; injection Hresume as <- <-; simpl in Hdel |- *;
        rewrite ?filter_cons, ?decide_False by (by intros ?); simpl; lia.
    + injection Hresume as <- <-. destruct o; simpl in Hdel |- *; lia.
Qed.

Lemma run_invariant (evs : list Event) (m m' : Machine) :
  latchInvariant m → run evs m = Some m' → latchInvariant m'.
Proof.
  revert m. induction evs as [|ev evs IH]; intros m Hinv Hrun; simpl in Hrun.
  - by injection Hrun as <-.
  - destruct (step ev m) as [m1|] eqn:Hstep; [|done]. simpl in Hrun.
    eapply IH; [|done]. by eapply step_invariant.
Qed.

(** C4.  At most one regeneration is in flight, whatever the events: in
    every state the page can reach, the number of regenerations in flight
    is at most one, and the latch is set exactly when it is one.  While
    the latch is set a further attempt is ignored, whether it comes from
    the debounce effect or calls the handler directly: nothing is started
    and the page is unchanged.  The latch is released however the pending
    generation settles (an image url, no url, or an exception), and then
    the next attempt starts. *)
Theorem at_most_one_regeneration_in_flight :
  (∀ container evs m,
     run evs (initialMachine container) = Some m →
     (regenerationsInFlight m ≤ 1)%nat
     ∧ (isRegeneratingRef (page m) = true ↔ regenerationsInFlight m = 1))
  ∧ (∀ m, isRegeneratingRef (page m) = true →
       step RegenerationEffectRan m = Some m)
  ∧ (∀ imageId newPrompt st,
       isRegeneratingRef st = true →
       handleRegenerateSelectedImage_begin imageId newPrompt st = (st, None))
  ∧ (∀ imageId newPrompt settled st,
       isRegeneratingRef
         (handleRegenerateSelectedImage_resume imageId newPrompt settled st)
       = false)
  ∧ (∀ imageId newPrompt settled st imageId' newPrompt',
       snd (handleRegenerateSelectedImage_begin imageId' newPrompt'
              (handleRegenerateSelectedImage_resume imageId newPrompt settled st))
       = Some (RegenerateTask imageId' newPrompt')).
Proof.
  split; [|split; [|split; [|split]]].
  - intros container evs m Hrun.
    assert (Hinv : latchInvariant m).
    { eapply run_invariant; [|exact Hrun]. reflexivity. }
    unfold latchInvariant in Hinv. rewrite Hinv.
    destruct (isRegeneratingRef (page m)); split; try lia; split; done.
  - intros [st l] Hbusy. simpl in *.
    assert (regenerationEffect st = (st, None)) as ->.
    { unfold regenerationEffect. rewrite Hbusy.
      destruct (selectedImageId st); [|done]. by rewrite andb_false_r. }
    unfold started. simpl. by rewrite app_nil_r.
  - intros. by apply handleRegenerateSelectedImage_begin_pending.
  - intros imageId newPrompt settled st.
    unfold handleRegenerateSelectedImage_resume. reflexivity.
  - intros. apply handleRegenerateSelectedImage_begin_idle.
    unfold handleRegenerateSelectedImage_resume. reflexivity.
Qed.

Lemma at_most_one_regeneration_in_flight_witness :
  match run exampleTrace (initialMachine (Some exampleContainer)) with
  | Some m =>
      inflight m = [RegenerateTask "initial-placeholder" "a red fox at dusk"]
      ∧ (regenerationsInFlight m ≤ 1)%nat
  | None => False
  end.
Proof.
  destruct (run exampleTrace (initialMachine (Some exampleContainer)))
    as [m|] eqn:Hrun.
  - pose proof (proj1 (proj1 at_most_one_regeneration_in_flight
                         (Some exampleContainer) exampleTrace m Hrun)) as Hle.
    split; [|exact Hle].
    apply (f_equal (fmap inflight)) in Hrun. vm_compute in Hrun.
    by injection Hrun.
  - vm_compute in Hrun. discriminate.
Defined.

(** The second settlement of [exampleTrace] arrives while the first
    regeneration is pending and starts nothing. *)
Example second_settlement_ignored :
  match run (take 6 exampleTrace) (initialMachine (Some exampleContainer)) with
  | Some m =>
      inflight m = [RegenerateTask "initial-placeholder" "a red fox"]
      ∧ debouncedPrompt (page m) = "a red fox at dusk"
      ∧ step RegenerationEffectRan m = Some m
  | None => False
  end.
Proof. vm_compute. repeat split. Qed.

(** ** Reconciliation: the loop against the entity-wise description *)

Lemma forEach_from_snoc {A Acc : Type} (f : A → nat → Acc → Acc) (index : nat)
    (l : list A) (a : A) (s : Acc) :
  forEach_from f index (l ++ [a]) s
  = f a (index + length l)%nat (forEach_from f index l s).
Proof.
  revert index s. induction l as [|b l IH]; intros index s.
  - simpl. by rewrite Nat.add_0_r.
  - replace (index + length (b :: l))%nat with (S index + length l)%nat
      by (simpl; lia).
    apply IH.
Qed.

Lemma omap_omap {A B C : Type} (f : A → option B) (g : B → option C)
    (l : list A) :
  omap g (omap f l) = omap (λ a, f a ≫= g) l.
Proof.
  induction l as [|a l IH]; [done|]. csimpl.
  destruct (f a) as [b|]; csimpl; [|done].
  destruct (g b); by rewrite IH.
Qed.

Lemma omap_ext_elem {A B : Type} (f g : A → option B) (l : list A) :
  (∀ a, a ∈ l → f a = g a) → omap f l = omap g l.
Proof.
  induction l as [|a l IH]; intros Hfg; [done|]. csimpl.
  rewrite (Hfg a) by left. rewrite IH; [done|].
  intros b Hb. apply Hfg. by right.
Qed.

Lemma omap_Some_id {A : Type} (f : A → option A) (l : list A) :
  (∀ a, a ∈ l → f a = Some a) → omap f l = l.
Proof.
  induction l as [|a l IH]; intros Hf; [done|]. csimpl.
  rewrite (Hf a) by left. rewrite IH; [done|].
  intros b Hb. apply Hf. by right.
Qed.

(** The number of entities with a given id. *)
Lemma NoDup_ids_at_most_one (p : string) (l : list ImageInfo.t) :
  NoDup (ImageInfo.id <$> l) →
  (length (filter (λ img, ImageInfo.id img = p) l) ≤ 1)%nat.
Proof.
  induction l as [|a l IH]; intros Hnodup; [simpl; lia|].
  rewrite fmap_cons in Hnodup. apply NoDup_cons in Hnodup as [Hnotin Hnodup].
  rewrite filter_cons. destruct (decide (ImageInfo.id a = p)) as [Heq|Hne].
  - assert (filter (λ img, ImageInfo.id img = p) l = []) as ->; [|simpl; lia].
    destruct (filter _ l) as [|b bs] eqn:Hfilter; [done|]. exfalso.
    assert (Hb : b ∈ filter (λ img, ImageInfo.id img = p) l)
      by (rewrite Hfilter; left).
    apply list_elem_of_filter in Hb as [Hid Hb]. apply Hnotin.
    rewrite Heq, <- Hid. by apply list_elem_of_fmap_2.
  - by apply IH.
Qed.

Lemma omap_at_most_one (p : string) (f : ImageInfo.t → option ImageInfo.t)
    (l : list ImageInfo.t) :
  (∀ a b, f a = Some b → ImageInfo.id b = p → ImageInfo.id a = p) →
  (length (filter (λ img, ImageInfo.id img = p) (omap f l))
   ≤ length (filter (λ img, ImageInfo.id img = p) l))%nat.
Proof.
  intros Hf. induction l as [|a l IH]; [done|]. csimpl.
  rewrite (filter_cons _ a).
  destruct (f a) as [b|] eqn:Hfa.
  - rewrite filter_cons.
    destruct (decide (ImageInfo.id b = p)) as [Hb|Hb].
    + rewrite decide_True by by eapply Hf. simpl. lia.
    + destruct (decide (ImageInfo.id a = p)); simpl; lia.
  - destruct (decide (ImageInfo.id a = p)); simpl; lia.
Qed.

(** With at most one entity of id [p], acting on the first entity found
    is acting on every entity with that id. *)
Lemma first_match_omap (p : string) (h : ImageInfo.t → option ImageInfo.t)
    (l : list ImageInfo.t) :
  (length (filter (λ img, ImageInfo.id img = p) l) ≤ 1)%nat →
  match list_find (λ img, ImageInfo.id img = p) l with
  | None => l
  | Some (k, img) =>
      match h img with
      | None => delete k l
      | Some v => <[k := v]> l
      end
  end
  = omap (λ img, if decide (ImageInfo.id img = p) then h img else Some img) l.
Proof.
  induction l as [|a l IH]; intros Hcount; [done|].
  rewrite filter_cons in Hcount. cbn [list_find]. csimpl.
  destruct (decide (ImageInfo.id a = p)) as [Heq|Hne].
  - assert (Hrest : omap (λ img, if decide (ImageInfo.id img = p)
                                 then h img else Some img) l = l).
    { apply omap_Some_id. intros b Hb.
      rewrite decide_False; [done|]. intros Hid.
      assert (Hin : b ∈ filter (λ img, ImageInfo.id img = p) l)
        by (by apply list_elem_of_filter).
      destruct (filter _ l); [by apply elem_of_nil in Hin|].
      simpl in Hcount. lia. }
    rewrite Hrest. by destruct (h a).
  - specialize (IH Hcount).
    destruct (list_find _ l) as [[k img]|]; simpl.
    + rewrite <- IH. by destruct (h img).
    + by rewrite <- IH.
Qed.

Section reconciliation.

Variable placeholderIds : list string.
Variable parentPrompt : string.
Hypothesis placeholderIds_distinct : NoDup placeholderIds.
Hypothesis placeholderIds_nonempty : "" ∉ placeholderIds.

Lemma placeholderIndexOf_Some (img : ImageInfo.t) (j : nat) :
  placeholderIndexOf placeholderIds img = Some j
  ↔ placeholderIds !! j = Some (ImageInfo.id img).
Proof.
  unfold placeholderIndexOf. split.
  - intros Hfind. apply fmap_Some in Hfind as ([j' q] & Hfind & ->).
    apply list_find_Some in Hfind as (Hj & -> & _). done.
  - intros Hj.
    destruct (list_find (λ p, p = ImageInfo.id img) placeholderIds)
      as [[j' q]|] eqn:Hfind.
    + apply list_find_Some in Hfind as (Hj' & -> & _). simpl. f_equal.
      by eapply NoDup_lookup.
    + apply list_find_None in Hfind. rewrite Forall_forall in Hfind.
      exfalso. apply (Hfind (ImageInfo.id img)); [|done].
      by eapply list_elem_of_lookup_2.
Qed.

Lemma placeholderIndexOf_None (img : ImageInfo.t) :
  placeholderIndexOf placeholderIds img = None
  ↔ ImageInfo.id img ∉ placeholderIds.
Proof.
  unfold placeholderIndexOf. rewrite fmap_None, list_find_None, Forall_forall.
  split.
  - intros Hall Hin. by apply (Hall _ Hin).
  - intros Hnotin q Hq ->. done.
Qed.

(** One iteration of the loop, when at most one entity has the id looked
    for. *)
Lemma reconcileResult_step (result : GeneratedImage.t) (index : nat)
    (l : list ImageInfo.t) (u : bool) (p : string) :
  placeholderIds !! index = Some p →
  (length (filter (λ img, ImageInfo.id img = p) l) ≤ 1)%nat →
  reconcileResult placeholderIds parentPrompt result index (l, u)
  = (omap (stepOutcome p parentPrompt result) l,
     u || (negb (variantFailed result)
           && bool_decide (p ∈ ImageInfo.id <$> l))).
Proof.
  intros Hp Hcount. unfold reconcileResult. rewrite Hp.
  assert (Hne : p ≠ "").
  { intros ->. apply placeholderIds_nonempty. by eapply list_elem_of_lookup_2. }
  rewrite (proj2 (truthy_true p) Hne). cbn [negb].
  pose proof (first_match_omap p
                (λ img, if variantFailed result then None
                        else Some (ImageInfo.with_result
                                     (GeneratedImage.id result)
                                     (default "" (GeneratedImage.imageUrl result))
                                     (or_else (GeneratedImage.promptUsed result)
                                              ("Variant of: " +:+ parentPrompt))
                                     img))
                l Hcount) as Hfirst.
  change (omap _ l) with (omap (stepOutcome p parentPrompt result) l) in Hfirst.
  destruct (list_find (λ img, ImageInfo.id img = p) l) as [[k img]|] eqn:Hfind.
  - assert (Hin : p ∈ ImageInfo.id <$> l).
    { apply list_find_Some in Hfind as (Hk & <- & _).
      apply list_elem_of_fmap_2. by eapply list_elem_of_lookup_2. }
    rewrite (bool_decide_eq_true_2 _ Hin).
    destruct (variantFailed result); simpl; rewrite <- Hfirst.
    + by rewrite orb_false_r.
    + by rewrite orb_true_r.
  - assert (Hnotin : p ∉ ImageInfo.id <$> l).
    { apply list_find_None in Hfind. rewrite Forall_forall in Hfind.
      intros Hin. apply list_elem_of_fmap in Hin as (img & -> & Himg).
      by apply (Hfind img). }
    rewrite (bool_decide_eq_false_2 _ Hnotin), andb_false_r, orb_false_r.
    by rewrite <- Hfirst.
Qed.

Lemma with_result_promotedBy (result : GeneratedImage.t) (img : ImageInfo.t) :
  ImageInfo.with_result
    (GeneratedImage.id result)
    (default "" (GeneratedImage.imageUrl result))
    (or_else (GeneratedImage.promptUsed result) ("Variant of: " +:+ parentPrompt))
    img
  = promotedBy parentPrompt result img.
Proof.
  unfold ImageInfo.with_result, promotedBy, or_else. f_equal.
  destruct (GeneratedImage.promptUsed result) as [prompt|]; [|done].
  destruct (decide (prompt = "")) as [->|Hprompt]; [done|].
  by rewrite (proj2 (truthy_true prompt) Hprompt).
Qed.

(** What the entity-wise description returns either is the entity itself
    or does not have a placeholder id. *)
Lemma slotOutcome_placeholder (results : list GeneratedImage.t)
    (a b : ImageInfo.t) :
  freshResults placeholderIds results →
  slotOutcome placeholderIds parentPrompt results a = Some b →
  ImageInfo.id b ∈ placeholderIds → b = a.
Proof.
  intros Hwf Hslot Hin. unfold slotOutcome in Hslot.
  destruct (placeholderIndexOf placeholderIds a ≫= (results !!.))
    as [result|] eqn:Hresult; [|congruence].
  destruct (variantFailed result) eqn:Hfailed; [done|].
  injection Hslot as <-. exfalso.
  apply bind_Some in Hresult as (j & _ & Hj).
  by apply (Hwf result); [eapply list_elem_of_lookup_2|..].
Qed.

Lemma slotOutcome_step (results : list GeneratedImage.t)
    (result : GeneratedImage.t) (p : string) (img : ImageInfo.t) :
  freshResults placeholderIds (results ++ [result]) →
  placeholderIds !! length results = Some p →
  slotOutcome placeholderIds parentPrompt results img ≫= stepOutcome p parentPrompt result
  = slotOutcome placeholderIds parentPrompt (results ++ [result]) img.
Proof.
  intros Hwf Hp. unfold slotOutcome.
  destruct (placeholderIndexOf placeholderIds img) as [j|] eqn:Hindex; cycle 1.
  { apply placeholderIndexOf_None in Hindex. simpl.
    unfold stepOutcome. rewrite decide_False; [done|]. intros Heq.
    apply Hindex. rewrite Heq. by eapply list_elem_of_lookup_2. }
  apply placeholderIndexOf_Some in Hindex. simpl.
  destruct (lt_eq_lt_dec j (length results)) as [[Hlt| ->]|Hgt].
  - rewrite lookup_app_l by done.
    destruct (results !! j) as [rj|] eqn:Hrj;
      [|apply lookup_ge_None in Hrj; lia].
    destruct (variantFailed rj) eqn:Hfailed; [done|]. simpl.
    unfold stepOutcome. rewrite decide_False; [done|]. simpl. intros Heq.
    apply (Hwf rj); [|done|].
    { apply elem_of_app. left. by eapply list_elem_of_lookup_2. }
    rewrite Heq. by eapply list_elem_of_lookup_2.
  - rewrite (lookup_ge_None_2 results) by done.
    rewrite list_lookup_middle by done. simpl.
    unfold stepOutcome. rewrite decide_True by congruence.
    destruct (variantFailed result) eqn:Hfailed; [done|].
    by rewrite with_result_promotedBy.
  - rewrite (lookup_ge_None_2 results) by lia.
    rewrite (lookup_ge_None_2 (results ++ [result]))
      by (rewrite length_app; simpl; lia).
    simpl. unfold stepOutcome. rewrite decide_False; [done|]. intros Heq.
    rewrite Heq in Hindex.
    pose proof (NoDup_lookup _ _ _ _ placeholderIds_distinct Hindex Hp). lia.
Qed.

Lemma slotOutcome_out_of_range (results : list GeneratedImage.t)
    (result : GeneratedImage.t) (img : ImageInfo.t) :
  placeholderIds !! length results = None →
  slotOutcome placeholderIds parentPrompt (results ++ [result]) img
  = slotOutcome placeholderIds parentPrompt results img.
Proof.
  intros Hnone. unfold slotOutcome.
  destruct (placeholderIndexOf placeholderIds img) as [j|] eqn:Hindex; [|done].
  apply placeholderIndexOf_Some in Hindex. simpl.
  apply lookup_ge_None in Hnone. apply lookup_lt_Some in Hindex.
  by rewrite lookup_app_l by lia.
Qed.

Lemma appliedSuccess_snoc (results : list GeneratedImage.t)
    (result : GeneratedImage.t) (prev : list ImageInfo.t) :
  appliedSuccess placeholderIds (results ++ [result]) prev
  ↔ appliedSuccess placeholderIds results prev
    ∨ (variantFailed result = false
       ∧ ∃ p, placeholderIds !! length results = Some p
              ∧ p ∈ ImageInfo.id <$> prev).
Proof.
  unfold appliedSuccess. split.
  - intros (i & r & p & Hi & Hok & Hp & Hin).
    apply lookup_snoc_Some in Hi as [[Hlt Hi]|[-> ->]].
    + left. by exists i, r, p.
    + right. split; [done|]. by exists p.
  - intros [(i & r & p & Hi & Hok & Hp & Hin)|(Hok & p & Hp & Hin)].
    + exists i, r, p. split; [by apply lookup_app_l_Some|done].
    + exists (length results), result, p.
      split; [by apply list_lookup_middle|done].
Qed.

(** The loop computes the entity-wise description, and its flag records
    whether a success was applied. *)
Lemma reconcile_reconciled (results : list GeneratedImage.t)
    (prev : list ImageInfo.t) :
  NoDup (ImageInfo.id <$> prev) →
  freshResults placeholderIds results →
  fst (reconcile placeholderIds parentPrompt results prev)
  = reconciled placeholderIds parentPrompt results prev
  ∧ (snd (reconcile placeholderIds parentPrompt results prev) = true
     ↔ appliedSuccess placeholderIds results prev).
Proof.
  intros Hprev. unfold reconcile, forEach, reconciled.
  induction results as [|result results IH] using rev_ind; intros Hwf.
  - simpl. split.
    + symmetry. apply omap_Some_id. intros img _. unfold slotOutcome.
      by destruct (placeholderIndexOf placeholderIds img).
    + split; [done|]. intros (i & r & _ & Hi & _). by destruct i.
  - assert (Hwf' : freshResults placeholderIds results).
    { intros r Hr. apply Hwf, elem_of_app. by left. }
    destruct (IH Hwf') as [IHl IHu]. clear IH.
    rewrite forEach_from_snoc. simpl.
    destruct (forEach_from _ 0 results (prev, false)) as [l u] eqn:Hloop.
    simpl in IHl, IHu. subst l.
    destruct (placeholderIds !! length results) as [p|] eqn:Hp.
    + rewrite (reconcileResult_step result (length results) _ u p Hp); cycle 1.
      { etrans; [|by apply (NoDup_ids_at_most_one p prev)].
        apply omap_at_most_one. intros a b Hab Hb.
        assert (b = a) as <-; [|done].
        apply (slotOutcome_placeholder results a b Hwf' Hab).
        rewrite Hb. by eapply list_elem_of_lookup_2. }
      simpl. split.
      * rewrite omap_omap. apply omap_ext_elem. intros img _.
        by apply slotOutcome_step.
      * rewrite appliedSuccess_snoc, orb_true_iff, andb_true_iff,
          negb_true_iff, bool_decide_eq_true, IHu.
        assert (Hsame : p ∈ ImageInfo.id <$> omap (slotOutcome placeholderIds parentPrompt results) prev
                        ↔ p ∈ ImageInfo.id <$> prev).
        { rewrite !list_elem_of_fmap. split.
          - intros (b & -> & Hb). apply list_elem_of_omap in Hb as (a & Ha & Hab).
            exists a. split; [|done].
            assert (b = a) as <-; [|done].
            apply (slotOutcome_placeholder results a b Hwf' Hab).
            by eapply list_elem_of_lookup_2.
          - intros (a & -> & Ha). exists a. split; [done|].
            apply list_elem_of_omap. exists a. split; [done|].
            unfold slotOutcome.
            rewrite (proj2 (placeholderIndexOf_Some a (length results)) Hp).
            simpl. by rewrite (lookup_ge_None_2 results). }
        rewrite Hsame. split.
        -- intros [?|[? ?]]; [by left|right]. split; [done|]. by exists p.
        -- intros [?|(? & p' & Hp' & ?)]; [by left|right]. split; [done|].
           by replace p with p' by congruence.
    + assert (reconcileResult placeholderIds parentPrompt result
                (length results)
                (omap (slotOutcome placeholderIds parentPrompt results) prev, u)
              = (omap (slotOutcome placeholderIds parentPrompt results) prev, u)) as ->.
      { unfold reconcileResult. by rewrite Hp. }
      simpl. split.
      * apply omap_ext_elem. intros img _. symmetry.
        by apply slotOutcome_out_of_range.
      * rewrite appliedSuccess_snoc, IHu. split; [by left|].
        intros [?|(_ & p & ? & _)]; [done|congruence].
Qed.

End reconciliation.

Lemma wellFormed_fresh (placeholderIds : list string)
    (results : list GeneratedImage.t) :
  wellFormed placeholderIds results → freshResults placeholderIds results.
Proof. intros Hwf result Hin Hok. by destruct (Hwf result Hin Hok). Qed.

(** ** The derived placeholder ids *)

Lemma string_app_inv_head (s a b : string) : s +:+ a = s +:+ b → a = b.
Proof.
  induction s as [|c s IH]; simpl; [done|]. intros [= H]. by apply IH.
Qed.

Lemma placeholderId_index (parentId : string) (i j : nat) (a b : N) :
  (i < 4)%nat → (j < 4)%nat →
  placeholderId parentId i a = placeholderId parentId j b → i = j.
Proof.
  intros Hi Hj Heq. unfold placeholderId in Heq.
  apply string_app_inv_head in Heq. simpl in Heq.
  injection Heq as Heq.
  destruct i as [|[|[|[|i]]]]; [| | |  |lia];
    destruct j as [|[|[|[|j]]]]; try lia; try done;
    vm_compute in Heq; discriminate.
Qed.

Lemma placeholderId_nonempty (parentId : string) (index : nat) (now : N) :
  placeholderId parentId index now ≠ "".
Proof. unfold placeholderId. by destruct parentId. Qed.

(** The ids captured by [handleGenerateVariations] are pairwise distinct
    and non-empty. *)
Lemma placeholderIds_derived (parentId parentPrompt : string)
    (parentPos : Position.t) (container : option Container.t) (now : nat → N) :
  let placeholderIds :=
    fst <$> placeholdersFor parentId parentPrompt parentPos container now in
  NoDup placeholderIds ∧ "" ∉ placeholderIds.
Proof.
  intros placeholderIds.
  assert (Hids : placeholderIds
                 = (λ index, placeholderId parentId index (now index)) <$> seq 0 4)
    by reflexivity.
  rewrite Hids. split.
  - apply NoDup_fmap_2_strong; [|apply NoDup_seq].
    intros i j Hi Hj. apply elem_of_seq in Hi, Hj.
    apply placeholderId_index; lia.
  - intros Hin. apply list_elem_of_fmap in Hin as (index & Heq & _).
    symmetry in Heq. by apply placeholderId_nonempty in Heq.
Qed.

(** ** Reconciliation of a fan-out *)

Lemma same_id_same_image (a b : ImageInfo.t) (l : list ImageInfo.t) :
  NoDup (ImageInfo.id <$> l) → a ∈ l → b ∈ l →
  ImageInfo.id a = ImageInfo.id b → a = b.
Proof.
  intros Hnodup Ha Hb Heq.
  apply list_elem_of_lookup in Ha as [i Hi]. apply list_elem_of_lookup in Hb as [j Hj].
  assert (i = j) as ->.
  { apply (NoDup_lookup (ImageInfo.id <$> l) i j (ImageInfo.id a) Hnodup).
    - by rewrite list_lookup_fmap, Hi.
    - by rewrite list_lookup_fmap, Hj, Heq. }
  congruence.
Qed.

(** When every placeholder has its result, the entity-wise description
    holds no entity with a placeholder id. *)
Lemma reconciled_no_placeholder (placeholderIds : list string)
    (parentPrompt : string) (results : list GeneratedImage.t)
    (prev : list ImageInfo.t) (img : ImageInfo.t) :
  NoDup placeholderIds →
  freshResults placeholderIds results →
  (length placeholderIds ≤ length results)%nat →
  img ∈ reconciled placeholderIds parentPrompt results prev →
  ImageInfo.id img ∉ placeholderIds.
Proof.
  intros Hdistinct Hfresh Hlen Hrec Hpid.
  apply list_elem_of_omap in Hrec as (a & Ha & Hslot).
  assert (img = a) as -> by (by eapply slotOutcome_placeholder).
  unfold slotOutcome in Hslot.
  apply list_elem_of_lookup in Hpid as [j Hj].
  rewrite (proj2 (placeholderIndexOf_Some placeholderIds Hdistinct a j) Hj)
    in Hslot.
  simpl in Hslot.
  destruct (results !! j) as [result|] eqn:Hresult; cycle 1.
  { apply lookup_ge_None in Hresult. apply lookup_lt_Some in Hj. lia. }
  destruct (variantFailed result) eqn:Hfailed; [done|].
  injection Hslot as Hslot.
  apply (Hfresh result); [by eapply list_elem_of_lookup_2|done|].
  apply (f_equal ImageInfo.id) in Hslot. simpl in Hslot.
  rewrite Hslot. by eapply list_elem_of_lookup_2.
Qed.

Lemma stripPlaceholders_none (placeholderIds : list string)
    (l : list ImageInfo.t) :
  (∀ img, img ∈ l → ImageInfo.id img ∉ placeholderIds) →
  stripPlaceholders placeholderIds l = l.
Proof.
  intros Hnone. unfold stripPlaceholders.
  induction l as [|a l IH]; [done|].
  rewrite filter_cons, decide_True by (apply Hnone; left).
  rewrite IH; [done|]. intros img Himg. apply Hnone. by right.
Qed.


Example exampleFanOut_task :
  snd (handleGenerateVariations_begin "e1" "a red fox" (λ _, 1700000000000%N)
         exampleState)
  = Some (VariationsTask examplePlaceholderIds "a red fox").
Proof. vm_compute. reflexivity. Qed.

Example exampleResults_value :
  exampleResults
  = [ GeneratedImage.mk "v0" (Some "https://v3.fal.media/files/v0.png")
        (Some "a red fox in snow") None;
      GeneratedImage.mk "" None (Some "a red fox at dusk") (Some "quota exceeded");
      GeneratedImage.mk "v2" (Some "https://v3.fal.media/files/v2.png")
        (Some "a fox, watercolor") None;
      GeneratedImage.mk "" None (Some "a fox, pixel art") (Some "quota exceeded") ].
Proof. vm_compute. reflexivity. Qed.



(** For a successful result that carries no prompt the code stores a
    prompt derived from the parent's. *)
Example reconcile_without_prompt :
  fst (reconcile examplePlaceholderIds "a red fox"
         [GeneratedImage.mk "v0" (Some "https://v3.fal.media/files/v0.png") None None]
         (take 2 (images exampleFanOut)))
  = [ exampleImage;
      ImageInfo.mk "v0" "https://v3.fal.media/files/v0.png" "Variant of: a red fox"
        (Position.mk 100 0) (Some "e1") (Some false) (Some false) ].
Proof. vm_compute. reflexivity. Qed.

(** * Further properties of the code *)

(** ** Clamping to the container *)

Lemma Qmin_le_left (a b : Q) : (a <= b)%Q → Qmin a b = a.
Proof.
  intros Hle. unfold Qmin, GenericMinMax.gmin.
  pose proof (proj1 (Qle_alt a b) Hle) as Hcmp.
  destruct (a ?= b)%Q; congruence.
Qed.

Lemma clamp_coordinate_idempotent (v : Q) (hi : Z) :
  (0 <= hi)%Z →
  Qmax 0 (Qmin (Qmax 0 (Qmin v (inject_Z hi))) (inject_Z hi))
  = Qmax 0 (Qmin v (inject_Z hi)).
Proof.
  intros Hhi.
  destruct (clamp_between v hi Hhi) as [_ Hupper].
  rewrite (Qmin_le_left _ _ Hupper).
  set (u := Qmin v (inject_Z hi)).
  unfold Qmax, GenericMinMax.gmax.
  destruct (0 ?= u)%Q eqn:Hcmp; try reflexivity.
  by rewrite Hcmp.
Qed.

Lemma clamp_coordinate_fixed (v : Q) (hi : Z) :
  (0 <= v <= inject_Z hi)%Q →
  (Qmax 0 (Qmin v (inject_Z hi)) == v)%Q.
Proof.
  intros [Hlo Hhi]. rewrite Q.min_l by done. by rewrite Q.max_r.
Qed.

(** X1.  [clampPositionToBounds]: with a container, the result lies in
    [[0, maxX] x [0, maxY]], clamping again changes nothing, and a
    position that already lies in that rectangle keeps its coordinates;
    without a container the position is returned as it is. *)
Theorem clamp_position_bounds (position : Position.t)
    (container : Container.t) (itemSize : Z) :
  let maxX := Z.max 0 (Container.offsetWidth container - itemSize) in
  let maxY :=
    Z.max 0 (Z.max (Container.offsetHeight container)
                   (Container.scrollHeight container) - itemSize) in
  let clamped := clampPositionToBounds position (Some container) itemSize in
  ((0 <= Position.x clamped <= inject_Z maxX)%Q
   ∧ (0 <= Position.y clamped <= inject_Z maxY)%Q)
  ∧ clampPositionToBounds clamped (Some container) itemSize = clamped
  ∧ ((0 <= Position.x position <= inject_Z maxX)%Q →
     (0 <= Position.y position <= inject_Z maxY)%Q →
     (Position.x clamped == Position.x position)%Q
     ∧ (Position.y clamped == Position.y position)%Q)
  ∧ clampPositionToBounds position None itemSize = position.
Proof.
  intros maxX maxY clamped. split; [apply clampPositionToBounds_within|].
  split; [|split; [|done]].
  - subst clamped. unfold clampPositionToBounds. cbn [Position.x Position.y].
    f_equal; apply clamp_coordinate_idempotent; lia.
  - intros Hx Hy. subst clamped. unfold clampPositionToBounds.
    cbn [Position.x Position.y].
    split; by apply clamp_coordinate_fixed.
Qed.

(** ** Deleting *)

(** X2.  [handleDeleteImage]: exactly the entities with the given id leave the
    collection, the others stay in their order; the selection is cleared
    when it was the deleted id and is otherwise kept; the prompt input is
    not touched, and unique ids stay unique. *)
Theorem delete_image (id : string) (st : State) :
  let st' := handleDeleteImage id st in
  (∀ img, img ∈ images st' ↔ img ∈ images st ∧ ImageInfo.id img ≠ id)
  ∧ (images st' `sublist_of` images st)
  ∧ (id ∉ ImageInfo.id <$> images st')
  ∧ (selectedImageId st = Some id → selectedImageId st' = None)
  ∧ (selectedImageId st ≠ Some id → selectedImageId st' = selectedImageId st)
  ∧ prompt st' = prompt st
  ∧ debouncedPrompt st' = debouncedPrompt st
  ∧ error st' = error st
  ∧ (NoDup (ImageInfo.id <$> images st) → NoDup (ImageInfo.id <$> images st')).
Proof.
  intros st'. subst st'. unfold handleDeleteImage.
  assert (Himages :
    images (if decide (selectedImageId st = Some id)
            then setSelectedImageId None
                   (setImages (λ prev, filter (λ img, ImageInfo.id img ≠ id) prev) st)
            else setImages (λ prev, filter (λ img, ImageInfo.id img ≠ id) prev) st)
    = filter (λ img, ImageInfo.id img ≠ id) (images st))
    by (by destruct (decide _)).
  rewrite Himages.
  split; [intros img; rewrite list_elem_of_filter; tauto|].
  split; [apply sublist_filter|].
  split.
  { intros Hin. apply list_elem_of_fmap in Hin as (img & -> & Himg).
    apply list_elem_of_filter in Himg as [Hne _]. done. }
  split; [intros Hsel; by rewrite decide_True|].
  split; [intros Hsel; by rewrite decide_False|].
  split; [by destruct (decide _)|].
  split; [by destruct (decide _)|].
  split; [by destruct (decide _)|].
  intros Hnodup. eapply sublist_NoDup; [exact Hnodup|].
  apply fmap_sublist, sublist_filter.
Qed.

(** ** Selecting *)

Lemma regenerationEffect_same_prompt (st : State) (selected : string) :
  selectedImageId st = Some selected →
  (∀ img, findImage selected (images st) = Some img →
          ImageInfo.prompt img = debouncedPrompt st) →
  snd (regenerationEffect st) = None.
Proof.
  intros Hsel Hsame. unfold regenerationEffect. rewrite Hsel.
  destruct (_ && _ && _); [|done].
  destruct (findImage selected (images st)) as [img|] eqn:Hfind; [|done].
  by rewrite decide_False by (rewrite (Hsame img eq_refl); tauto).
Qed.

(** X3.  [handleSelectImage]: while a regeneration is pending the click is
    ignored.  Otherwise the clicked id becomes the selection and both the
    prompt input and the debounced prompt become the prompt stored in that
    entity (the empty string when no entity has the id), the collection
    being untouched.  In either case the regeneration effect that runs
    next starts nothing. *)
Theorem select_image (id : string) (st : State) :
  let st' := handleSelectImage id st in
  (isRegeneratingRef st = true → st' = st)
  ∧ (isRegeneratingRef st = false →
       selectedImageId st' = Some id
       ∧ images st' = images st
       ∧ error st' = error st
       ∧ (∀ img, findImage id (images st) = Some img →
            prompt st' = ImageInfo.prompt img
            ∧ debouncedPrompt st' = ImageInfo.prompt img)
       ∧ (id ∉ ImageInfo.id <$> images st →
            prompt st' = "" ∧ debouncedPrompt st' = ""))
  ∧ snd (regenerationEffect st') = None.
Proof.
  intros st'. subst st'. unfold handleSelectImage.
  destruct (isRegeneratingRef st) eqn:Hlatch.
  - split; [done|]. split; [done|].
    unfold regenerationEffect. rewrite Hlatch.
    destruct (selectedImageId st); [|done]. by rewrite andb_false_r.
  - split; [done|]. split.
    + intros _. do 3 (split; [done|]). split.
      * intros img Hfind. simpl. by rewrite Hfind.
      * intros Hmissing. apply findImage_None in Hmissing. simpl.
        by rewrite Hmissing.
    + apply (regenerationEffect_same_prompt _ id); [done|].
      simpl. intros img Hfind. by rewrite Hfind.
Qed.

(** X4.  [handleContainerClick]: the selection is cleared and the prompt input
    and the debounced prompt are emptied; the collection is untouched and
    the regeneration effect starts nothing. *)
Theorem deselect (st : State) :
  let st' := handleContainerClick st in
  selectedImageId st' = None
  ∧ prompt st' = ""
  ∧ debouncedPrompt st' = ""
  ∧ images st' = images st
  ∧ regenerationEffect st' = (st', None).
Proof. repeat split. Qed.

(** ** Mounting *)

Lemma Qdiv_2 (q : Q) : (q / 2 == q * (1 # 2))%Q.
Proof. unfold Qdiv. change (/ 2)%Q with (1 # 2)%Q. apply Qeq_refl. Qed.

Lemma half_within (w : Z) :
  (0 <= Qmax 0 (inject_Z w / 2) <= inject_Z (Z.max 0 w))%Q.
Proof.
  split; [apply Q.le_max_l|].
  assert (Hcases : (w <= 0 ∨ 0 <= w)%Z) by lia.
  destruct Hcases as [Hneg|Hpos].
  - rewrite Z.max_l by done.
    apply Q.max_lub; [apply Qle_refl|].
    assert (inject_Z w <= inject_Z 0)%Q by (by rewrite <- Zle_Qle).
    change (inject_Z 0) with 0%Q in *.
    rewrite Qdiv_2. set (q := inject_Z w) in *. clearbody q. lra.
  - rewrite Z.max_r by done.
    assert (inject_Z 0 <= inject_Z w)%Q by (by rewrite <- Zle_Qle).
    change (inject_Z 0) with 0%Q in *.
    rewrite Qdiv_2. set (q := inject_Z w) in *. clearbody q.
    apply Q.max_lub; lra.
Qed.

(** The tile placed at [max 0 ((w - 150) / 2)] has its centre at the
    centre of a container at least as wide as the tile. *)
Lemma centre_coordinate (w : Z) :
  (IMAGE_SIZE ≤ w)%Z →
  (Qmax 0 (inject_Z (w - IMAGE_SIZE) / 2) + inject_Z IMAGE_SIZE / 2
   == inject_Z w / 2)%Q.
Proof.
  intros Hw. rewrite !Qdiv_2.
  assert (Hpos : (0 <= inject_Z (w - IMAGE_SIZE) * (1 # 2))%Q).
  { apply Qmult_le_0_compat; [|done].
    change 0%Q with (inject_Z 0). rewrite <- Zle_Qle. lia. }
  rewrite (Q.max_r _ _ Hpos). unfold Zminus. rewrite inject_Z_plus, inject_Z_opp.
  ring.
Qed.

(** X5.  The mount effect.  Without a container, or on a non-empty canvas,
    it does nothing; in particular running it again after it created the
    placeholder does nothing, so the placeholder is never duplicated.  On
    an empty canvas with a container it creates exactly one entity, the
    initial placeholder: not loading, without content, at
    [max 0 ((width - 150) / 2)], [max 0 ((height - 150) / 2)], which puts
    its centre at the centre of a container that is at least as large as
    the tile and keeps it inside the container; it is selected, with the
    prompt input emptied. *)
Theorem mount_creates_one_placeholder (st : State) :
  let st' := mountEffect st in
  (containerRef st = None → st' = st)
  ∧ (images st ≠ [] → st' = st)
  ∧ (∀ container,
       containerRef st = Some container → images st = [] →
       ∃ placeholder,
         images st' = [placeholder]
         ∧ ImageInfo.id placeholder = INITIAL_PLACEHOLDER_ID
         ∧ ImageInfo.src placeholder = ""
         ∧ ImageInfo.prompt placeholder = ""
         ∧ ImageInfo.parentId placeholder = None
         ∧ ImageInfo.isPlaceholder placeholder = Some true
         ∧ ImageInfo.isLoading placeholder = Some false
         ∧ Position.x (ImageInfo.position placeholder)
           = Qmax 0 (inject_Z (Container.offsetWidth container - IMAGE_SIZE) / 2)
         ∧ Position.y (ImageInfo.position placeholder)
           = Qmax 0 (inject_Z (Container.offsetHeight container - IMAGE_SIZE) / 2)
         ∧ ((IMAGE_SIZE ≤ Container.offsetWidth container)%Z →
            (Position.x (ImageInfo.position placeholder) + inject_Z IMAGE_SIZE / 2
             == inject_Z (Container.offsetWidth container) / 2)%Q)
         ∧ ((IMAGE_SIZE ≤ Container.offsetHeight container)%Z →
            (Position.y (ImageInfo.position placeholder) + inject_Z IMAGE_SIZE / 2
             == inject_Z (Container.offsetHeight container) / 2)%Q)
         ∧ (0 <= Position.x (ImageInfo.position placeholder)
            <= inject_Z (Z.max 0 (Container.offsetWidth container - IMAGE_SIZE)))%Q
         ∧ (0 <= Position.y (ImageInfo.position placeholder)
            <= inject_Z (Z.max 0 (Container.offsetHeight container - IMAGE_SIZE)))%Q
         ∧ selectedImageId st' = Some INITIAL_PLACEHOLDER_ID
         ∧ prompt st' = ""
         ∧ debouncedPrompt st' = ""
         ∧ error st' = error st
         ∧ containerRef st' = containerRef st
         ∧ snd (regenerationEffect st') = None)
  ∧ mountEffect st' = st'.
Proof.
  intros st'.
  destruct (containerRef st) as [container|] eqn:Hc; cycle 1.
  { assert (Hmount : st' = st) by (subst st'; unfold mountEffect; by rewrite Hc).
    rewrite Hmount. split; [done|]. split; [done|]. split; [done|].
    unfold mountEffect. by rewrite Hc. }
  destruct (images st) as [|img l] eqn:Himages.
  - assert (Hmount : ∃ placeholder,
              st' = setSelectedImageId (Some INITIAL_PLACEHOLDER_ID)
                      (setImages (λ _, [placeholder])
                         (setPromptAndResetDebounce "" st))
              ∧ placeholder
                = ImageInfo.mk INITIAL_PLACEHOLDER_ID "" ""
                    (Position.mk
                       (Qmax 0 (inject_Z (Container.offsetWidth container
                                          - IMAGE_SIZE) / 2))
                       (Qmax 0 (inject_Z (Container.offsetHeight container
                                          - IMAGE_SIZE) / 2)))
                    None (Some false) (Some true)).
    { eexists. split; [|reflexivity]. subst st'. unfold mountEffect.
      by rewrite Hc, Himages. }
    destruct Hmount as (placeholder & -> & ->).
    split; [done|]. split; [done|]. split.
    + intros ? [= <-] _. eexists. split; [reflexivity|].
      cbn [ImageInfo.id ImageInfo.src ImageInfo.prompt ImageInfo.isPlaceholder
           ImageInfo.isLoading ImageInfo.parentId ImageInfo.position
           Position.x Position.y].
      do 8 (split; [reflexivity|]).
      split; [apply centre_coordinate|]. split; [apply centre_coordinate|].
      split; [apply half_within|]. split; [apply half_within|].
      repeat split; done.
    + unfold mountEffect. simpl. by rewrite Hc.
  - assert (Hmount : st' = st).
    { subst st'. unfold mountEffect. by rewrite Hc, Himages. }
    rewrite Hmount. split; [done|]. split; [done|]. split; [done|].
    unfold mountEffect. by rewrite Hc, Himages.
Qed.

Lemma mount_creates_one_placeholder_witness :
  images (mountEffect (initialState (Some exampleContainer)))
  = [ ImageInfo.mk "initial-placeholder" "" "" (Position.mk (850 # 2) (650 # 2))
        None (Some false) (Some true) ]
  ∧ mountEffect (mountEffect (initialState (Some exampleContainer)))
    = mountEffect (initialState (Some exampleContainer)).
Proof.
  destruct (mount_creates_one_placeholder (initialState (Some exampleContainer)))
    as (_ & _ & _ & Hagain).
  split; [reflexivity|exact Hagain].
Defined.

(** ** Placing a saved image *)

Lemma filter_other_then_same (id : string) (l : list ImageInfo.t) :
  filter (λ img, ImageInfo.id img = id)
    (filter (λ img, ImageInfo.id img ≠ id) l) = [].
Proof.
  induction l as [|a l IH]; [done|].
  rewrite (filter_cons (λ img, ImageInfo.id img ≠ id)).
  destruct (decide (ImageInfo.id a ≠ id)) as [Hne|Heq]; [|done].
  by rewrite filter_cons, decide_False.
Qed.

(** X6.  [handleSelectSavedImage]: without a container only the dropdown is
    closed.  With one, the entities that carry the saved image's id are
    dropped and one entity with that id, src and prompt is appended, so
    exactly one entity has the id afterwards and unique ids stay unique;
    it is placed at [max 0 ((width - 150) / 2)],
    [max 0 ((height - 150) / 2)], which puts its centre at the centre of a
    container that is at least as large as the tile and keeps it inside
    the container; it is selected, its prompt is loaded into the prompt
    input and the debounced prompt, the dropdown is closed, and the
    regeneration effect starts nothing. *)
Theorem place_saved_image (info : ImageInfo.t) (st : State) :
  let st' := handleSelectSavedImage info st in
  (containerRef st = None →
     images st' = images st
     ∧ selectedImageId st' = selectedImageId st
     ∧ prompt st' = prompt st
     ∧ isImageDropdownOpen st' = false)
  ∧ (∀ container, containerRef st = Some container →
       ∃ placed,
         images st'
         = filter (λ img, ImageInfo.id img ≠ ImageInfo.id info) (images st)
           ++ [placed]
         ∧ ImageInfo.id placed = ImageInfo.id info
         ∧ ImageInfo.src placed = ImageInfo.src info
         ∧ ImageInfo.prompt placed = ImageInfo.prompt info
         ∧ ImageInfo.parentId placed = None
         ∧ ImageInfo.isLoading placed = Some false
         ∧ ImageInfo.isPlaceholder placed = Some false
         ∧ Position.x (ImageInfo.position placed)
           = Qmax 0 (inject_Z (Container.offsetWidth container - IMAGE_SIZE) / 2)
         ∧ Position.y (ImageInfo.position placed)
           = Qmax 0 (inject_Z (Container.offsetHeight container - IMAGE_SIZE) / 2)
         ∧ ((IMAGE_SIZE ≤ Container.offsetWidth container)%Z →
            (Position.x (ImageInfo.position placed) + inject_Z IMAGE_SIZE / 2
             == inject_Z (Container.offsetWidth container) / 2)%Q)
         ∧ ((IMAGE_SIZE ≤ Container.offsetHeight container)%Z →
            (Position.y (ImageInfo.position placed) + inject_Z IMAGE_SIZE / 2
             == inject_Z (Container.offsetHeight container) / 2)%Q)
         ∧ (0 <= Position.x (ImageInfo.position placed)
            <= inject_Z (Z.max 0 (Container.offsetWidth container - IMAGE_SIZE)))%Q
         ∧ (0 <= Position.y (ImageInfo.position placed)
            <= inject_Z (Z.max 0 (Container.offsetHeight container - IMAGE_SIZE)))%Q
         ∧ filter (λ img, ImageInfo.id img = ImageInfo.id info) (images st')
           = [placed]
         ∧ selectedImageId st' = Some (ImageInfo.id info)
         ∧ prompt st' = ImageInfo.prompt info
         ∧ debouncedPrompt st' = ImageInfo.prompt info
         ∧ isImageDropdownOpen st' = false
         ∧ (NoDup (ImageInfo.id <$> images st) →
            NoDup (ImageInfo.id <$> images st'))
         ∧ snd (regenerationEffect st') = None).
Proof.
  intros st'. subst st'. unfold handleSelectSavedImage. split.
  - intros ->. done.
  - intros container ->. eexists. split; [reflexivity|].
    cbn [ImageInfo.id ImageInfo.src ImageInfo.prompt ImageInfo.isPlaceholder
         ImageInfo.isLoading ImageInfo.parentId ImageInfo.position
         Position.x Position.y].
    do 8 (split; [reflexivity|]).
    split; [apply centre_coordinate|]. split; [apply centre_coordinate|].
    split; [apply half_within|]. split; [apply half_within|].
    cbn [images selectedImageId prompt debouncedPrompt isImageDropdownOpen
         setIsImageDropdownOpen setSelectedImageId setImages
         setPromptAndResetDebounce resetDebouncedPrompt setPrompt].
    set (kept := filter (λ img, ImageInfo.id img ≠ ImageInfo.id info) (images st)).
    set (placed := ImageInfo.mk _ _ _ _ _ _ _).
    assert (Hplaced : ImageInfo.id placed = ImageInfo.id info) by reflexivity.
    assert (Hsame : filter (λ img, ImageInfo.id img = ImageInfo.id info)
                      (kept ++ [placed]) = [placed]).
    { rewrite filter_app. subst kept. rewrite filter_other_then_same.
      by rewrite filter_cons, decide_True. }
    split; [exact Hsame|]. do 4 (split; [reflexivity|]). split.
    + intros Hnodup. rewrite fmap_app. apply NoDup_app. split; [|split].
      * eapply sublist_NoDup; [exact Hnodup|].
        apply fmap_sublist, sublist_filter.
      * intros x Hx Hx'. apply list_elem_of_singleton in Hx'. subst x.
        apply list_elem_of_fmap in Hx as (img & Heq & Himg).
        apply list_elem_of_filter in Himg as [Hne _]. by rewrite Hplaced in Heq.
      * apply NoDup_singleton.
    + apply (regenerationEffect_same_prompt _ (ImageInfo.id info)); [done|].
      cbn [images debouncedPrompt setIsImageDropdownOpen setSelectedImageId
           setImages setPromptAndResetDebounce resetDebouncedPrompt setPrompt].
      fold kept. fold placed. intros img Hfind.
      apply findImage_Some in Hfind as [Hin Hid].
      assert (Hin' : img ∈ filter (λ img, ImageInfo.id img = ImageInfo.id info)
                           (kept ++ [placed]))
        by (by apply list_elem_of_filter).
      rewrite Hsame in Hin'. apply list_elem_of_singleton in Hin'. by subst img.
Qed.

Lemma place_saved_image_witness :
  let info :=
    ImageInfo.mk "e1" "https://signed.example/e1.png" "a red fox, saved"
      (Position.mk 0 0) None None None in
  let st' := handleSelectSavedImage info exampleFanOut in
  filter (λ img, ImageInfo.id img = "e1") (images st')
  = [ ImageInfo.mk "e1" "https://signed.example/e1.png" "a red fox, saved"
        (Position.mk (850 # 2) (650 # 2)) None (Some false) (Some false) ]
  ∧ length (images st') = 5%nat.
Proof.
  intros info st'.
  destruct (proj2 (place_saved_image info exampleFanOut) exampleContainer eq_refl)
    as (placed & Himages & _ & _ & _ & _ & _ & _ & _ & _ & _ & _ & _ & _
        & Hsame & _).
  fold st' in Himages, Hsame. split.
  - refine (eq_trans Hsame _). f_equal.
    assert (Hlast : last (images st') = Some placed)
      by (rewrite Himages; apply last_snoc).
    vm_compute in Hlast. by injection Hlast.
  - vm_compute. reflexivity.
Defined.

(** ** Starting a fan-out *)

(** X7.  [handleGenerateVariations] before its [await].  When no entity has the
    parent id, an error is surfaced, nothing is awaited and the collection
    is untouched.  Otherwise four placeholders are appended after the
    existing entities, before anything is awaited: each is loading, a
    placeholder, without src, with the parent id as parentId, and sits
    inside the container; their ids are non-empty, pairwise distinct, and
    are, in order, the ids handed to the rest of the handler. *)
Theorem fan_out_inserts_four_placeholders
    (parentId parentPrompt : string) (now : nat → N) (st : State) :
  let begun := handleGenerateVariations_begin parentId parentPrompt now st in
  (parentId ∉ ImageInfo.id <$> images st →
     snd begun = None
     ∧ images (fst begun) = images st
     ∧ error (fst begun) = Some "Could not find the parent image.")
  ∧ (∀ parentImage, findImage parentId (images st) = Some parentImage →
       ∃ placeholders placeholderIds,
         snd begun = Some (VariationsTask placeholderIds parentPrompt)
         ∧ images (fst begun) = images st ++ placeholders
         ∧ length placeholders = 4%nat
         ∧ ImageInfo.id <$> placeholders = placeholderIds
         ∧ NoDup placeholderIds
         ∧ ("" ∉ placeholderIds)
         ∧ error (fst begun) = None
         ∧ selectedImageId (fst begun) = selectedImageId st
         ∧ ∀ placeholder, placeholder ∈ placeholders →
             ImageInfo.isLoading placeholder = Some true
             ∧ ImageInfo.isPlaceholder placeholder = Some true
             ∧ ImageInfo.src placeholder = ""
             ∧ ImageInfo.parentId placeholder = Some parentId
             ∧ ∀ container, containerRef st = Some container →
                 (0 <= Position.x (ImageInfo.position placeholder)
                  <= inject_Z (Z.max 0 (Container.offsetWidth container
                                        - IMAGE_SIZE)))%Q
                 ∧ (0 <= Position.y (ImageInfo.position placeholder)
                    <= inject_Z
                         (Z.max 0
                            (Z.max (Container.offsetHeight container)
                                   (Container.scrollHeight container)
                             - IMAGE_SIZE)))%Q).
Proof.
  intros begun. subst begun. unfold handleGenerateVariations_begin. split.
  - intros Hmissing. apply findImage_None in Hmissing. by rewrite Hmissing.
  - intros parentImage ->.
    destruct (placeholderIds_derived parentId parentPrompt
                (ImageInfo.position parentImage) (containerRef st) now)
      as [Hdistinct Hnonempty].
    eexists _, _. split; [reflexivity|]. split; [reflexivity|].
    split; [reflexivity|]. split; [reflexivity|].
    split; [exact Hdistinct|]. split; [exact Hnonempty|].
    split; [reflexivity|]. split; [reflexivity|].
    intros placeholder Hin.
    apply list_elem_of_fmap in Hin as ([pid img] & -> & Hin).
    unfold placeholdersFor in Hin.
    apply list_elem_of_lookup in Hin as [index Hindex].
    rewrite list_lookup_imap in Hindex.
    destruct (placeholderPositions _ !! index) as [pos|]; [|done].
    injection Hindex as <- <-. cbn [snd ImageInfo.isLoading
      ImageInfo.isPlaceholder ImageInfo.src ImageInfo.parentId ImageInfo.position].
    do 4 (split; [reflexivity|]).
    intros container ->. apply clampPositionToBounds_within.
Qed.

Lemma fan_out_inserts_four_placeholders_witness :
  ∃ placeholders,
    images exampleFanOut = [exampleImage] ++ placeholders
    ∧ ImageInfo.id <$> placeholders = examplePlaceholderIds
    ∧ ImageInfo.position <$> placeholders
      = [ Position.mk 100 0; Position.mk 100 270;
          Position.mk 0 100; Position.mk 270 100 ].
Proof.
  destruct (proj2 (fan_out_inserts_four_placeholders "e1" "a red fox"
                     (λ _, 1700000000000%N) exampleState) exampleImage eq_refl)
    as (placeholders & placeholderIds & _ & Himages & _).
  exists placeholders. split; [exact Himages|].
  apply app_inv_head in Himages. subst placeholders. split; reflexivity.
Defined.

(** ** A fan-out that does not come back, or comes back too late *)

Lemma reconcileResult_absent (placeholderIds : list string) (parentPrompt : string)
    (result : GeneratedImage.t) (index : nat) (l : list ImageInfo.t) (u : bool) :
  (∀ p, p ∈ placeholderIds → p ∉ ImageInfo.id <$> l) →
  reconcileResult placeholderIds parentPrompt result index (l, u) = (l, u).
Proof.
  intros Habsent. unfold reconcileResult.
  destruct (placeholderIds !! index) as [p|] eqn:Hp; [|done].
  destruct (negb (truthy p)); [done|].
  destruct (list_find _ l) as [[k img]|] eqn:Hfind; [|done].
  apply list_find_Some in Hfind as (Hk & Hid & _). exfalso.
  apply (Habsent p); [by eapply list_elem_of_lookup_2|].
  rewrite <- Hid. apply list_elem_of_fmap_2. by eapply list_elem_of_lookup_2.
Qed.

Lemma reconcile_absent (placeholderIds : list string) (parentPrompt : string)
    (results : list GeneratedImage.t) (l : list ImageInfo.t) :
  (∀ p, p ∈ placeholderIds → p ∉ ImageInfo.id <$> l) →
  reconcile placeholderIds parentPrompt results l = (l, false).
Proof.
  intros Habsent. unfold reconcile, forEach. generalize 0%nat.
  induction results as [|r results IH]; intros index; [done|].
  cbn [forEach_from]. by rewrite reconcileResult_absent.
Qed.

Lemma stripPlaceholders_absent (placeholderIds : list string)
    (l : list ImageInfo.t) :
  (∀ p, p ∈ placeholderIds → p ∉ ImageInfo.id <$> l) →
  stripPlaceholders placeholderIds l = l.
Proof.
  intros Habsent. unfold stripPlaceholders.
  induction l as [|a l IH]; [done|].
  rewrite filter_cons, decide_True.
  - rewrite IH; [done|]. intros p Hp Hin. apply (Habsent p Hp).
    rewrite fmap_cons. by right.
  - intros Hin. apply (Habsent _ Hin). rewrite fmap_cons. left.
Qed.

(** X8.  [handleGenerateVariations] after its [await], when no success can be
    applied.  If the call rejects, every entity with a placeholder id is
    removed, the other entities stay as they are and in order, and no
    error is surfaced.  If the call resolves after all placeholders have
    left the collection (the user deleted them meanwhile), the collection
    is left exactly as it is, whatever the results are. *)
Theorem fan_out_rejected_or_stale (placeholderIds : list string)
    (parentPrompt : string) (st : State) :
  (∀ e,
     let st' :=
       handleGenerateVariations_resume placeholderIds parentPrompt (Rejected e) st in
     (∀ img, img ∈ images st'
             ↔ img ∈ images st ∧ ImageInfo.id img ∉ placeholderIds)
     ∧ (images st' `sublist_of` images st)
     ∧ error st' = error st
     ∧ errorLog st' = errorLog st
     ∧ selectedImageId st' = selectedImageId st)
  ∧ ((∀ p, p ∈ placeholderIds → p ∉ ImageInfo.id <$> images st) →
     ∀ results,
       images (handleGenerateVariations_resume placeholderIds parentPrompt
                 (Resolved results) st)
       = images st).
Proof.
  split.
  - intros e st'. subst st'. simpl.
    split; [intros img; apply stripPlaceholders_spec|].
    split; [apply sublist_filter|done].
  - intros Habsent results. unfold handleGenerateVariations_resume.
    destruct (generationFailed _ _); simpl;
      rewrite (reconcile_absent _ _ _ _ Habsent); simpl; [|done].
    by apply stripPlaceholders_absent.
Qed.

Lemma fan_out_rejected_or_stale_witness :
  images (handleGenerateVariations_resume examplePlaceholderIds "a red fox"
            (Resolved exampleResults) exampleState)
  = [exampleImage].
Proof.
  apply (proj2 (fan_out_rejected_or_stale examplePlaceholderIds "a red fox"
                  exampleState)).
  intros p Hp. apply (bool_decide_unpack _).
  repeat (apply elem_of_cons in Hp as [->|Hp]; [by vm_compute|]).
  by apply elem_of_nil in Hp.
Defined.

(** ** The aggregate error of a fan-out *)



(** ** No placeholder is left behind *)

(** X9.  When the fan-out resolves with at least as many results as there are
    placeholders, no entity with a placeholder id remains in the
    collection: every slot was either promoted to a real entity or
    removed. *)
Theorem fan_out_leaves_no_placeholder
    (placeholderIds : list string) (parentPrompt : string)
    (results : list GeneratedImage.t) (st : State) :
  NoDup placeholderIds →
  "" ∉ placeholderIds →
  NoDup (ImageInfo.id <$> images st) →
  wellFormed placeholderIds results →
  (length placeholderIds ≤ length results)%nat →
  ∀ img,
    img ∈ images (handleGenerateVariations_resume placeholderIds parentPrompt
                    (Resolved results) st) →
    ImageInfo.id img ∉ placeholderIds.
Proof.
  intros Hdistinct Hnonempty Hprev Hwf Hlen img Himg.
  apply wellFormed_fresh in Hwf.
  apply (reconciled_no_placeholder placeholderIds parentPrompt results
           (images st) img Hdistinct Hwf Hlen).
  destruct (reconcile_reconciled placeholderIds parentPrompt Hdistinct
              Hnonempty results (images st) Hprev Hwf) as [Hl _].
  unfold handleGenerateVariations_resume in Himg.
  destruct (generationFailed _ _); simpl in Himg; rewrite Hl in Himg;
    [|done].
  by apply stripPlaceholders_spec in Himg as [? _].
Qed.

Lemma fan_out_leaves_no_placeholder_witness :
  Forall (λ img, ImageInfo.id img ∉ examplePlaceholderIds)
    (images (handleGenerateVariations_resume examplePlaceholderIds "a red fox"
               (Resolved exampleResults) exampleFanOut)).
Proof.
  apply Forall_forall.
  apply (fan_out_leaves_no_placeholder examplePlaceholderIds "a red fox"
           exampleResults exampleFanOut).
  - apply (bool_decide_unpack _). vm_compute. exact I.
  - apply (bool_decide_unpack _). vm_compute. exact I.
  - apply (bool_decide_unpack _). vm_compute. exact I.
  - rewrite exampleResults_value. unfold wellFormed.
    apply (proj1 (Forall_forall (λ result, variantFailed result = false → _ ∧ _) _)).
    repeat (apply List.Forall_cons;
            [intros Hok;
             first [ vm_compute in Hok; discriminate
                   | split; [apply (bool_decide_unpack _); vm_compute; exact I
                            |reflexivity] ]|]).
    apply List.Forall_nil.
  - vm_compute. lia.
Defined.

(** With fewer results than placeholders and a success among them, the
    placeholders without a result stay in the collection, still loading. *)
Example fan_out_short_results :
  images (handleGenerateVariations_resume examplePlaceholderIds "a red fox"
            (Resolved (take 2 exampleResults)) exampleFanOut)
  = [ exampleImage;
      ImageInfo.mk "v0" "https://v3.fal.media/files/v0.png" "a red fox in snow"
        (Position.mk 100 0) (Some "e1") (Some false) (Some false);
      ImageInfo.mk "e1-placeholder-2-1700000000000" ""
        "Loading variation for: a red fox"
        (Position.mk 0 100) (Some "e1") (Some true) (Some true);
      ImageInfo.mk "e1-placeholder-3-1700000000000" ""
        "Loading variation for: a red fox"
        (Position.mk 270 100) (Some "e1") (Some true) (Some true) ].
Proof. vm_compute. reflexivity. Qed.

(** ** Regeneration: failure *)

(** X10.  A regeneration that fails, because the generation resolves without a
    usable url or because the call rejects, surfaces one error, releases
    the latch and leaves the selection alone; every entity keeps its id,
    src, prompt, position, parentId and placeholder flag, the entities
    with the target id end up not loading, and all other entities are
    exactly as they were before the regeneration started. *)
Theorem regeneration_failure_restores
    (imageId newPrompt : string) (settled : Outcome GeneratedImage.t)
    (st : State) :
  isRegeneratingRef st = false →
  (∀ result, settled = Resolved result →
             truthy_opt (GeneratedImage.imageUrl result) = false) →
  let st1 := fst (handleRegenerateSelectedImage_begin imageId newPrompt st) in
  let st2 := handleRegenerateSelectedImage_resume imageId newPrompt settled st1 in
  (∃ message, error st2 = Some message ∧ errorLog st2 = message :: errorLog st)
  ∧ isRegeneratingRef st2 = false
  ∧ selectedImageId st2 = selectedImageId st
  ∧ prompt st2 = prompt st
  ∧ length (images st2) = length (images st)
  ∧ ∀ i img, images st !! i = Some img →
      ∃ img', images st2 !! i = Some img'
        ∧ ImageInfo.id img' = ImageInfo.id img
        ∧ ImageInfo.src img' = ImageInfo.src img
        ∧ ImageInfo.prompt img' = ImageInfo.prompt img
        ∧ ImageInfo.position img' = ImageInfo.position img
        ∧ ImageInfo.parentId img' = ImageInfo.parentId img
        ∧ ImageInfo.isPlaceholder img' = ImageInfo.isPlaceholder img
        ∧ (ImageInfo.id img = imageId → ImageInfo.isLoading img' = Some false)
        ∧ (ImageInfo.id img ≠ imageId → img' = img).
Proof.
  intros Hidle Hfail st1 st2.
  assert (Hst1 : st1 = setImages
                   (λ prev, (λ img, if decide (ImageInfo.id img = imageId)
                                    then ImageInfo.with_isLoading true img
                                    else img) <$> prev)
                   (setError None (setIsRegenerating true st))).
  { subst st1. unfold handleRegenerateSelectedImage_begin. by rewrite Hidle. }
  assert (Hst2 : ∃ message,
            st2 = setIsRegenerating false
                    (setImages (clearLoading imageId)
                       (setError (Some message) st1))).
  { subst st2. unfold handleRegenerateSelectedImage_resume.
    destruct settled as [result|e].
    - rewrite (Hfail result eq_refl). by eexists.
    - by eexists. }
  destruct Hst2 as (message & Hst2). rewrite Hst2, Hst1. clear Hst1 Hst2.
  split; [by exists message|]. do 3 (split; [reflexivity|]).
  split; [simpl; unfold clearLoading; by rewrite !length_fmap|].
  intros i img Hi. simpl. unfold clearLoading.
  rewrite !list_lookup_fmap, Hi. simpl. eexists. split; [reflexivity|].
  destruct (decide (ImageInfo.id img = imageId)) as [Heq|Hne]; simpl.
  - rewrite decide_True by done. simpl. by repeat split.
  - rewrite decide_False by done. by repeat split.
Qed.

Lemma regeneration_failure_restores_witness :
  let settled :=
    FalService.generateImage (Resolved "e9") (Rejected (ErrorObject "Request timed out."))
      "a blue fox" IMAGE_SIZE in
  let st1 := fst (handleRegenerateSelectedImage_begin "e1" "a blue fox" exampleState) in
  let st2 := handleRegenerateSelectedImage_resume "e1" "a blue fox" settled st1 in
  images st2 = [exampleImage]
  ∧ error st2 = Some "An error occurred when generating images."
  ∧ isRegeneratingRef st2 = false.
Proof.
  intros settled st1 st2.
  destruct (regeneration_failure_restores "e1" "a blue fox" settled exampleState)
    as (_ & Hlatch & _).
  - reflexivity.
  - intros result [= <-]. reflexivity.
  - fold st1 st2 in Hlatch. split; [reflexivity|]. split; [reflexivity|exact Hlatch].
Defined.

(** ** The generation client: one result per variant *)

Lemma variantFailed_false (result : GeneratedImage.t) :
  variantFailed result = false
  ↔ truthy_opt (GeneratedImage.error result) = false
    ∧ GeneratedImage.id result ≠ ""
    ∧ ∃ url, GeneratedImage.imageUrl result = Some url ∧ url ≠ "".
Proof.
  unfold variantFailed.
  rewrite !orb_false_iff, !negb_false_iff, truthy_true, truthy_opt_true.
  tauto.
Qed.

(** X11.  When the augmentation did not fail, [generateImageVariations] returns
    exactly one result per variant prompt, in the order of the variants:
    the [i]-th result carries the [i]-th variant as its prompt, and it is
    a success for the canvas exactly when both external calls of the
    [i]-th generation came back with a non-empty id and a non-empty url,
    in which case it carries exactly that id and url and no error. *)
Theorem variations_one_result_per_variant
    (pv : PromptVariants.t) (uuids : nat → Outcome string)
    (fals : nat → Outcome (option string))
    (originalPrompt parentId : string) (imageSize : Z) :
  FalService.augmentationFailed pv = false →
  let results :=
    FalService.generateImageVariations pv uuids fals originalPrompt parentId
      imageSize in
  length results = length (PromptVariants.variants pv)
  ∧ ∀ i variantPrompt,
      PromptVariants.variants pv !! i = Some variantPrompt →
      ∃ result,
        results !! i = Some result
        ∧ GeneratedImage.promptUsed result = Some variantPrompt
        ∧ (variantFailed result = false
           ↔ ∃ uuid url,
               uuids i = Resolved uuid ∧ uuid ≠ ""
               ∧ fals i = Resolved (Some url) ∧ url ≠ ""
               ∧ result
                 = GeneratedImage.mk uuid (Some url) (Some variantPrompt) None).
Proof.
  intros Hok results. subst results.
  unfold FalService.generateImageVariations. rewrite Hok.
  split; [by rewrite length_imap|].
  intros i variantPrompt Hi. rewrite list_lookup_imap, Hi. simpl.
  eexists. split; [reflexivity|].
  unfold FalService.generateImage, FalService.caught.
  destruct (uuids i) as [uuid|e1], (fals i) as [[url|]|e2]; simpl;
    (split; [reflexivity|]); rewrite variantFailed_false; simpl; split.
  all: try (intros (uuid' & url' & ? & ? & ? & ? & ?); congruence).
  all: try (intros (? & ? & (? & ? & ?)); congruence).
  - intros (_ & Huuid & (url' & [= <-] & Hurl)). by exists uuid, url.
  - intros (uuid' & url' & [= <-] & Huuid & [= <-] & Hurl & _).
    split; [done|]. split; [done|]. by exists url.
Qed.

Lemma variations_one_result_per_variant_witness :
  length exampleResults = 4%nat
  ∧ GeneratedImage.promptUsed <$> exampleResults
    = Some <$> PromptVariants.variants exampleVariants.
Proof.
  destruct (variations_one_result_per_variant exampleVariants exampleUuids
              exampleFals "a red fox" "e1" IMAGE_SIZE eq_refl) as [Hlen _].
  split; [exact Hlen|]. vm_compute. reflexivity.
Defined.

(** ** The generation client: lineage records *)

Lemma omap_imap_Some {A B : Type} (f : nat → A → option B) (g : A → B)
    (l : list A) :
  (∀ i a, a ∈ l → f i a = Some (g a)) →
  omap id (imap f l) = g <$> l.
Proof.
  revert f. induction l as [|a l IH]; intros f Hf; [done|].
  rewrite imap_cons. csimpl. rewrite (Hf 0%nat a) by left. simpl.
  f_equal. apply IH. intros i b Hb. apply Hf. by right.
Qed.

Lemma omap_imap_None {A B : Type} (f : nat → A → option B) (l : list A) :
  (∀ i a, f i a = None) → omap id (imap f l) = [].
Proof.
  revert f. induction l as [|a l IH]; intros f Hf; [done|].
  rewrite imap_cons. csimpl. rewrite (Hf 0%nat a). simpl.
  apply IH. intros i b. apply Hf.
Qed.

(** X12.  The parent-to-variant rows that [generateImageVariations] sends to the
    relationship table.  With a database client and a non-empty parent id
    there is one row per result that has an id and no error, in order,
    whatever the inserts answer; in particular every result the canvas
    promotes to a real entity has its row.  Without a client, or with an
    empty parent id, no row is sent.  A row never has an empty source or
    target. *)
Theorem lineage_rows (supabase : bool) (inserted : nat → Outcome (option string))
    (parentId : string) (results : list GeneratedImage.t) :
  let rows := Relationships.logRelationships supabase inserted parentId results in
  let rowOf (variant : GeneratedImage.t) :=
    {| Relationships.source_image := parentId;
       Relationships.target_image := GeneratedImage.id variant;
       Relationships.relationship_type := RelationshipType.IS_PARENT |} in
  (supabase = true → parentId ≠ "" →
     rows = rowOf <$> FalService.successfulVariants results
     ∧ ∀ result, result ∈ results → variantFailed result = false →
         rowOf result ∈ rows)
  ∧ (supabase = false ∨ parentId = "" → rows = [])
  ∧ ∀ row, row ∈ rows →
      Relationships.source_image row = parentId
      ∧ Relationships.source_image row ≠ ""
      ∧ Relationships.target_image row ≠ ""
      ∧ Relationships.relationship_type row = RelationshipType.IS_PARENT.
Proof.
  intros rows rowOf.
  assert (Hsent : supabase = true → parentId ≠ "" →
                  rows = rowOf <$> FalService.successfulVariants results).
  { intros -> Hparent. subst rows. unfold Relationships.logRelationships.
    apply omap_imap_Some. intros i variant Hvariant.
    unfold FalService.successfulVariants in Hvariant.
    apply list_elem_of_filter in Hvariant as [[Hid _] _].
    unfold Relationships.StoreImageRelationshipDb. simpl.
    rewrite (proj2 (truthy_true parentId) Hparent), Hid. simpl.
    by destruct (inserted i) as [[?|]|?]. }
  assert (Hnone : supabase = false ∨ parentId = "" → rows = []).
  { intros Hoff. subst rows. unfold Relationships.logRelationships.
    apply omap_imap_None. intros i variant.
    unfold Relationships.StoreImageRelationshipDb.
    destruct Hoff as [-> | ->]; [done|]. by destruct supabase. }
  split; [|split; [exact Hnone|]].
  - intros Hon Hparent. split; [by apply Hsent|].
    intros result Hin Hok. rewrite (Hsent Hon Hparent).
    apply list_elem_of_fmap_2. unfold FalService.successfulVariants.
    apply list_elem_of_filter. split; [|done].
    apply variantFailed_false in Hok as (Herr & Hid & _).
    split; [by apply truthy_true|done].
  - intros row Hrow.
    destruct supabase; [|by rewrite Hnone in Hrow by (by left);
                           apply elem_of_nil in Hrow].
    destruct (decide (parentId = "")) as [Hempty|Hparent];
      [by rewrite Hnone in Hrow by (by right); apply elem_of_nil in Hrow|].
    rewrite (Hsent eq_refl Hparent) in Hrow.
    apply list_elem_of_fmap in Hrow as (variant & -> & Hvariant).
    unfold FalService.successfulVariants in Hvariant.
    apply list_elem_of_filter in Hvariant as [[Hid _] _].
    apply truthy_true in Hid. done.
Qed.

Lemma lineage_rows_witness :
  Relationships.logRelationships true (λ _, Resolved None) "e1" exampleResults
  = [ {| Relationships.source_image := "e1"; Relationships.target_image := "v0";
         Relationships.relationship_type := 1 |};
      {| Relationships.source_image := "e1"; Relationships.target_image := "v2";
         Relationships.relationship_type := 1 |} ].
Proof.
  destruct (proj1 (lineage_rows true (λ _, Resolved None) "e1" exampleResults)
              eq_refl ltac:(discriminate)) as [Hrows _].
  rewrite Hrows. vm_compute. reflexivity.
Defined.

(** A result with an id but without a url gets a lineage row although the
    canvas drops its placeholder. *)
Example lineage_row_without_entity :
  let result := GeneratedImage.mk "v0" None (Some "a red fox in snow") None in
  variantFailed result = true
  ∧ Relationships.logRelationships true (λ _, Resolved None) "e1" [result]
    = [ {| Relationships.source_image := "e1"; Relationships.target_image := "v0";
           Relationships.relationship_type := 1 |} ].
Proof. split; reflexivity. Qed.

(** ** Prompt augmentation *)

(** X13.  [getPromptVariants] followed by [generateImageVariations]: images are
    generated exactly when the model's answer parses to a non-empty array
    of variants.  In every other case (the request or the parsing throws,
    the answer has no array, the array is empty) the variants are empty
    and the client returns a single error result that carries the
    original prompt and a message starting with the fixed prefix. *)
Theorem augmentation_outcome (parsed : Outcome OpenaiService.Output)
    (uuids : nat → Outcome string) (fals : nat → Outcome (option string))
    (originalPrompt parentId : string) (imageSize : Z) :
  let pv := OpenaiService.getPromptVariants parsed in
  let results :=
    FalService.generateImageVariations pv uuids fals originalPrompt parentId
      imageSize in
  (FalService.augmentationFailed pv = false
   ↔ ∃ variants,
       parsed = Resolved (OpenaiService.VariantsArray variants) ∧ variants ≠ [])
  ∧ (FalService.augmentationFailed pv = true →
       PromptVariants.variants pv = []
       ∧ ∃ reason,
           reason ≠ ""
           ∧ results
             = [GeneratedImage.mk "" None (Some originalPrompt)
                  (Some ("Prompt Variation Generation failed: " +:+ reason))])
  ∧ (FalService.augmentationFailed pv = false →
       length results = length (PromptVariants.variants pv)).
Proof.
  intros pv results. subst pv results.
  unfold FalService.generateImageVariations.
  destruct parsed as [[|variants]|e]; simpl.
  - split; [|split; [|done]].
    + split; [done|]. by intros (? & ? & _).
    + intros _. split; [done|].
      by exists "Failed to extract prompt variants from OpenAI response.".
  - destruct variants as [|v variants]; simpl.
    + split; [|split; [|done]].
      * split; [done|]. by intros (? & [= <-] & ?).
      * intros _. split; [done|]. by exists "Failed to get prompt variants.".
    + split; [|split; [done|]].
      * split; [|done]. intros _. by eexists.
      * intros _. unfold FalService.augmentationFailed. simpl.
        by rewrite length_imap.
  - assert (Hfailed :
      FalService.augmentationFailed
        (PromptVariants.mk []
           (Some match e with
                 | ErrorObject m => m
                 | OtherValue => "An unknown error occurred during prompt augmentation."
                 end)) = true).
    { unfold FalService.augmentationFailed. simpl. by rewrite orb_true_r. }
    rewrite Hfailed. split; [|split; [|done]].
    + split; [done|]. by intros (? & ? & _).
    + intros _. split; [done|]. unfold or_else.
      destruct (truthy _) eqn:Hmsg; eexists; (split; [|reflexivity]);
        [by apply truthy_true|done].
Qed.

(** ** Saving to storage *)

(** X14.  [saveImageBlob] reports success exactly when the client exists, the
    download answered ok with a body, the body could be read, and neither
    the upload nor the update of the record reported an error or threw; in
    every other case the result carries an error message.  When reading
    the body throws, that message is the one of the [catch] clause. *)
Theorem save_succeeds_iff (w : SupabaseService.World) (id src : string) :
  let result := SupabaseService.saveImageBlob w id src in
  (SupabaseResult.error result = None
   ↔ SupabaseService.supabase w = true
     ∧ (∃ response,
          SupabaseService.fetched w = Resolved response
          ∧ SupabaseService.ok response = true
          ∧ SupabaseService.hasBody response = true)
     ∧ (∃ blobType, SupabaseService.blob w = Resolved blobType)
     ∧ SupabaseService.uploadError w = Resolved None
     ∧ SupabaseService.updateError w = Resolved None)
  ∧ (SupabaseResult.error result = None
     ∨ ∃ message, SupabaseResult.error result = Some message)
  ∧ (∀ response e,
       SupabaseService.supabase w = true →
       SupabaseService.fetched w = Resolved response →
       SupabaseService.ok response = true →
       SupabaseService.hasBody response = true →
       SupabaseService.blob w = Rejected e →
       result = SupabaseService.saveFailure e).
Proof.
  intros result. subst result. unfold SupabaseService.saveImageBlob.
  destruct w as [client fetched body upload update]. simpl.
  split; [|split].
  - destruct client; simpl; [|split; [done|by intros (? & _)]].
    destruct fetched as [[ok hasBody]|e]; simpl;
      [|split; [done|by intros (_ & (? & ? & _) & _)]].
    destruct ok, hasBody; simpl;
      try (split; [done|intros (_ & (r & [= <-] & ? & ?) & _); done]).
    destruct body as [blobType|e]; simpl;
      [|split; [done|by intros (_ & _ & (? & ?) & _)]].
    destruct upload as [[m|]|e]; simpl;
      try (split; [done|by intros (_ & _ & _ & ? & _)]).
    destruct update as [[m|]|e]; simpl;
      try (split; [done|by intros (_ & _ & _ & _ & ?)]).
    split; [|done]. intros _.
    split; [done|]. split; [by eexists|]. split; [by eexists|done].
  - destruct client; simpl; [|right; by eexists].
    destruct fetched as [[ok hasBody]|e]; simpl; [|right; by eexists].
    destruct (negb ok || negb hasBody); [right; by eexists|].
    destruct body as [blobType|e]; [|right; by eexists].
    destruct upload as [[m|]|e]; try (right; by eexists).
    destruct update as [[m|]|e]; try (right; by eexists). by left.
  - intros response e -> [= ->] Hok Hbody [= ->]. simpl in Hok, Hbody.
    by rewrite Hok, Hbody.
Qed.

(** ** Grid layout: geometry *)

Lemma gridColumns_positive (containerWidth : Z) : (1 <= gridColumns containerWidth)%Z.
Proof. unfold gridColumns. lia. Qed.

(** With at least two columns the grid fits: twice the x coordinate is
    the free width plus the column steps, nothing is clamped. *)
Lemma grid_x_unclamped (containerWidth : Z) (index : nat) :
  (2 <= gridColumns containerWidth)%Z →
  (Position.x (gridPosition containerWidth index) * 2
   == inject_Z (containerWidth - 170 * gridColumns containerWidth + 20
                + 340 * (Z.of_nat index mod gridColumns containerWidth)))%Q.
Proof.
  intros Hcols. unfold gridPosition. cbn [Position.x].
  set (c := gridColumns containerWidth) in *.
  set (col := (Z.of_nat index mod c)%Z).
  assert (Hcol : (0 <= col < c)%Z) by (apply Z.mod_pos_bound; lia).
  assert (Hfit : (170 * c <= containerWidth - 20)%Z).
  { subst c. unfold gridColumns, IMAGE_SIZE, GRID_GAP in *.
    change (150 + 20)%Z with 170%Z in *.
    pose proof (Z.mul_div_le (containerWidth - 20) 170 ltac:(lia)). lia. }
  unfold IMAGE_SIZE, GRID_GAP.
  replace (c * 150 + Z.max 0 (c - 1) * 20)%Z with (170 * c - 20)%Z by lia.
  replace (col * (150 + 20))%Z with (170 * col)%Z by lia.
  replace (containerWidth - 170 * c + 20 + 340 * col)%Z
    with ((containerWidth - (170 * c - 20)) + 2 * (170 * col))%Z by lia.
  rewrite inject_Z_plus, (inject_Z_mult 2).
  assert (Hd : (inject_Z 40 <= inject_Z (containerWidth - (170 * c - 20)))%Q)
    by (rewrite <- Zle_Qle; lia).
  assert (Hx : (inject_Z (containerWidth - (170 * c - 20))
                + inject_Z 2 * inject_Z (170 * col)
                <= inject_Z 2 * inject_Z (containerWidth - 150))%Q).
  { rewrite <- !inject_Z_mult, <- !inject_Z_plus, <- Zle_Qle. lia. }
  assert (Hc0 : (inject_Z 0 <= inject_Z (170 * col))%Q)
    by (rewrite <- Zle_Qle; lia).
  change (inject_Z 40) with 40%Q in Hd. change (inject_Z 2) with 2%Q in *.
  change (inject_Z 0) with 0%Q in Hc0.
  change (inject_Z 20) with 20%Q.
  set (d := inject_Z (containerWidth - (170 * c - 20))) in *.
  set (s := inject_Z (170 * col)) in *.
  set (m := inject_Z (containerWidth - 150)) in *.
  clearbody d s m.
  rewrite Qdiv_2.
  rewrite (Q.max_r 20 (d * (1 # 2))) by lra.
  rewrite Q.min_l by lra.
  rewrite Q.max_r by lra.
  lra.
Qed.

(** X15.  After [handleArrangeGrid], no two entities overlap: the 150 x 150
    items at any two different indices of the grid are disjoint, whatever
    the width of the container. *)
Theorem arrange_grid_no_overlap (st : State) (container : Container.t)
    (i j : nat) (a b : ImageInfo.t) :
  containerRef st = Some container → images st ≠ [] →
  i ≠ j →
  images (handleArrangeGrid st) !! i = Some a →
  images (handleArrangeGrid st) !! j = Some b →
  disjointItems (ImageInfo.position a) (ImageInfo.position b).
Proof.
  intros Hc Hne Hij Ha Hb.
  rewrite (handleArrangeGrid_images st container Hc Hne) in Ha, Hb.
  unfold arranged in Ha, Hb. rewrite list_lookup_imap in Ha, Hb.
  destruct (images st !! i) as [a0|]; [|done].
  destruct (images st !! j) as [b0|]; [|done].
  injection Ha as <-. injection Hb as <-. cbn [ImageInfo.with_position
    ImageInfo.position].
  set (w := Container.offsetWidth container).
  pose proof (gridColumns_positive w) as Hcols.
  set (c := gridColumns w) in *.
  pose proof (Z.div_mod (Z.of_nat i) c ltac:(lia)) as Hi.
  pose proof (Z.div_mod (Z.of_nat j) c ltac:(lia)) as Hj.
  pose proof (Z.mod_pos_bound (Z.of_nat i) c ltac:(lia)) as Hci.
  pose proof (Z.mod_pos_bound (Z.of_nat j) c ltac:(lia)) as Hcj.
  unfold disjointItems.
  destruct (Z.lt_total (Z.of_nat i / c) (Z.of_nat j / c)) as [Hrow|[Hrow|Hrow]].
  - right. right. left. unfold gridPosition. cbn [Position.y]. fold c.
    rewrite <- inject_Z_plus, <- Zle_Qle.
    unfold IMAGE_SIZE, GRID_GAP, HEADER_HEIGHT. lia.
  - assert (Hcol : (Z.of_nat i mod c ≠ Z.of_nat j mod c)%Z) by lia.
    assert (H2 : (2 <= c)%Z) by lia.
    pose proof (grid_x_unclamped w i H2) as Hxi.
    pose proof (grid_x_unclamped w j H2) as Hxj.
    fold c in Hxi, Hxj.
    set (xi := Position.x (gridPosition w i)) in *.
    set (xj := Position.x (gridPosition w j)) in *.
    destruct (Z.lt_total (Z.of_nat i mod c) (Z.of_nat j mod c))
      as [Hlt|[Heq|Hgt]]; [|done|].
    + left.
      assert (Hz : (inject_Z (w - 170 * c + 20 + 340 * (Z.of_nat i mod c))
                    + inject_Z 300
                    <= inject_Z (w - 170 * c + 20 + 340 * (Z.of_nat j mod c)))%Q)
        by (rewrite <- inject_Z_plus, <- Zle_Qle; lia).
      rewrite <- Hxi, <- Hxj in Hz. change (inject_Z 300) with 300%Q in Hz.
      change (inject_Z IMAGE_SIZE) with 150%Q. clearbody xi xj. lra.
    + right. left.
      assert (Hz : (inject_Z (w - 170 * c + 20 + 340 * (Z.of_nat j mod c))
                    + inject_Z 300
                    <= inject_Z (w - 170 * c + 20 + 340 * (Z.of_nat i mod c)))%Q)
        by (rewrite <- inject_Z_plus, <- Zle_Qle; lia).
      rewrite <- Hxi, <- Hxj in Hz. change (inject_Z 300) with 300%Q in Hz.
      change (inject_Z IMAGE_SIZE) with 150%Q. clearbody xi xj. lra.
  - right. right. right. unfold gridPosition. cbn [Position.y]. fold c.
    rewrite <- inject_Z_plus, <- Zle_Qle.
    unfold IMAGE_SIZE, GRID_GAP, HEADER_HEIGHT. lia.
Qed.

Lemma arrange_grid_no_overlap_witness :
  match images (handleArrangeGrid exampleFanOut) !! 0%nat,
        images (handleArrangeGrid exampleFanOut) !! 1%nat with
  | Some a, Some b =>
      disjointItems (ImageInfo.position a) (ImageInfo.position b)
  | _, _ => False
  end.
Proof.
  destruct (images (handleArrangeGrid exampleFanOut) !! 0%nat) as [a|] eqn:Ha;
    [|vm_compute in Ha; discriminate].
  destruct (images (handleArrangeGrid exampleFanOut) !! 1%nat) as [b|] eqn:Hb;
    [|vm_compute in Hb; discriminate].
  apply (arrange_grid_no_overlap exampleFanOut exampleContainer 0 1 a b eq_refl);
    [discriminate|discriminate|exact Ha|exact Hb].
Defined.

Lemma ceilDiv_rows (count columns index : Z) :
  (0 < columns)%Z → (0 <= index < count)%Z →
  (index / columns + 1 <= ceilDiv count columns)%Z.
Proof.
  intros Hcolumns Hindex. unfold ceilDiv.
  pose proof (Z.div_mod (- count) columns ltac:(lia)) as Hdiv.
  pose proof (Z.mod_pos_bound (- count) columns Hcolumns) as Hmod.
  assert (Hlt : (index / columns < - (- count / columns))%Z); [|lia].
  apply Z.div_lt_upper_bound; [done|]. nia.
Qed.

(** X16.  [handleArrangeGrid].  Without a container or on an empty canvas it
    only surfaces an error.  Otherwise it clears error and selection, sets
    the container's minimum height, and places every entity so that its
    x coordinate is non-negative and, when the container is at least one
    item wide, at most the container width minus the item size, and so
    that the item lies below the header and, with the bottom gap, within
    the minimum height it has set. *)
Theorem arrange_grid_within_container (st : State) :
  let st' := handleArrangeGrid st in
  (containerRef st = None ∨ images st = [] →
     images st' = images st
     ∧ selectedImageId st' = selectedImageId st
     ∧ containerRef st' = containerRef st
     ∧ error st' = Some "Failed to arrange images")
  ∧ (∀ container, containerRef st = Some container → images st ≠ [] →
       ∃ minHeight,
         containerRef st' = Some (Container.with_minHeight minHeight container)
         ∧ selectedImageId st' = None
         ∧ error st' = None
         ∧ length (images st') = length (images st)
         ∧ ∀ i img, images st' !! i = Some img →
             (0 <= Position.x (ImageInfo.position img))%Q
             ∧ ((IMAGE_SIZE <= Container.offsetWidth container)%Z →
                (Position.x (ImageInfo.position img)
                 <= inject_Z (Container.offsetWidth container - IMAGE_SIZE))%Q)
             ∧ (inject_Z (HEADER_HEIGHT + GRID_GAP)
                <= Position.y (ImageInfo.position img))%Q
             ∧ (Position.y (ImageInfo.position img)
                + inject_Z (IMAGE_SIZE + GRID_GAP)
                <= inject_Z minHeight)%Q).
Proof.
  intros st'. split.
  - intros Hbad. subst st'. unfold handleArrangeGrid.
    destruct (containerRef st) as [container|] eqn:Hc; [|done].
    destruct Hbad as [?|Hempty]; [done|]. by rewrite Hempty.
  - intros container Hc Hne.
    pose proof (handleArrangeGrid_images st container Hc Hne) as Himages.
    fold st' in Himages.
    exists (requiredContainerHeight (Container.offsetWidth container)
              (length (images st))).
    assert (Hrest :
      containerRef st'
      = Some (Container.with_minHeight
                (requiredContainerHeight (Container.offsetWidth container)
                   (length (images st))) container)
      ∧ selectedImageId st' = None ∧ error st' = None).
    { subst st'. unfold handleArrangeGrid. rewrite Hc.
      by destruct (images st). }
    destruct Hrest as (Hcontainer & Hsel & Herr).
    do 3 (split; [done|]).
    split; [rewrite Himages; unfold arranged; by rewrite length_imap|].
    intros i img Hi. rewrite Himages in Hi. unfold arranged in Hi.
    rewrite list_lookup_imap in Hi.
    destruct (images st !! i) as [img0|] eqn:Hi0; [|done].
    injection Hi as <-. cbn [ImageInfo.with_position ImageInfo.position].
    apply lookup_lt_Some in Hi0.
    set (w := Container.offsetWidth container).
    pose proof (gridColumns_positive w) as Hcols.
    unfold gridPosition, requiredContainerHeight. cbn [Position.x Position.y].
    set (c := gridColumns w) in *.
    split; [apply Q.le_max_l|]. split; [|split].
    + intros Hwide. apply Q.max_lub; [|apply Q.le_min_r].
      change 0%Q with (inject_Z 0). rewrite <- Zle_Qle. lia.
    + rewrite <- Zle_Qle.
      pose proof (Z.div_pos (Z.of_nat i) c ltac:(lia) ltac:(lia)).
      unfold IMAGE_SIZE, GRID_GAP, HEADER_HEIGHT. nia.
    + rewrite <- inject_Z_plus, <- Zle_Qle.
      pose proof (ceilDiv_rows (Z.of_nat (length (images st))) c (Z.of_nat i)
                    ltac:(lia) ltac:(lia)) as Hrows.
      pose proof (Z.div_pos (Z.of_nat i) c ltac:(lia) ltac:(lia)).
      unfold IMAGE_SIZE, GRID_GAP, HEADER_HEIGHT. nia.
Qed.

Lemma arrange_grid_within_container_witness :
  containerRef (handleArrangeGrid exampleFanOut)
  = Some (Container.mk 1000 800 800 (Some 270%Z))
  ∧ Forall (λ img, (0 <= Position.x (ImageInfo.position img))%Q)
      (images (handleArrangeGrid exampleFanOut)).
Proof.
  destruct (proj2 (arrange_grid_within_container exampleFanOut)
              exampleContainer eq_refl ltac:(discriminate))
    as (minHeight & Hcontainer & _ & _ & _ & Hpos).
  split; [reflexivity|].
  apply Forall_lookup. intros i img Hi. by apply (Hpos i img Hi).
Defined.

(** ** The storage path *)

Example split_examples :
  StoragePath.split StoragePath.slash "image/svg+xml" = ["image"; "svg+xml"]
  ∧ StoragePath.split StoragePath.slash "" = [""]
  ∧ StoragePath.split StoragePath.slash "a//b/" = ["a"; ""; "b"; ""]
  ∧ StoragePath.fileExtension "image/svg+xml" = "svg"
  ∧ StoragePath.fileExtension "image/png" = "png"
  ∧ StoragePath.fileExtension "text/html" = "jpeg"
  ∧ StoragePath.fileExtension "" = "jpeg"
  ∧ StoragePath.fileExtension "image/" = "jpeg"
  ∧ StoragePath.fileExtension "image/+xml" = ""
  ∧ StoragePath.filePath "e1" "image/webp" = "e1.webp".
Proof. repeat split. Qed.

Lemma split_nonempty (separator : Ascii.ascii) (s : string) :
  StoragePath.split separator s ≠ [].
Proof.
  destruct s as [|c s]; simpl; [done|].
  destruct (Ascii.eqb c separator); [done|].
  by destruct (StoragePath.split separator s).
Qed.

(** Joining the pieces with the separator gives the string back. *)
Lemma split_join (separator : Ascii.ascii) (s : string) :
  String.concat (String separator "") (StoragePath.split separator s) = s.
Proof.
  induction s as [|c s IH]; [done|]. cbn [StoragePath.split].
  pose proof (split_nonempty separator s) as Hs.
  destruct (StoragePath.split separator s) as [|piece pieces] eqn:Hsplit;
    [done|].
  destruct (Ascii.eqb_spec c separator) as [->|Hne].
  - change (String.concat (String separator "") ("" :: piece :: pieces))
      with (String separator
              (String.concat (String separator "") (piece :: pieces))).
    by rewrite IH.
  - destruct pieces as [|piece' pieces]; simpl in *; by rewrite <- IH.
Qed.

Lemma split_pieces (separator : Ascii.ascii) (s : string) :
  Forall (λ piece,
            (separator ∉ String.list_ascii_of_string piece)
            ∧ ∀ c, c ∈ String.list_ascii_of_string piece →
                   c ∈ String.list_ascii_of_string s)
         (StoragePath.split separator s).
Proof.
  induction s as [|c s IH]; cbn [StoragePath.split].
  - apply Forall_singleton. split; [apply not_elem_of_nil|done].
  - pose proof (split_nonempty separator s) as Hs.
    destruct (StoragePath.split separator s) as [|piece pieces]; [done|].
    apply Forall_cons in IH as [[Hsep Hsub] IH].
    assert (Hrest :
      Forall (λ piece,
                (separator ∉ String.list_ascii_of_string piece)
                ∧ ∀ c', c' ∈ String.list_ascii_of_string piece →
                        c' ∈ String.list_ascii_of_string (String c s))
             pieces).
    { eapply Forall_impl; [exact IH|]. intros p [Hp Hp'].
      split; [done|]. intros c' Hc'. simpl. right. by apply Hp'. }
    destruct (Ascii.eqb_spec c separator) as [->|Hne].
    + apply Forall_cons. split.
      { split; [apply not_elem_of_nil|]. intros c' Hc'.
        by apply elem_of_nil in Hc'. }
      apply Forall_cons. split; [|done].
      split; [done|]. intros c' Hc'. simpl. right. by apply Hsub.
    + apply Forall_cons. split; [|done]. simpl. split.
      * intros Hin. apply elem_of_cons in Hin as [Heq|Hin]; [by subst|done].
      * intros c' Hc'. apply elem_of_cons in Hc' as [->|Hc']; [left|right].
        by apply Hsub.
Qed.

Lemma split_without_separator (separator : Ascii.ascii) (s : string) :
  separator ∉ String.list_ascii_of_string s →
  StoragePath.split separator s = [s].
Proof.
  induction s as [|c s IH]; [done|]. simpl. intros Hnotin.
  destruct (Ascii.eqb_spec c separator) as [->|Hne];
    [exfalso; apply Hnotin; left|].
  rewrite IH; [done|]. intros Hin. apply Hnotin. by right.
Qed.

(** The first piece is the string up to its first separator. *)
Lemma split_head (separator : Ascii.ascii) (s : string) :
  let piece := hd "" (StoragePath.split separator s) in
  (separator ∉ String.list_ascii_of_string piece)
  ∧ (s = piece ∨ ∃ rest, s = piece +:+ String separator rest).
Proof.
  pose proof (split_join separator s) as Hjoin.
  pose proof (split_pieces separator s) as Hpieces.
  pose proof (split_nonempty separator s) as Hne.
  destruct (StoragePath.split separator s) as [|piece pieces]; [done|].
  apply Forall_cons in Hpieces as [[Hsep _] _]. simpl. split; [exact Hsep|].
  destruct pieces as [|piece' pieces]; [by left|]. right.
  exists (String.concat (String separator "") (piece' :: pieces)).
  by rewrite <- Hjoin.
Qed.

Lemma split_image_type (subtype : string) :
  StoragePath.slash ∉ String.list_ascii_of_string subtype →
  StoragePath.split StoragePath.slash ("image/" +:+ subtype) = ["image"; subtype].
Proof.
  intros Hslash. unfold StoragePath.slash in *. simpl.
  change ("" +:+ subtype) with subtype.
  by rewrite (split_without_separator _ _ Hslash).
Qed.

(** X17.  The extension of the stored file.  It never contains a slash or a
    plus sign.  When the blob type is "image/" followed by a non-empty
    subtype without slash, the extension is the subtype up to its first
    plus sign: the subtype is the extension, or the extension followed by
    a plus sign and more; for such a subtype without plus sign the
    extension is the subtype itself.  For every other blob type the
    extension is "jpeg". *)
Theorem storage_file_extension (blobType : string) :
  let extension := StoragePath.fileExtension blobType in
  ((StoragePath.slash ∉ String.list_ascii_of_string extension)
   ∧ (StoragePath.plus ∉ String.list_ascii_of_string extension))
  ∧ (∀ subtype,
       blobType = "image/" +:+ subtype →
       subtype ≠ "" →
       StoragePath.slash ∉ String.list_ascii_of_string subtype →
       (subtype = extension
        ∨ ∃ rest, subtype = extension +:+ String StoragePath.plus rest)
       ∧ (StoragePath.plus ∉ String.list_ascii_of_string subtype →
          extension = subtype))
  ∧ ((∀ subtype,
        blobType = "image/" +:+ subtype →
        subtype = "" ∨ StoragePath.slash ∈ String.list_ascii_of_string subtype) →
     extension = "jpeg").
Proof.
  intros extension.
  assert (Hjpeg : (StoragePath.slash ∉ String.list_ascii_of_string "jpeg")
                  ∧ (StoragePath.plus ∉ String.list_ascii_of_string "jpeg")).
  { split; apply (bool_decide_unpack _); by vm_compute. }
  assert (Hshape :
    extension = "jpeg"
    ∨ ∃ subtype,
        blobType = "image/" +:+ subtype
        ∧ subtype ≠ ""
        ∧ (StoragePath.slash ∉ String.list_ascii_of_string subtype)
        ∧ extension = hd "" (StoragePath.split StoragePath.plus subtype)).
  { subst extension. unfold StoragePath.fileExtension.
    pose proof (split_join StoragePath.slash blobType) as Hjoin.
    pose proof (split_pieces StoragePath.slash blobType) as Hpieces.
    destruct (StoragePath.split StoragePath.slash blobType) as [|kind [|subtype [|? ?]]];
      try (by left).
    destruct (String.eqb_spec kind "image") as [->|?]; [|by left].
    destruct (truthy subtype) eqn:Hsub; [|by left]. simpl. right.
    exists subtype. split; [by rewrite <- Hjoin|].
    split; [by apply truthy_true|]. split; [|done].
    apply Forall_cons in Hpieces as [_ Hpieces].
    by apply Forall_cons in Hpieces as [[? _] _]. }
  split; [|split].
  - destruct Hshape as [->|(subtype & _ & _ & Hslash & ->)]; [done|].
    pose proof (split_pieces StoragePath.plus subtype) as Hpieces.
    pose proof (split_nonempty StoragePath.plus subtype) as Hne.
    destruct (StoragePath.split StoragePath.plus subtype) as [|piece pieces]; [done|].
    apply Forall_cons in Hpieces as [[Hplus Hsub] _]. simpl.
    split; [|done]. intros Hin. by apply Hslash, Hsub.
  - intros subtype -> Hne Hslash.
    assert (Hextension :
              extension = hd "" (StoragePath.split StoragePath.plus subtype)).
    { subst extension. unfold StoragePath.fileExtension.
      rewrite (split_image_type subtype Hslash). simpl.
      by rewrite (proj2 (truthy_true subtype) Hne). }
    rewrite Hextension. split.
    + apply (split_head StoragePath.plus subtype).
    + intros Hplus. by rewrite (split_without_separator _ _ Hplus).
  - intros Hother. destruct Hshape as [->|(subtype & Htype & Hne & Hslash & _)];
      [done|].
    by destruct (Hother subtype Htype).
Qed.

(** ** The debounce hook *)

Section debounce.

Context {T : Type} `{EqDecision T}.

Lemma debounce_step_current (ev : Debounce.Event T) (h h' : Debounce.t T) :
  (∀ captured, Debounce.timeoutRef h = Some captured →
               captured = Debounce.value h) →
  Debounce.step ev h = Some h' →
  ∀ captured, Debounce.timeoutRef h' = Some captured →
              captured = Debounce.value h'.
Proof.
  intros Hinv Hstep captured Hcaptured. destruct ev as [v| |v]; simpl in Hstep.
  - injection Hstep as <-. unfold Debounce.render in Hcaptured |- *.
    destruct (decide (v = Debounce.value h)); [by apply Hinv|].
    simpl in *. congruence.
  - unfold Debounce.fire in Hstep.
    destruct (Debounce.timeoutRef h); [|done]. injection Hstep as <-. done.
  - injection Hstep as <-. done.
Qed.

Lemma debounce_run_current (evs : list (Debounce.Event T)) (h h' : Debounce.t T) :
  (∀ captured, Debounce.timeoutRef h = Some captured →
               captured = Debounce.value h) →
  Debounce.run evs h = Some h' →
  ∀ captured, Debounce.timeoutRef h' = Some captured →
              captured = Debounce.value h'.
Proof.
  revert h. induction evs as [|ev evs IH]; intros h Hinv Hrun; simpl in Hrun.
  - by injection Hrun as <-.
  - destruct (Debounce.step ev h) as [h1|] eqn:Hstep; [|done]. simpl in Hrun.
    eapply IH; [|exact Hrun]. by eapply debounce_step_current.
Qed.

(** X18.  [useDebounceWithReset] never publishes a stale value.  Whatever
    renders, timer firings and resets have happened since the hook was
    mounted, a pending timer carries the value of the latest render, so
    when it fires the debounced value becomes that value and no timer is
    left.  A reset to [v] publishes [v] at once and cancels the pending
    timer: nothing can fire until a render with a new value starts another
    one.  A reset to [v] followed by the render with [v] leaves the
    debounced value at [v], also after the timer started by that render
    has fired. *)
Theorem debounce_publishes_latest_value (initial : T)
    (evs : list (Debounce.Event T)) (h : Debounce.t T) :
  Debounce.run evs (Debounce.mount initial) = Some h →
  (∀ h', Debounce.fire h = Some h' →
         Debounce.debouncedValue h' = Debounce.value h'
         ∧ Debounce.value h' = Debounce.value h
         ∧ Debounce.timeoutRef h' = None)
  ∧ (∀ v,
       let h0 := Debounce.reset v h in
       Debounce.debouncedValue h0 = v
       ∧ Debounce.value h0 = Debounce.value h
       ∧ Debounce.timeoutRef h0 = None
       ∧ Debounce.fire h0 = None
       ∧ Debounce.render (Debounce.value h) h0 = h0)
  ∧ ∀ v,
      let h1 := Debounce.render v (Debounce.reset v h) in
      Debounce.debouncedValue h1 = v
      ∧ Debounce.value h1 = v
      ∧ ∀ h2, Debounce.fire h1 = Some h2 → Debounce.debouncedValue h2 = v.
Proof.
  intros Hrun.
  assert (Hinv : ∀ captured, Debounce.timeoutRef h = Some captured →
                             captured = Debounce.value h).
  { eapply debounce_run_current; [|exact Hrun]. simpl. congruence. }
  split; [|split].
  - intros h' Hfire. unfold Debounce.fire in Hfire.
    destruct (Debounce.timeoutRef h) as [captured|] eqn:Hcaptured; [|done].
    injection Hfire as <-. simpl. by rewrite (Hinv captured).
  - intros v h0. subst h0. unfold Debounce.render, Debounce.reset. simpl.
    by rewrite decide_True.
  - intros v h1. subst h1. unfold Debounce.render, Debounce.reset. simpl.
    destruct (decide (v = Debounce.value h)) as [Heq|Hne]; simpl.
    + split; [done|]. split; [done|]. intros h2 Hfire. done.
    + split; [done|]. split; [done|]. intros h2 [= <-]. done.
Qed.

End debounce.

Lemma debounce_publishes_latest_value_witness :
  match Debounce.run
          [Debounce.Rendered "a"; Debounce.Rendered "a r"; Debounce.Rendered "a red";
           Debounce.ResetCalled "a blue fox"; Debounce.Rendered "a blue fox"]
          (Debounce.mount "") with
  | Some h =>
      match Debounce.fire h with
      | Some h' => Debounce.debouncedValue h' = "a blue fox"
      | None => False
      end
      ∧ Debounce.fire (Debounce.reset "a green fox" h) = None
  | None => False
  end.
Proof.
  destruct (Debounce.run _ (Debounce.mount "")) as [h|] eqn:Hrun;
    [|vm_compute in Hrun; discriminate].
  destruct (debounce_publishes_latest_value "" _ h Hrun)
    as (Hfired & Hreset & _).
  split; [|by destruct (Hreset "a green fox") as (_ & _ & _ & Hnone & _)].
  destruct (Debounce.fire h) as [h'|] eqn:Hfire.
  - destruct (Hfired h' eq_refl) as (Hdebounced & Hvalue & _).
    rewrite Hdebounced, Hvalue.
    apply (f_equal (fmap Debounce.value)) in Hrun.
    destruct h as [value debounced timer]. vm_compute in Hrun.
    by injection Hrun.
  - apply (f_equal (fmap Debounce.timeoutRef)) in Hrun.
    destruct h as [value debounced timer]. vm_compute in Hrun.
    injection Hrun as <-. discriminate Hfire.
Defined.

(** ** Unique ids *)

Lemma ids_fmap_same (f : ImageInfo.t → ImageInfo.t) (l : list ImageInfo.t) :
  (∀ img, ImageInfo.id (f img) = ImageInfo.id img) →
  ImageInfo.id <$> (f <$> l) = ImageInfo.id <$> l.
Proof.
  intros Hf. rewrite <- list_fmap_compose. apply list_fmap_ext.
  intros i img _. apply Hf.
Qed.

Lemma ids_unique_replace (a : string) (placed : ImageInfo.t)
    (l : list ImageInfo.t) :
  ImageInfo.id placed = a →
  NoDup (ImageInfo.id <$> l) →
  NoDup (ImageInfo.id <$> (filter (λ img, ImageInfo.id img ≠ a) l ++ [placed])).
Proof.
  intros Hplaced Hnodup. rewrite fmap_app. apply NoDup_app. split; [|split].
  - eapply sublist_NoDup; [exact Hnodup|]. apply fmap_sublist, sublist_filter.
  - intros x Hx Hx'. apply list_elem_of_singleton in Hx'. subst x.
    apply list_elem_of_fmap in Hx as (img & Heq & Himg).
    apply list_elem_of_filter in Himg as [Hne _]. congruence.
  - apply NoDup_singleton.
Qed.

Lemma regenerate_begin_ids (imageId newPrompt : string) (st : State) :
  ImageInfo.id <$> images (fst (handleRegenerateSelectedImage_begin imageId
                                  newPrompt st))
  = ImageInfo.id <$> images st.
Proof.
  unfold handleRegenerateSelectedImage_begin.
  destruct (isRegeneratingRef st); [done|]. simpl.
  apply ids_fmap_same. intros img. by destruct (decide _).
Qed.

(** X19.  Every event of the page except the start of a fan-out and the
    continuation of an awaited call keeps the ids of the collection
    pairwise distinct: typing, the debounce timer, the regeneration
    effect, selecting, deselecting, dragging, deleting, arranging, placing
    a saved image, mounting, and the synchronous part of duplicating and
    saving. *)
Theorem local_events_keep_ids_unique (ev : Event) (m m' : Machine) :
  isLocalEvent ev = true →
  step ev m = Some m' →
  NoDup (ImageInfo.id <$> images (page m)) →
  NoDup (ImageInfo.id <$> images (page m')).
Proof.
  intros Hlocal Hstep Hnodup.
  destruct ev; try discriminate Hlocal; simpl in Hstep;
    injection Hstep as <-; simpl; try done.
  - unfold mountEffect. destruct (containerRef (page m)); [|done].
    destruct (length (images (page m)) =? 0)%nat; [|done]. simpl.
    apply NoDup_singleton.
  - unfold regenerationEffect.
    repeat (case_match; try done). by rewrite regenerate_begin_ids.
  - unfold handleSelectImage. by case_match.
  - rewrite ids_fmap_same; [done|]. intros img. by destruct (decide _).
  - unfold handleDeleteImage.
    assert (NoDup (ImageInfo.id <$> filter (λ img, ImageInfo.id img ≠ id)
                                      (images (page m)))).
    { eapply sublist_NoDup; [exact Hnodup|].
      apply fmap_sublist, sublist_filter. }
    by case_match.
  - unfold handleDuplicateImage_begin. by case_match.
  - unfold handleArrangeGrid. destruct (containerRef (page m)); [|done].
    destruct (length (images (page m)) =? 0)%nat; [done|]. simpl.
    assert (ImageInfo.id <$> imap (λ index image,
              ImageInfo.with_position
                (gridPosition (Container.offsetWidth t) index) image)
              (images (page m))
            = ImageInfo.id <$> images (page m)) as ->; [|done].
    apply list_eq. intros i.
    rewrite !list_lookup_fmap, list_lookup_imap.
    by destruct (images (page m) !! i).
  - unfold handleSelectSavedImage.
    destruct (containerRef (page m)) as [container|]; [|done]. simpl.
    by apply ids_unique_replace.
Qed.

Lemma local_events_keep_ids_unique_witness :
  NoDup (ImageInfo.id <$>
         images (page (mkMachine (handleDeleteImage "e1-placeholder-1-1700000000000"
                                    exampleFanOut) []))).
Proof.
  apply (local_events_keep_ids_unique
           (DeleteClicked "e1-placeholder-1-1700000000000")
           (mkMachine exampleFanOut []) _ eq_refl eq_refl).
  apply (bool_decide_unpack _). vm_compute. exact I.
Defined.

(** ** Unique ids across awaited calls *)

Lemma ids_unique_rename (a new src prompt : string) (l : list ImageInfo.t) :
  NoDup (ImageInfo.id <$> l) →
  new ∉ ImageInfo.id <$> l →
  NoDup (ImageInfo.id <$>
         ((λ img, if decide (ImageInfo.id img = a)
                  then ImageInfo.with_result new src prompt img else img) <$> l)).
Proof.
  intros Hnodup Hfresh.
  assert (Hids : ImageInfo.id <$>
                 ((λ img, if decide (ImageInfo.id img = a)
                          then ImageInfo.with_result new src prompt img else img)
                    <$> l)
                 = (λ i, if decide (i = a) then new else i)
                     <$> (ImageInfo.id <$> l)).
  { rewrite <- !list_fmap_compose. apply list_fmap_ext. intros i img _. simpl.
    by destruct (decide (ImageInfo.id img = a)). }
  rewrite Hids. apply NoDup_fmap_2_strong; [|exact Hnodup].
  intros x y Hx Hy Heq.
  destruct (decide (x = a)), (decide (y = a)); congruence.
Qed.

Lemma NoDup_omap_ids (f : ImageInfo.t → option ImageInfo.t)
    (l : list ImageInfo.t) :
  NoDup (ImageInfo.id <$> l) →
  (∀ a b a' b', a ∈ l → b ∈ l → f a = Some a' → f b = Some b' →
                ImageInfo.id a' = ImageInfo.id b' →
                ImageInfo.id a = ImageInfo.id b) →
  NoDup (ImageInfo.id <$> omap f l).
Proof.
  induction l as [|a l IH]; intros Hnodup Hinj; [apply NoDup_nil_2|].
  rewrite fmap_cons in Hnodup. apply NoDup_cons in Hnodup as [Hnotin Hnodup].
  assert (Hrest : NoDup (ImageInfo.id <$> omap f l)).
  { apply IH; [exact Hnodup|]. intros x y x' y' Hx Hy.
    apply Hinj; by apply list_elem_of_further. }
  simpl. destruct (f a) as [a'|] eqn:Hfa; [|exact Hrest].
  rewrite fmap_cons. apply NoDup_cons. split; [|exact Hrest].
  intros Hin. apply list_elem_of_fmap in Hin as (b' & Heq & Hb').
  apply list_elem_of_omap in Hb' as (b & Hb & Hfb).
  apply Hnotin. apply list_elem_of_fmap. exists b. split; [|exact Hb].
  eapply (Hinj a b a' b'); [apply list_elem_of_here| |exact Hfa|exact Hfb|exact Heq].
  by apply list_elem_of_further.
Qed.

Lemma filter_fmap_NoDup_lookup_inj {A B : Type} (f : A → B) (P : A → Prop)
    `{∀ x, Decision (P x)} (l : list A) (i j : nat) (x y : A) :
  NoDup (f <$> filter P l) →
  l !! i = Some x → l !! j = Some y → P x → P y → f x = f y → i = j.
Proof.
  revert i j. induction l as [|a l IH]; intros i j Hnodup Hi Hj Hx Hy Heq;
    [done|].
  rewrite filter_cons in Hnodup.
  assert (Hin : ∀ k z, l !! k = Some z → P z → f z ∈ f <$> filter P l).
  { intros k z Hk Hz. apply list_elem_of_fmap. exists z. split; [done|].
    apply list_elem_of_filter. split; [done|]. by eapply list_elem_of_lookup_2. }
  destruct (decide (P a)) as [Ha|Ha].
  - rewrite fmap_cons in Hnodup. apply NoDup_cons in Hnodup as [Hnotin Hnodup].
    destruct i as [|i], j as [|j]; simpl in Hi, Hj.
    + done.
    + injection Hi as ->. exfalso. apply Hnotin. rewrite Heq. by eapply Hin.
    + injection Hj as ->. exfalso. apply Hnotin. rewrite <- Heq. by eapply Hin.
    + f_equal. by apply IH.
  - destruct i as [|i]; simpl in Hi; [by injection Hi as ->|].
    destruct j as [|j]; simpl in Hj; [by injection Hj as ->|].
    f_equal. by apply IH.
Qed.

Lemma reconciled_ids_unique (placeholderIds : list string)
    (parentPrompt : string) (results : list GeneratedImage.t)
    (prev : list ImageInfo.t) :
  NoDup placeholderIds →
  NoDup (ImageInfo.id <$> prev) →
  NoDup (GeneratedImage.id
           <$> filter (λ result, variantFailed result = false) results) →
  Forall (λ id, id ∉ ImageInfo.id <$> prev)
         (GeneratedImage.id
            <$> filter (λ result, variantFailed result = false) results) →
  NoDup (ImageInfo.id <$> reconciled placeholderIds parentPrompt results prev).
Proof.
  intros Hdistinct Hprev Hresults Hfresh. unfold reconciled.
  assert (Hnew : ∀ i result b, results !! i = Some result →
                   variantFailed result = false → b ∈ prev →
                   GeneratedImage.id result ≠ ImageInfo.id b).
  { intros i result b Hi Hok Hb Heq.
    apply (proj1 (Forall_forall _ _)) with (x := GeneratedImage.id result)
      in Hfresh.
    - apply Hfresh. rewrite Heq. apply list_elem_of_fmap. by exists b.
    - apply list_elem_of_fmap. exists result. split; [done|].
      apply list_elem_of_filter. split; [done|]. by eapply list_elem_of_lookup_2. }
  apply NoDup_omap_ids; [exact Hprev|].
  intros a b a' b' Ha Hb Hfa Hfb Heq. unfold slotOutcome in Hfa, Hfb.
  destruct (placeholderIndexOf placeholderIds a) as [i|] eqn:Hia; simpl in Hfa;
    [destruct (results !! i) as [ri|] eqn:Hri;
       [destruct (variantFailed ri) eqn:Hoki; [done|]|]|];
    injection Hfa as <-;
    (destruct (placeholderIndexOf placeholderIds b) as [j|] eqn:Hjb;
       simpl in Hfb;
       [destruct (results !! j) as [rj|] eqn:Hrj;
          [destruct (variantFailed rj) eqn:Hokj; [done|]|]|];
       injection Hfb as <-); simpl in Heq; try done.
  - assert (i = j) as ->.
    { by apply (filter_fmap_NoDup_lookup_inj GeneratedImage.id
                  (λ result, variantFailed result = false) results i j ri rj). }
    apply (placeholderIndexOf_Some placeholderIds Hdistinct) in Hia, Hjb.
    congruence.
  - exfalso. by apply (Hnew i ri b).
  - exfalso. by apply (Hnew i ri b).
  - exfalso. by apply (Hnew j rj a).
  - exfalso. by apply (Hnew j rj a).
Qed.

(** X20.  The continuations of the awaited calls keep the ids of the collection
    pairwise distinct as long as the ids they receive are new.  Starting a
    fan-out keeps them distinct when no entity already carries one of the
    four derived placeholder ids; the continuation of a duplication when
    the uuid is carried by no entity; the continuation of a regeneration
    when the id of a result with an image url is carried by no entity;
    the reconciliation of a fan-out when the ids of the successful results
    are pairwise distinct and carried by no entity.  Failures and
    rejections never add an id. *)
Theorem fresh_ids_keep_ids_unique (st : State) :
  NoDup (ImageInfo.id <$> images st) →
  (∀ parentId parentPrompt now,
     (∀ index, (index < 4)%nat →
               placeholderId parentId index (now index)
               ∉ ImageInfo.id <$> images st) →
     NoDup (ImageInfo.id <$>
            images (fst (handleGenerateVariations_begin parentId parentPrompt
                           now st))))
  ∧ (∀ sourceImage sourceImageId position settled,
       (∀ uuid, settled = Resolved uuid → uuid ∉ ImageInfo.id <$> images st) →
       NoDup (ImageInfo.id <$>
              images (handleDuplicateImage_resume sourceImage sourceImageId
                        position settled st)))
  ∧ (∀ imageId newPrompt settled,
       (∀ result, settled = Resolved result →
                  truthy_opt (GeneratedImage.imageUrl result) = true →
                  GeneratedImage.id result ∉ ImageInfo.id <$> images st) →
       NoDup (ImageInfo.id <$>
              images (handleRegenerateSelectedImage_resume imageId newPrompt
                        settled st)))
  ∧ (∀ placeholderIds parentPrompt settled,
       NoDup placeholderIds →
       "" ∉ placeholderIds →
       (∀ results, settled = Resolved results →
          wellFormed placeholderIds results
          ∧ NoDup (GeneratedImage.id
                     <$> filter (λ result, variantFailed result = false) results)
          ∧ Forall (λ id, id ∉ ImageInfo.id <$> images st)
                   (GeneratedImage.id
                      <$> filter (λ result, variantFailed result = false)
                            results)) →
       NoDup (ImageInfo.id <$>
              images (handleGenerateVariations_resume placeholderIds
                        parentPrompt settled st))).
Proof.
  intros Hnodup. split; [|split; [|split]].
  - intros parentId parentPrompt now Hfresh.
    unfold handleGenerateVariations_begin.
    destruct (findImage parentId (images st)) as [parentImage|]; [|done].
    cbn [fst images setImages setError].
    destruct (placeholderIds_derived parentId parentPrompt
                (ImageInfo.position parentImage) (containerRef st) now)
      as [Hdistinct _].
    assert (Hids : ImageInfo.id <$>
                   (snd <$> placeholdersFor parentId parentPrompt
                              (ImageInfo.position parentImage) (containerRef st)
                              now)
                   = (λ index, placeholderId parentId index (now index))
                       <$> seq 0 4) by reflexivity.
    assert (Hsame : fst <$> placeholdersFor parentId parentPrompt
                              (ImageInfo.position parentImage) (containerRef st)
                              now
                    = (λ index, placeholderId parentId index (now index))
                        <$> seq 0 4) by reflexivity.
    rewrite fmap_app, Hids. apply NoDup_app. split; [exact Hnodup|].
    split; [|by rewrite <- Hsame].
    intros x Hx Hx'. apply list_elem_of_fmap in Hx' as (index & -> & Hindex).
    apply elem_of_seq in Hindex. apply (Hfresh index); [lia|exact Hx].
  - intros sourceImage sourceImageId position settled Hfresh.
    unfold handleDuplicateImage_resume. destruct settled as [uuid|e]; [|done].
    destruct (negb (truthy uuid)); [done|].
    cbn [images setImages setSelectedImageId]. rewrite fmap_app.
    apply NoDup_app. split; [exact Hnodup|]. split; [|apply NoDup_singleton].
    intros x Hx Hx'. apply list_elem_of_singleton in Hx'. subst x.
    by apply (Hfresh uuid).
  - intros imageId newPrompt settled Hfresh.
    assert (Hclear : NoDup (ImageInfo.id <$> clearLoading imageId (images st))).
    { unfold clearLoading. rewrite ids_fmap_same; [exact Hnodup|].
      intros img. by destruct (decide _). }
    unfold handleRegenerateSelectedImage_resume.
    destruct settled as [result|e]; [|exact Hclear].
    destruct (truthy_opt (GeneratedImage.imageUrl result)) eqn:Hurl;
      [|exact Hclear].
    cbn [images setImages setSelectedImageId setIsRegenerating].
    apply ids_unique_rename; [exact Hnodup|]. by apply Hfresh.
  - intros placeholderIds parentPrompt settled Hdistinct Hnonempty Hresults.
    assert (Hstrip : ∀ l, NoDup (ImageInfo.id <$> l) →
                          NoDup (ImageInfo.id <$> stripPlaceholders placeholderIds l)).
    { intros l Hl. eapply sublist_NoDup; [exact Hl|].
      apply fmap_sublist, sublist_filter. }
    unfold handleGenerateVariations_resume.
    destruct settled as [results|e]; [|by apply Hstrip].
    destruct (Hresults results eq_refl) as (Hwf & Hids & Hfresh).
    destruct (reconcile_reconciled placeholderIds parentPrompt Hdistinct
                Hnonempty results (images st) Hnodup
                (wellFormed_fresh _ _ Hwf)) as [Hfst _].
    assert (Hrec : NoDup (ImageInfo.id <$>
                          fst (reconcile placeholderIds parentPrompt results
                                 (images st)))).
    { rewrite Hfst. by apply reconciled_ids_unique. }
    destruct (generationFailed _ results); [by apply Hstrip|exact Hrec].
Qed.

Lemma fresh_ids_keep_ids_unique_witness :
  NoDup (ImageInfo.id <$>
         images (fst (handleGenerateVariations_begin "e1" "a red fox"
                        (λ _, 1700000000001%N) exampleFanOut)))
  ∧ NoDup (ImageInfo.id <$>
           images (handleDuplicateImage_resume exampleImage "e1"
                     (Position.mk 275 100) (Resolved "e2") exampleFanOut))
  ∧ NoDup (ImageInfo.id <$>
           images (handleRegenerateSelectedImage_resume "e1" "a red fox at dusk"
                     (Resolved (GeneratedImage.mk "e3"
                                  (Some "https://v3.fal.media/files/e3.png")
                                  (Some "a red fox at dusk") None))
                     exampleFanOut))
  ∧ NoDup (ImageInfo.id <$>
           images (handleGenerateVariations_resume examplePlaceholderIds
                     "a red fox" (Resolved exampleResults) exampleFanOut)).
Proof.
  destruct (fresh_ids_keep_ids_unique exampleFanOut)
    as (Hbegin & Hduplicate & Hregenerate & Hreconcile).
  { apply (bool_decide_unpack _). vm_compute. exact I. }
  split; [|split; [|split]].
  - apply Hbegin. intros index Hindex.
    destruct index as [|[|[|[|index]]]]; [| | | |lia];
      apply (bool_decide_unpack _); vm_compute; exact I.
  - apply Hduplicate. intros uuid [= <-].
    apply (bool_decide_unpack _). vm_compute. exact I.
  - apply Hregenerate. intros result [= <-] _.
    apply (bool_decide_unpack _). vm_compute. exact I.
  - apply Hreconcile.
    + apply (bool_decide_unpack _). vm_compute. exact I.
    + apply (bool_decide_unpack _). vm_compute. exact I.
    + intros results [= <-]. rewrite exampleResults_value.
      split; [|split].
      * unfold wellFormed.
        apply (proj1 (Forall_forall
                        (λ result, variantFailed result = false → _ ∧ _) _)).
        repeat (apply List.Forall_cons;
                [intros Hok;
                 first [ vm_compute in Hok; discriminate
                       | split; [apply (bool_decide_unpack _); vm_compute; exact I
                                |reflexivity] ]|]).
        apply List.Forall_nil.
      * apply (bool_decide_unpack _). vm_compute. exact I.
      * apply (bool_decide_unpack _). vm_compute. exact I.
Defined.

(** ** The saved-image catalog *)

(** X21.  [loadSavedImagesForDropdown]: the loading flag is set while the fetch
    is awaited and cleared on both outcomes, and the canvas, the selection
    and the prompt are never touched.  When the fetch resolves, the catalog
    is replaced by one entry per fetched record, in order: the entry
    carries the record's id, its url or the empty string, and its prompt or
    "Untitled"; no error is surfaced.  Choosing that entry with a canvas
    mounted puts an entity with the record's id, that src and that prompt
    last on the canvas and selects it.  When the fetch rejects, the catalog
    is kept and "Failed to fetch saved images" is surfaced. *)
Theorem catalog_refresh (settled : Outcome (list GeneratedImage.t))
    (st : State) :
  let begun := loadSavedImagesForDropdown_begin st in
  let st' := loadSavedImagesForDropdown_resume settled (fst begun) in
  snd begun = Some LoadSavedTask
  ∧ isLoadingSavedImages (fst begun) = true
  ∧ savedImages (fst begun) = savedImages st
  ∧ isLoadingSavedImages st' = false
  ∧ images st' = images st
  ∧ selectedImageId st' = selectedImageId st
  ∧ prompt st' = prompt st
  ∧ match settled with
    | Resolved records =>
        error st' = error st
        ∧ length (savedImages st') = length records
        ∧ ∀ i record, records !! i = Some record →
            ∃ entry,
              savedImages st' !! i = Some entry
              ∧ ImageInfo.id entry = GeneratedImage.id record
              ∧ ImageInfo.src entry
                = default "" (GeneratedImage.imageUrl record)
              ∧ ImageInfo.prompt entry
                = default "Untitled" (GeneratedImage.promptUsed record)
              ∧ ∀ container, containerRef st = Some container →
                  ∃ placed,
                    last (images (handleSelectSavedImage entry st'))
                    = Some placed
                    ∧ ImageInfo.id placed = GeneratedImage.id record
                    ∧ ImageInfo.src placed
                      = default "" (GeneratedImage.imageUrl record)
                    ∧ ImageInfo.prompt placed
                      = default "Untitled" (GeneratedImage.promptUsed record)
                    ∧ selectedImageId (handleSelectSavedImage entry st')
                      = Some (GeneratedImage.id record)
                    ∧ prompt (handleSelectSavedImage entry st')
                      = default "Untitled" (GeneratedImage.promptUsed record)
    | Rejected _ =>
        savedImages st' = savedImages st
        ∧ error st' = Some "Failed to fetch saved images"
    end.
Proof.
  intros begun st'. subst begun st'.
  unfold loadSavedImagesForDropdown_begin, loadSavedImagesForDropdown_resume.
  cbn [fst snd]. do 3 (split; [reflexivity|]).
  destruct settled as [records|e].
  - do 5 (split; [reflexivity|]).
    cbn [savedImages setSavedImages setIsLoadingSavedImages].
    split; [by rewrite length_fmap|].
    intros i record Hrecord. eexists. split.
    { rewrite list_lookup_fmap, Hrecord. reflexivity. }
    do 3 (split; [reflexivity|]).
    intros container Hcontainer. unfold handleSelectSavedImage.
    cbn [containerRef setSavedImages setIsLoadingSavedImages].
    rewrite Hcontainer. eexists. split.
    { cbn [images setImages setSelectedImageId setIsImageDropdownOpen
           setPromptAndResetDebounce].
      apply last_snoc. }
    done.
  - done.
Qed.

Lemma catalog_refresh_witness :
  let record :=
    GeneratedImage.mk "s1" (Some "https://storage.example/s1.png") None None in
  let st' :=
    loadSavedImagesForDropdown_resume (Resolved [record])
      (fst (loadSavedImagesForDropdown_begin exampleState)) in
  ∃ entry,
    savedImages st' !! 0%nat = Some entry
    ∧ ∃ placed,
        last (images (handleSelectSavedImage entry st')) = Some placed
        ∧ ImageInfo.id placed = "s1"
        ∧ ImageInfo.src placed = "https://storage.example/s1.png"
        ∧ ImageInfo.prompt placed = "Untitled".
Proof.
  intros record st'.
  destruct (catalog_refresh (Resolved [record]) exampleState)
    as (_ & _ & _ & _ & _ & _ & _ & _ & _ & Hentries).
  destruct (Hentries 0%nat record eq_refl)
    as (entry & Hentry & _ & _ & _ & Hplaced).
  destruct (Hplaced exampleContainer eq_refl)
    as (placed & Hlast & Hid & Hsrc & Hprompt & _).
  exists entry. split; [exact Hentry|].
  exists placed. split; [exact Hlast|]. split; [exact Hid|].
  split; [exact Hsrc|exact Hprompt].
Defined.

(** ** The image component on the page *)

Lemma findImage_present (image : ImageInfo.t) (l : list ImageInfo.t) :
  image ∈ l →
  ∃ found, findImage (ImageInfo.id image) l = Some found
           ∧ found ∈ l ∧ ImageInfo.id found = ImageInfo.id image.
Proof.
  intros Hin. destruct (findImage (ImageInfo.id image) l) as [found|] eqn:Hfind.
  - exists found. split; [done|]. by apply findImage_Some.
  - apply findImage_None in Hfind. exfalso. apply Hfind.
    apply list_elem_of_fmap. by exists image.
Qed.

Lemma actionsShown_spec (p : DraggableImage.Props) (s : DraggableImage.t) :
  DraggableImage.actionsShown p s = true
  ↔ DraggableImage.isSelected p = true
    ∧ DraggableImage.isLoading p ≠ Some true
    ∧ DraggableImage.isPlaceholder p ≠ Some true
    ∧ DraggableImage.isDragging s = false.
Proof.
  unfold DraggableImage.actionsShown.
  destruct (DraggableImage.isSelected p),
    (DraggableImage.isLoading p) as [[|]|],
    (DraggableImage.isPlaceholder p) as [[|]|],
    (DraggableImage.isDragging s); simpl; split;
    first [ discriminate | intros (? & ? & ? & ?); congruence | done ].
Qed.

(** X22.  The action buttons are rendered only on the selected image, and only
    when it is neither loading nor a placeholder nor being dragged.  What
    they call therefore always finds its image on the page: the variations
    button passes the image's own id and prompt, so the fan-out awaits the
    generation with four placeholders appended and never reports a missing
    parent; the duplicate button awaits a uuid for a copy of an entity with
    that id (the image itself when ids are unique) and never reports a
    missing source; the delete button removes the image and clears the
    selection; the save button, unless a save is already awaited, passes
    the image's id and src.  Two images that both show actions carry the
    same id. *)
Theorem actions_reach_existing_images (st : State) (image : ImageInfo.t)
    (local : DraggableImage.t) (now : nat → N) :
  image ∈ images st →
  DraggableImage.actionsShown (imageProps st image) local = true →
  let props := imageProps st image in
  selectedImageId st = Some (ImageInfo.id image)
  ∧ ImageInfo.isLoading image ≠ Some true
  ∧ ImageInfo.isPlaceholder image ≠ Some true
  ∧ (DraggableImage.handleVariationsClick props local
     = (local, [DraggableImage.GenerateVariations (ImageInfo.id image)
                  (ImageInfo.prompt image)])
     ∧ ∃ placeholderIds,
         let begun :=
           dispatch now
             (DraggableImage.GenerateVariations (ImageInfo.id image)
                (ImageInfo.prompt image)) st in
         snd begun = Some (VariationsTask placeholderIds (ImageInfo.prompt image))
         ∧ length placeholderIds = 4%nat
         ∧ length (images (fst begun)) = (length (images st) + 4)%nat
         ∧ error (fst begun) = None)
  ∧ (DraggableImage.handleDuplicateClick props local
     = (local, [DraggableImage.Duplicate (ImageInfo.id image)])
     ∧ ∃ source position,
         let begun :=
           dispatch now (DraggableImage.Duplicate (ImageInfo.id image)) st in
         snd begun = Some (DuplicateTask source (ImageInfo.id image) position)
         ∧ source ∈ images st
         ∧ ImageInfo.id source = ImageInfo.id image
         ∧ (NoDup (ImageInfo.id <$> images st) → source = image)
         ∧ error (fst begun) = None)
  ∧ (DraggableImage.handleDeleteClick props local
     = (local, [DraggableImage.Delete (ImageInfo.id image)])
     ∧ let deleted :=
         fst (dispatch now (DraggableImage.Delete (ImageInfo.id image)) st) in
       (image ∉ images deleted) ∧ selectedImageId deleted = None)
  ∧ (DraggableImage.isSaving local = false →
     DraggableImage.handleSaveClick_begin props local
     = (DraggableImage.mk true (DraggableImage.isDragging local),
        [DraggableImage.Save (ImageInfo.id image) (ImageInfo.src image)]))
  ∧ (∀ other local',
       DraggableImage.actionsShown (imageProps st other) local' = true →
       ImageInfo.id other = ImageInfo.id image).
Proof.
  intros Himage Hshown props.
  apply actionsShown_spec in Hshown as (Hselected & Hloading & Hplaceholder & _).
  simpl in Hselected, Hloading, Hplaceholder.
  apply bool_decide_eq_true in Hselected.
  destruct (findImage_present image (images st) Himage)
    as (found & Hfind & Hfound & Hid).
  split; [exact Hselected|]. split; [exact Hloading|].
  split; [exact Hplaceholder|]. split; [|split; [|split; [|split]]].
  - split; [reflexivity|]. cbn [dispatch].
    unfold handleGenerateVariations_begin. rewrite Hfind. cbn [fst snd].
    eexists. split; [reflexivity|]. split; [reflexivity|].
    split; [|reflexivity].
    cbn [images setImages setError]. rewrite length_app. reflexivity.
  - split; [reflexivity|]. cbn [dispatch].
    unfold handleDuplicateImage_begin. rewrite Hfind. cbn [fst snd].
    eexists _, _. split; [reflexivity|]. split; [exact Hfound|].
    split; [exact Hid|]. split; [|reflexivity].
    intros Hnodup. by apply (same_id_same_image found image (images st)).
  - split; [reflexivity|]. cbn [dispatch fst]. unfold handleDeleteImage.
    rewrite decide_True by exact Hselected.
    cbn [images selectedImageId setImages setSelectedImageId].
    split; [|reflexivity]. intros Hin.
    apply list_elem_of_filter in Hin as [Hne _]. by apply Hne.
  - intros Hsaving. unfold DraggableImage.handleSaveClick_begin.
    rewrite Hsaving. reflexivity.
  - intros other local' Hother.
    apply actionsShown_spec in Hother as (Hother & _). simpl in Hother.
    apply bool_decide_eq_true in Hother. congruence.
Qed.

Lemma actions_reach_existing_images_witness :
  ∃ placeholderIds,
    snd (dispatch (λ _, 1700000000000%N)
           (DraggableImage.GenerateVariations "e1" "a red fox") exampleState)
    = Some (VariationsTask placeholderIds "a red fox")
    ∧ length placeholderIds = 4%nat.
Proof.
  destruct (actions_reach_existing_images exampleState exampleImage
              DraggableImage.initial (λ _, 1700000000000%N))
    as (_ & _ & _ & (_ & placeholderIds & Hbegun & Hlength & _) & _).
  - change (exampleImage ∈ [exampleImage]). apply list_elem_of_here.
  - reflexivity.
  - exists placeholderIds. split; [exact Hbegun|exact Hlength].
Defined.

(** ** Stacking order *)

(** X23.  Every image is rendered with base z-index 0, so an image being dragged
    lies above every image that is not, and among the images not being
    dragged the selected one lies above the others. *)
Theorem rendered_stacking_order (st : State) (a b : ImageInfo.t)
    (la lb : DraggableImage.t) :
  let za := DraggableImage.renderedZIndex (imageProps st a) la in
  let zb := DraggableImage.renderedZIndex (imageProps st b) lb in
  (DraggableImage.isDragging la = true → DraggableImage.isDragging lb = false →
   (zb < za)%Z)
  ∧ (DraggableImage.isDragging la = false →
     DraggableImage.isDragging lb = false →
     selectedImageId st = Some (ImageInfo.id a) →
     ImageInfo.id b ≠ ImageInfo.id a →
     (zb < za)%Z)
  ∧ (0 ≤ za ≤ 20)%Z.
Proof.
  intros za zb. subst za zb. unfold DraggableImage.renderedZIndex. simpl.
  split; [|split].
  - intros -> ->. case_bool_decide; lia.
  - intros -> -> Hselected Hne.
    rewrite (bool_decide_eq_true_2 _ Hselected).
    rewrite bool_decide_eq_false_2; [lia|]. congruence.
  - destruct (DraggableImage.isDragging la); [lia|]. case_bool_decide; lia.
Qed.

(** ** The save latch of the image component *)

Lemma save_latch_step (p : DraggableImage.Props) (ev : DraggableImage.Event)
    (r r' : DraggableImage.Running) :
  DraggableImage.awaiting r
  = (if DraggableImage.isSaving (DraggableImage.local r) then 1 else 0)%nat →
  DraggableImage.step p ev r = Some r' →
  DraggableImage.awaiting r'
  = (if DraggableImage.isSaving (DraggableImage.local r') then 1 else 0)%nat.
Proof.
  intros Hinv Hstep. destruct r as [[saving dragging] n log].
  simpl in Hinv. destruct ev; simpl in Hstep;
    try (injection Hstep as <-; exact Hinv);
    try (destruct (_ && _); [|discriminate]; injection Hstep as <-; exact Hinv).
  - destruct (_ && _) eqn:Hshown; [|discriminate].
    apply andb_true_iff in Hshown as [_ Hsave].
    unfold DraggableImage.handleSaveClick_begin in Hstep.
    rewrite Hsave in Hstep. simpl in Hstep.
    destruct saving; injection Hstep as <-; simpl; lia.
  - destruct n as [|n]; [discriminate|]. injection Hstep as <-. simpl.
    destruct saving; lia.
Qed.

(** X24.  Whatever the user does with an image component, and whatever props it
    is rendered with in between, at most one call of [onSave] is awaited,
    and the saving flag is set exactly while one is: a second save click
    starts nothing, and the flag is cleared when the call settles, also
    when it rejects. *)
Theorem save_click_latch (evs : list (DraggableImage.Props * DraggableImage.Event))
    (r : DraggableImage.Running) :
  DraggableImage.run evs DraggableImage.mounted = Some r →
  DraggableImage.awaiting r
  = (if DraggableImage.isSaving (DraggableImage.local r) then 1 else 0)%nat.
Proof.
  assert (Hgen : ∀ r0,
            DraggableImage.awaiting r0
            = (if DraggableImage.isSaving (DraggableImage.local r0)
               then 1 else 0)%nat →
            DraggableImage.run evs r0 = Some r →
            DraggableImage.awaiting r
            = (if DraggableImage.isSaving (DraggableImage.local r)
               then 1 else 0)%nat).
  { induction evs as [|[p ev] evs IH]; intros r0 Hinv Hrun; simpl in Hrun.
    - by injection Hrun as <-.
    - destruct (DraggableImage.step p ev r0) as [r1|] eqn:Hstep; [|discriminate].
      simpl in Hrun. apply (IH r1); [|exact Hrun].
      by apply (save_latch_step p ev r0 r1). }
  apply Hgen. reflexivity.
Qed.

Lemma save_click_latch_witness :
  match DraggableImage.run
          [ (imageProps exampleState exampleImage, DraggableImage.SaveClick);
            (imageProps exampleState exampleImage, DraggableImage.SaveClick);
            (imageProps exampleState exampleImage,
             DraggableImage.SaveSettled (Rejected (ErrorObject "offline")));
            (imageProps exampleState exampleImage, DraggableImage.SaveClick) ]
          DraggableImage.mounted with
  | Some r =>
      DraggableImage.awaiting r = 1%nat
      ∧ DraggableImage.calls r
        = [ DraggableImage.Save "e1" "https://v3.fal.media/files/e1.png";
            DraggableImage.Save "e1" "https://v3.fal.media/files/e1.png" ]
  | None => False
  end.
Proof.
  destruct (DraggableImage.run _ DraggableImage.mounted) as [r|] eqn:Hrun.
  - pose proof (save_click_latch _ r Hrun) as Hlatch.
    destruct r as [[saving dragging] n log]. vm_compute in Hrun.
    injection Hrun as <- <- <- <-. split; [exact Hlatch|reflexivity].
  - vm_compute in Hrun. discriminate.
Defined.

(** ** Fetching the saved images *)

Lemma settle_resolved (requests : list SavedImages.Row)
    (signed : nat → Outcome SavedImages.SignedUrl) (order : list nat)
    (acc results : list GeneratedImage.t) :
  SavedImages.settle requests signed order acc = Resolved results →
  results = acc ++ omap (SavedImages.contribution requests signed) order.
Proof.
  revert acc. induction order as [|k order IH]; intros acc Hsettle;
    simpl in Hsettle.
  - injection Hsettle as <-. simpl. by rewrite app_nil_r.
  - cbn [omap list_omap]. unfold SavedImages.contribution at 1.
    destruct (requests !! k) as [row|]; simpl.
    + destruct (signed k) as [response|e]; [|discriminate].
      apply IH in Hsettle. rewrite Hsettle, <- app_assoc. f_equal.
      by destruct (SavedImages.pushed row response).
    + by apply IH.
Qed.

Lemma settle_all_resolved (requests : list SavedImages.Row)
    (signed : nat → Outcome SavedImages.SignedUrl) (order : list nat)
    (acc : list GeneratedImage.t) :
  (∀ k, (k < length requests)%nat → ∃ response, signed k = Resolved response) →
  SavedImages.settle requests signed order acc
  = Resolved (acc ++ omap (SavedImages.contribution requests signed) order).
Proof.
  intros Hall. revert acc. induction order as [|k order IH]; intros acc; simpl.
  - by rewrite app_nil_r.
  - unfold SavedImages.contribution at 1.
    destruct (requests !! k) as [row|] eqn:Hrow; simpl.
    + destruct (Hall k) as [response Hresponse];
        [by eapply lookup_lt_Some|].
      rewrite Hresponse, IH, <- app_assoc. do 2 f_equal.
      by destruct (SavedImages.pushed row response).
    + apply IH.
Qed.

Lemma contribution_spec (rows : list SavedImages.Row)
    (signed : nat → Outcome SavedImages.SignedUrl) (k : nat)
    (image : GeneratedImage.t) :
  SavedImages.contribution (SavedImages.requested rows) signed k = Some image →
  ∃ row url,
    row ∈ rows
    ∧ SavedImages.image_id row = Some (GeneratedImage.id image)
    ∧ truthy (GeneratedImage.id image) = true
    ∧ truthy_opt (SavedImages.storage_path row) = true
    ∧ GeneratedImage.imageUrl image = Some url
    ∧ truthy url = true
    ∧ GeneratedImage.promptUsed image
      = Some (default "" (SavedImages.prompt row))
    ∧ GeneratedImage.error image = None.
Proof.
  unfold SavedImages.contribution. intros Hk.
  destruct (SavedImages.requested rows !! k) as [row|] eqn:Hrow; [|done].
  simpl in Hk. apply list_elem_of_lookup_2 in Hrow.
  apply list_elem_of_filter in Hrow as [[Hid Hpath] Hrow].
  destruct (signed k) as [response|e]; [|done].
  unfold SavedImages.pushed in Hk.
  destruct (SavedImages.urlError response); [done|].
  destruct (SavedImages.signedUrl response) as [url|] eqn:Hurl; [|done].
  simpl in Hk. destruct (truthy url) eqn:Htruthy; [|done].
  injection Hk as <-. exists row, url.
  destruct (SavedImages.image_id row) as [id|]; [|done]. simpl in *.
  done.
Qed.

Lemma length_omap_le {A B : Type} (f : A → option B) (l : list A) :
  (length (omap f l) ≤ length l)%nat.
Proof.
  induction l as [|a l IH]; [reflexivity|].
  change (omap f (a :: l))
    with (match f a with Some b => b :: omap f l | None => omap f l end).
  destruct (f a); simpl; lia.
Qed.

(** X25.  [fetchSavedImages]: without a client, on a query error or without
    rows it resolves to the empty list.  Every image it resolves to comes
    from a saved row with an id and a storage path, carries that id, a
    non-empty signed url and the row's prompt (the empty string when the
    row has none), and no error; there are at most as many images as rows.
    Loaded into the catalog, each entry therefore shows exactly the url and
    the prompt of its record, and ["Untitled"] is never substituted.  When
    no signed-url request rejects, the order in which the requests settle
    only permutes the result. *)
Theorem fetched_saved_images (supabase : bool)
    (query : Outcome SavedImages.Query)
    (signed : nat → Outcome SavedImages.SignedUrl) (order : list nat)
    (results : list GeneratedImage.t) :
  SavedImages.fetchSavedImages supabase query signed order = Resolved results →
  ((supabase = false
    ∨ (∃ q, query = Resolved q
            ∧ (SavedImages.dbError q ≠ None ∨ SavedImages.dbData q = None
               ∨ SavedImages.dbData q = Some []))) →
   results = [])
  ∧ (∀ image, image ∈ results →
       ∃ q rows row url,
         query = Resolved q
         ∧ SavedImages.dbData q = Some rows
         ∧ row ∈ rows
         ∧ SavedImages.image_id row = Some (GeneratedImage.id image)
         ∧ truthy (GeneratedImage.id image) = true
         ∧ truthy_opt (SavedImages.storage_path row) = true
         ∧ GeneratedImage.imageUrl image = Some url
         ∧ truthy url = true
         ∧ GeneratedImage.promptUsed image
           = Some (default "" (SavedImages.prompt row))
         ∧ GeneratedImage.error image = None)
  ∧ (∀ st,
       Forall2 (λ image entry,
                  ImageInfo.id entry = GeneratedImage.id image
                  ∧ GeneratedImage.imageUrl image = Some (ImageInfo.src entry)
                  ∧ GeneratedImage.promptUsed image
                    = Some (ImageInfo.prompt entry))
         results
         (savedImages (loadSavedImagesForDropdown_resume (Resolved results) st)))
  ∧ (∀ q rows,
       supabase = true → query = Resolved q →
       SavedImages.dbError q = None → SavedImages.dbData q = Some rows →
       order ≡ₚ seq 0 (length (SavedImages.requested rows)) →
       results
       ≡ₚ omap (SavedImages.contribution (SavedImages.requested rows) signed)
            (seq 0 (length (SavedImages.requested rows)))
       ∧ (length results ≤ length rows)%nat).
Proof.
  intros Hfetch.
  assert (Himages : ∀ image, image ∈ results →
            ∃ q rows row url,
              query = Resolved q
              ∧ SavedImages.dbData q = Some rows
              ∧ row ∈ rows
              ∧ SavedImages.image_id row = Some (GeneratedImage.id image)
              ∧ truthy (GeneratedImage.id image) = true
              ∧ truthy_opt (SavedImages.storage_path row) = true
              ∧ GeneratedImage.imageUrl image = Some url
              ∧ truthy url = true
              ∧ GeneratedImage.promptUsed image
                = Some (default "" (SavedImages.prompt row))
              ∧ GeneratedImage.error image = None).
  { intros image Himage. unfold SavedImages.fetchSavedImages in Hfetch.
    destruct supabase; simpl in Hfetch;
      [|injection Hfetch as <-; by apply elem_of_nil in Himage].
    destruct query as [q|e]; [|discriminate].
    destruct (SavedImages.dbError q);
      [injection Hfetch as <-; by apply elem_of_nil in Himage|].
    destruct (SavedImages.dbData q) as [rows|] eqn:Hdata;
      [|injection Hfetch as <-; by apply elem_of_nil in Himage].
    assert (Hsettle : SavedImages.settle (SavedImages.requested rows) signed
                        order [] = Resolved results).
    { destruct rows; [|exact Hfetch].
      injection Hfetch as <-. by apply elem_of_nil in Himage. }
    apply settle_resolved in Hsettle. simpl in Hsettle. subst results.
    apply list_elem_of_omap in Himage as (k & _ & Hk).
    destruct (contribution_spec rows signed k image Hk)
      as (row & url & Hrest).
    by exists q, rows, row, url. }
  split; [|split; [exact Himages|split]].
  - unfold SavedImages.fetchSavedImages in Hfetch.
    intros [->|(q & -> & Hq)]; simpl in Hfetch; [congruence|].
    destruct supabase; simpl in Hfetch; [|congruence].
    destruct (SavedImages.dbError q); [congruence|].
    destruct Hq as [Hq|[Hq|Hq]]; [done| |]; rewrite Hq in Hfetch; congruence.
  - intros st. unfold loadSavedImagesForDropdown_resume.
    cbn [savedImages setSavedImages setIsLoadingSavedImages].
    apply Forall2_fmap_r, Forall_Forall2_diag, Forall_forall.
    intros image Himage.
    destruct (Himages image Himage)
      as (q & rows & row & url & Hq & Hdata & Hrow & Hid & Htruthy & Hpath
          & Hurl & Hnonempty & Hprompt & Herror).
    simpl. rewrite Hurl, Hprompt. done.
  - intros q rows -> -> Hnoerror Hdata Horder.
    unfold SavedImages.fetchSavedImages in Hfetch. simpl in Hfetch.
    rewrite Hnoerror, Hdata in Hfetch.
    assert (Hresults : results
                       = omap (SavedImages.contribution
                                 (SavedImages.requested rows) signed) order).
    { destruct rows as [|row rows]; [|by apply settle_resolved in Hfetch].
      injection Hfetch as <-. simpl in Horder.
      apply Permutation_nil_r in Horder. by subst order. }
    split.
    + rewrite Hresults. by apply omap_Permutation.
    + rewrite Hresults, Horder.
      etrans; [apply length_omap_le|]. rewrite length_seq.
      apply length_filter.
Qed.

Lemma fetched_saved_images_witness :
  let rows :=
    [ {| SavedImages.image_id := Some "s1";
         SavedImages.prompt := Some "a red fox";
         SavedImages.storage_path := Some "s1.png" |};
      {| SavedImages.image_id := Some "s2";
         SavedImages.prompt := None;
         SavedImages.storage_path := None |};
      {| SavedImages.image_id := Some "s3";
         SavedImages.prompt := None;
         SavedImages.storage_path := Some "s3.jpeg" |} ] in
  let signed (k : nat) :=
    Resolved {| SavedImages.signedUrl :=
                  Some ("https://storage.example/signed/" +:+ pretty k);
                SavedImages.urlError := None |} in
  match SavedImages.fetchSavedImages true
          (Resolved {| SavedImages.dbData := Some rows;
                       SavedImages.dbError := None |})
          signed [1; 0]%nat with
  | Resolved results =>
      results
      = [ GeneratedImage.mk "s3" (Some "https://storage.example/signed/1")
            (Some "") None;
          GeneratedImage.mk "s1" (Some "https://storage.example/signed/0")
            (Some "a red fox") None ]
      ∧ Forall (λ image, truthy (GeneratedImage.id image) = true) results
  | Rejected _ => False
  end.
Proof.
  intros rows signed.
  destruct (SavedImages.fetchSavedImages _ _ _ _) as [results|e] eqn:Hfetch.
  - destruct (fetched_saved_images _ _ _ _ results Hfetch)
      as (_ & Himages & _).
    split.
    + vm_compute in Hfetch. by injection Hfetch as <-.
    + apply Forall_forall. intros image Himage.
      destruct (Himages image Himage)
        as (q & rs & row & url & _ & _ & _ & _ & Htruthy & _).
      exact Htruthy.
  - vm_compute in Hfetch. discriminate.
Defined.

Lemma settle_rejected (requests : list SavedImages.Row)
    (signed : nat → Outcome SavedImages.SignedUrl) (order : list nat)
    (acc : list GeneratedImage.t) (e : Thrown) :
  SavedImages.settle requests signed order acc = Rejected e →
  ∃ k, k ∈ order ∧ (k < length requests)%nat ∧ signed k = Rejected e.
Proof.
  revert acc. induction order as [|k order IH]; intros acc Hsettle;
    simpl in Hsettle; [discriminate|].
  destruct (requests !! k) as [row|] eqn:Hrow.
  - destruct (signed k) as [response|e'] eqn:Hsigned.
    + destruct (IH _ Hsettle) as (k' & Hk' & Hrest). exists k'.
      split; [by apply list_elem_of_further|exact Hrest].
    + injection Hsettle as ->. exists k. split; [apply list_elem_of_here|].
      split; [by eapply lookup_lt_Some|exact Hsigned].
  - destruct (IH _ Hsettle) as (k' & Hk' & Hrest). exists k'.
    split; [by apply list_elem_of_further|exact Hrest].
Qed.

(** X26.  [fetchSavedImages] rejects only with the rejection of the table query
    or of a signed-url request for a row with an id and a storage path; a
    query error is not a rejection.  When the query and every such request
    resolve, it resolves, in whatever order the requests settle. *)
Theorem fetch_saved_images_settles (supabase : bool)
    (query : Outcome SavedImages.Query)
    (signed : nat → Outcome SavedImages.SignedUrl) (order : list nat) :
  (∀ e, SavedImages.fetchSavedImages supabase query signed order = Rejected e →
        supabase = true
        ∧ (query = Rejected e
           ∨ ∃ q rows k,
               query = Resolved q
               ∧ SavedImages.dbError q = None
               ∧ SavedImages.dbData q = Some rows
               ∧ k ∈ order
               ∧ (k < length (SavedImages.requested rows))%nat
               ∧ signed k = Rejected e))
  ∧ (∀ q,
       query = Resolved q →
       (∀ rows k, SavedImages.dbData q = Some rows →
                  (k < length (SavedImages.requested rows))%nat →
                  ∃ response, signed k = Resolved response) →
       ∃ results,
         SavedImages.fetchSavedImages supabase query signed order
         = Resolved results).
Proof.
  unfold SavedImages.fetchSavedImages. split.
  - intros e Hfetch. destruct supabase; [|discriminate]. split; [done|].
    simpl in Hfetch. destruct query as [q|e']; [|left; congruence]. right.
    destruct (SavedImages.dbError q) eqn:Herror; [discriminate|].
    destruct (SavedImages.dbData q) as [[|row rows]|] eqn:Hdata;
      [discriminate| |discriminate].
    apply settle_rejected in Hfetch as (k & Hk & Hlt & Hsigned).
    by exists q, (row :: rows), k.
  - intros q -> Hall. destruct supabase; [|by eexists]. simpl.
    destruct (SavedImages.dbError q); [by eexists|].
    destruct (SavedImages.dbData q) as [[|row rows]|] eqn:Hdata;
      [by eexists| |by eexists].
    eexists. apply settle_all_resolved. intros k Hk. by apply (Hall (row :: rows)).
Qed.

Lemma fetch_saved_images_settles_witness :
  SavedImages.fetchSavedImages true
    (Resolved {| SavedImages.dbData :=
                   Some [ {| SavedImages.image_id := Some "s1";
                             SavedImages.prompt := None;
                             SavedImages.storage_path := Some "s1.png" |} ];
                 SavedImages.dbError := None |})
    (λ _, Rejected (ErrorObject "storage offline")) [0%nat]
  = Rejected (ErrorObject "storage offline")
  ∧ ∃ k, k ∈ [0%nat]
         ∧ (λ _ : nat, Rejected (ErrorObject "storage offline")) k
           = @Rejected SavedImages.SignedUrl (ErrorObject "storage offline").
Proof.
  split; [reflexivity|].
  destruct (proj1 (fetch_saved_images_settles true
                     (Resolved {| SavedImages.dbData :=
                                    Some [ {| SavedImages.image_id := Some "s1";
                                              SavedImages.prompt := None;
                                              SavedImages.storage_path :=
                                                Some "s1.png" |} ];
                                  SavedImages.dbError := None |})
                     (λ _, Rejected (ErrorObject "storage offline")) [0%nat])
              (ErrorObject "storage offline") eq_refl)
    as (_ & [Hquery|(q & rows & k & _ & _ & _ & Hk & _ & Hsigned)]).
  - discriminate.
  - by exists k.
Defined.
